(** * A shallow embedding of the deterministic linear gauge (gauge.py)

    Numbers.  The program computes with IEEE doubles.  This development
    reads every finite double as the rational it denotes and every
    operation as the exact one, so [Q] with its setoid equality [==]
    stands for the finite floats, and the two infinities that the
    program uses as time stamps are added explicitly ([Time], [Until]).
    Rounding and NaN are outside the model. *)

From Stdlib Require Import QArith Qminmax PeanoNat List Bool Lia Lqa Sorted Permutation.
Import ListNotations.
Open Scope Q_scope.

(** ** Numbers, comparisons, infinities *)

Definition Qltb (x y : Q) : bool := negb (Qle_bool y x).

(** Python's [min(a, b)] and [max(a, b)]: the first of the best ones. *)
Definition pymin (a b : Q) : Q := if Qltb b a then b else a.
Definition pymax (a b : Q) : Q := if Qltb a b then b else a.

(** A float used as a time stamp: [-inf], a finite number or [+inf]. *)
Inductive Time : Type :=
| NInf : Time
| Fin : Q -> Time
| PInf : Time.

Definition Tleb (a b : Time) : bool :=
  match a, b with
  | NInf, _ => true
  | _, PInf => true
  | Fin x, Fin y => Qle_bool x y
  | _, _ => false
  end.

Definition Teqb (a b : Time) : bool :=
  match a, b with
  | NInf, NInf => true
  | PInf, PInf => true
  | Fin x, Fin y => Qeq_bool x y
  | _, _ => false
  end.

Definition Tltb (a b : Time) : bool := negb (Tleb b a).

(** The end of a line and the horizon of one event: a finite time or
    [+inf].  [max(time, base_time)] with a finite base time is never
    [-inf], which is what [normalize] records. *)
Inductive Until : Type :=
| At : Q -> Until
| Forever : Until.

Definition normalize (time : Time) (base_time : Q) : Until :=
  match time with
  | NInf => At base_time
  | Fin t => At (pymax t base_time)
  | PInf => Forever
  end.

(** [a <= u], [a < u], [u <= a] for a finite [a] and an end [u]. *)
Definition le_until (a : Q) (u : Until) : bool :=
  match u with At x => Qle_bool a x | Forever => true end.
Definition lt_until (a : Q) (u : Until) : bool :=
  match u with At x => Qltb a x | Forever => true end.
Definition until_le (u : Until) (a : Q) : bool :=
  match u with At x => Qle_bool x a | Forever => false end.

(** [u <= v] and [u < v] on ends. *)
Definition Uleb (u v : Until) : bool :=
  match u, v with
  | _, Forever => true
  | At x, At y => Qle_bool x y
  | Forever, At _ => false
  end.
Definition Ultb (u v : Until) : bool := negb (Uleb v u).

(** [min(u, v)], first of the least. *)
Definition Umin (u v : Until) : Until := if Ultb v u then v else u.

(** ** Exceptions *)

Inductive Error : Type :=
| OutOfRange        (* ValueError: incr beyond a limit *)
| BadMomentum       (* ValueError: 'since' should be earlier than 'until' *)
| NotFound          (* ValueError: momentum not in the gauge *)
| Unreachable       (* ValueError: the gauge will not reach the goal *)
| OutOfTimeRange    (* ValueError: Line.get outside since..until *)
| ParallelLines     (* ValueError: Line.intersect, equal velocities *)
| NoIntersection    (* ValueError: intersection not in the time range *)
| NotInList         (* ValueError: list.remove(x), x not in list *)
| ZeroDivisionError
| IndexError
| AttributeError
| StopIteration
| OutOfFuel.        (* not an exception of the program: the loop budget
                       of this model was exhausted *)

Definition is_ValueError (e : Error) : bool :=
  match e with
  | OutOfRange | BadMomentum | NotFound | Unreachable | OutOfTimeRange
  | ParallelLines | NoIntersection | NotInList => true
  | _ => false
  end.

Inductive result (A : Type) : Type :=
| Ok : A -> result A
| Raise : Error -> result A.
Arguments Ok {A} _.
Arguments Raise {A} _.

Definition bind {A B} (r : result A) (k : A -> result B) : result B :=
  match r with Ok a => k a | Raise e => Raise e end.

Notation "x <- c ;; k" := (bind c (fun x => k))
  (at level 61, c at next level, right associativity).

(** ** Lines *)

Inductive Line : Type :=
| Horizon (since : Q) (until : Until) (value : Q)
| Ray (since : Q) (until : Until) (value velocity : Q)
| Segment (since until value final : Q).

Module Line.

Definition since (l : Line) : Q :=
  match l with Horizon s _ _ | Ray s _ _ _ | Segment s _ _ _ => s end.

Definition until (l : Line) : Until :=
  match l with
  | Horizon _ u _ | Ray _ u _ _ => u
  | Segment _ u _ _ => At u
  end.

Definition value (l : Line) : Q :=
  match l with Horizon _ _ v | Ray _ _ v _ | Segment _ _ v _ => v end.

(** [Segment.velocity] divides by [until - since]. *)
Definition velocity (l : Line) : result Q :=
  match l with
  | Horizon _ _ _ => Ok 0
  | Ray _ _ _ v => Ok v
  | Segment s u v f =>
      if Qeq_bool (u - s) 0 then Raise ZeroDivisionError
      else Ok ((f - v) / (u - s))
  end.

Definition _get (l : Line) (at_ : Q) : Q :=
  match l with
  | Horizon _ _ v => v
  | Ray s _ v vel => v + vel * (at_ - s)
  | Segment s u v f =>
      if Qeq_bool at_ s then v
      else if Qeq_bool at_ u then f
      else v + ((at_ - s) / (u - s)) * (f - v)
  end.

Definition get (l : Line) (at_ : Q) : result Q :=
  if Qle_bool (since l) at_ && le_until at_ (until l)
  then Ok (_get l at_)
  else Raise OutOfTimeRange.

Definition _earlier (l : Line) (at_ : Q) : Q := value l.

(** [_later] is only reached from [guess] when [at > until], so [until]
    is finite there. *)
Definition _later (l : Line) (u : Q) : Q :=
  match l with
  | Horizon _ _ v => v
  | Ray _ _ _ _ => _get l u
  | Segment _ _ _ f => f
  end.

Definition guess (l : Line) (at_ : Q) : result Q :=
  if Qltb at_ (since l) then Ok (_earlier l at_)
  else match until l with
       | At u => if Qltb u at_ then Ok (_later l u) else get l at_
       | Forever => get l at_
       end.

Definition intercept (l : Line) : result Q :=
  vel <- velocity l ;; Ok (value l - vel * since l).

Definition intersect (self line : Line) : result (Q * Q) :=
  li <- intercept line ;;
  si <- intercept self ;;
  sv <- velocity self ;;
  lv <- velocity line ;;
  let intercept_delta := li - si in
  let velocity_delta := sv - lv in
  if Qeq_bool velocity_delta 0 then Raise ParallelLines
  else
    let time := intercept_delta / velocity_delta in
    let since_ := pymax (since self) (since line) in
    let until_ := Umin (until self) (until line) in
    if Qle_bool since_ time && le_until time until_ then
      value_ <- get self time ;; Ok (time, value_)
    else Raise NoIntersection.

End Line.

(** ** Momenta and events *)

Record Momentum : Type := mkMomentum {
  m_velocity : Q;
  m_since : Time;
  m_until : Time
}.

(** Equality of the named tuples, field by field. *)
Definition Meqb (a b : Momentum) : bool :=
  Qeq_bool (m_velocity a) (m_velocity b)
  && Teqb (m_since a) (m_since b)
  && Teqb (m_until a) (m_until b).

(** The check of [_make_momentum]. *)
Definition valid_momentum (m : Momentum) : bool :=
  Teqb (m_since m) NInf || Teqb (m_until m) PInf
  || Tltb (m_since m) (m_until m).

Definition _make_momentum (m : Momentum) : result Momentum :=
  if valid_momentum m then Ok m else Raise BadMomentum.

Inductive Method : Type := ADD | REMOVE.

Definition Method_eqb (a b : Method) : bool :=
  match a, b with ADD, ADD | REMOVE, REMOVE => true | _, _ => false end.

Definition Event : Type := (Time * Method * Momentum)%type.

Definition Eeqb (a b : Event) : bool :=
  let '(ta, ma, pa) := a in
  let '(tb, mb, pb) := b in
  Teqb ta tb && Method_eqb ma mb && Meqb pa pb.

(** Tuples are ordered lexicographically; [REMOVE = -1 < ADD = +1]. *)
Definition Tcompare (a b : Time) : comparison :=
  match a, b with
  | NInf, NInf => Eq
  | NInf, _ => Lt
  | _, NInf => Gt
  | PInf, PInf => Eq
  | PInf, _ => Gt
  | _, PInf => Lt
  | Fin x, Fin y => x ?= y
  end.

Definition Method_compare (a b : Method) : comparison :=
  match a, b with
  | REMOVE, ADD => Lt
  | ADD, REMOVE => Gt
  | _, _ => Eq
  end.

Definition lex (c d : comparison) : comparison :=
  match c with Eq => d | _ => c end.

Definition Mcompare (a b : Momentum) : comparison :=
  lex (m_velocity a ?= m_velocity b)
      (lex (Tcompare (m_since a) (m_since b))
           (Tcompare (m_until a) (m_until b))).

Definition Ecompare (a b : Event) : comparison :=
  let '(ta, ma, pa) := a in
  let '(tb, mb, pb) := b in
  lex (Tcompare ta tb) (lex (Method_compare ma mb) (Mcompare pa pb)).

Definition is_Lt (c : comparison) : bool :=
  match c with Lt => true | _ => false end.

(** [SortedList.add]: the new item goes after the items not greater. *)
Fixpoint insort {A} (lt : A -> A -> bool) (x : A) (l : list A) : list A :=
  match l with
  | [] => [x]
  | y :: r => if lt x y then x :: l else y :: insort lt x r
  end.

(** [list.remove] and [SortedList.remove]: the first equal item goes;
    [None] when there is none. *)
Fixpoint remove_first {A} (eqb : A -> A -> bool) (x : A) (l : list A)
  : option (list A) :=
  match l with
  | [] => None
  | y :: r =>
      if eqb y x then Some r
      else match remove_first eqb x r with
           | Some r' => Some (y :: r')
           | None => None
           end
  end.

Definition contains {A} (eqb : A -> A -> bool) (x : A) (l : list A) : bool :=
  existsb (fun y => eqb y x) l.

(** [momenta] is a [SortedListWithKey] keyed by [until]. *)
Definition key_lt (a b : Momentum) : bool := Tltb (m_until a) (m_until b).

Definition momenta_add (m : Momentum) (l : list Momentum) : list Momentum :=
  insort key_lt m l.

(** [bisect_left] and [bisect_right] of a key in the sorted keys. *)
Fixpoint bisect_key_left (k : Time) (l : list Momentum) : nat :=
  match l with
  | [] => 0
  | m :: r => if Tltb (m_until m) k then S (bisect_key_left k r) else 0
  end%nat.

Fixpoint bisect_key_right (k : Time) (l : list Momentum) : nat :=
  match l with
  | [] => 0
  | m :: r => if Tleb (m_until m) k then S (bisect_key_right k r) else 0
  end%nat.

(** [del l[start:stop]]. *)
Definition del_slice {A} (start stop : nat) (l : list A) : list A :=
  firstn start l ++ skipn (Nat.max start stop) l.

Definition events_add (e : Event) (l : list Event) : list Event :=
  insort (fun a b => is_Lt (Ecompare a b)) e l.

(** ** Gauges *)

Definition Vertex : Type := (Q * Q)%type.

Inductive Limit (G : Type) : Type :=
| Number (q : Q)
| Bound (g : G).
Arguments Number {G} _.
Arguments Bound {G} _.

(** The fields of a [Gauge] object.  [_links], the weak references to the
    gauges that use this one as a limit, is not represented: a limit is
    held by value, and the gauges below are always read after their
    limits were built. *)
#[warnings="-register-all"]
Inductive Gauge : Type :=
  mkGauge (base : Q * Q) (momenta : list Momentum)
          (_max _min : Limit Gauge) (_events : list Event)
          (_determination : option (list Vertex)).

Definition base (g : Gauge) := let '(mkGauge b _ _ _ _ _) := g in b.
Definition momenta (g : Gauge) := let '(mkGauge _ m _ _ _ _) := g in m.
Definition _max (g : Gauge) := let '(mkGauge _ _ x _ _ _) := g in x.
Definition _min (g : Gauge) := let '(mkGauge _ _ _ x _ _) := g in x.
Definition _events (g : Gauge) := let '(mkGauge _ _ _ _ e _) := g in e.
Definition _determination (g : Gauge) :=
  let '(mkGauge _ _ _ _ _ d) := g in d.

Definition TIME (p : Q * Q) : Q := fst p.
Definition VALUE (p : Q * Q) : Q := snd p.

(** ** Boundaries *)

Inductive Side : Type := Ceil | Floor.

Record Boundary : Type := mkBoundary {
  line : Line;
  lines_iter : list Line
}.

Module Boundary.

(** [operator.lt] for the ceiling, [operator.gt] for the floor. *)
Definition cmp (b : Side) (x y : Q) : bool :=
  match b with Ceil => Qltb x y | Floor => Qltb y x end.

Definition best (b : Side) (x y : Q) : Q :=
  match b with Ceil => pymin x y | Floor => pymax x y end.

Definition cmp_eq (b : Side) (x y : Q) : bool := Qeq_bool x y || cmp b x y.

(** [walk]: [next(lines_iter)]. *)
Definition walk (lines : list Line) : result Boundary :=
  match lines with
  | [] => Raise StopIteration
  | l :: r => Ok (mkBoundary l r)
  end.

(** [while boundary.line.until <= since: boundary.walk()]. *)
Fixpoint skip_past (since : Q) (l : Line) (rest : list Line)
  : result Boundary :=
  if until_le (Line.until l) since then
    match rest with
    | [] => Raise StopIteration
    | l' :: r => skip_past since l' r
    end
  else Ok (mkBoundary l rest).

End Boundary.

(** ** The determiner *)

(** The local variables of [Gauge.determine], and the vertices yielded
    so far. *)
Record DState : Type := mkDState {
  since : Q;
  value : Q;
  velocity : Q;
  velocities : list Q;
  bound : option Side;
  overlapped : bool;
  ceil : Boundary;
  floor : Boundary;
  again : bool;
  walked_boundaries : list Side;
  yielded : list Vertex
}.

Definition boundary_of (s : DState) (b : Side) : Boundary :=
  match b with Ceil => ceil s | Floor => floor s end.

Definition with_boundary (s : DState) (b : Side) (x : Boundary) : DState :=
  match b with
  | Ceil => mkDState (since s) (value s) (velocity s) (velocities s)
              (bound s) (overlapped s) x (floor s) (again s)
              (walked_boundaries s) (yielded s)
  | Floor => mkDState (since s) (value s) (velocity s) (velocities s)
              (bound s) (overlapped s) (ceil s) x (again s)
              (walked_boundaries s) (yielded s)
  end.

Definition with_walked (s : DState) (a : bool) (w : list Side) : DState :=
  mkDState (since s) (value s) (velocity s) (velocities s) (bound s)
    (overlapped s) (ceil s) (floor s) a w (yielded s).

Definition with_velocity (s : DState) (v : Q) : DState :=
  mkDState (since s) (value s) v (velocities s) (bound s) (overlapped s)
    (ceil s) (floor s) (again s) (walked_boundaries s) (yielded s).

(** [bound, overlapped = b, o] together with [again = a]. *)
Definition with_bound (s : DState) (b : option Side) (o a : bool) : DState :=
  mkDState (since s) (value s) (velocity s) (velocities s) b o
    (ceil s) (floor s) a (walked_boundaries s) (yielded s).

(** [since, value = t, v; yield (since, value)]. *)
Definition move_and_yield (s : DState) (t v : Q) : DState :=
  mkDState t v (velocity s) (velocities s) (bound s) (overlapped s)
    (ceil s) (floor s) (again s) (walked_boundaries s)
    (yielded s ++ [(t, v)]).

Definition with_velocities (s : DState) (vs : list Q) : DState :=
  mkDState (since s) (value s) (velocity s) vs (bound s) (overlapped s)
    (ceil s) (floor s) (again s) (walked_boundaries s) (yielded s).

(** [sum(velocities)]. *)
Definition sum (l : list Q) : Q := fold_left Qplus l 0.

(** How one pass through the body of the [while] loop ends. *)
Inductive Flow : Type :=
| Continue (s : DState)
| Break (s : DState)
| Throw (e : Error) (s : DState).

(** The first [for boundary in walked_boundaries]: the first boundary
    whose line the current ray meets later than [since]. *)
Fixpoint find_intersection (s : DState) (ray : Line) (bs : list Side)
  : result (option (Side * Q * Q)) :=
  match bs with
  | [] => Ok None
  | b :: rest =>
      match Line.intersect ray (line (boundary_of s b)) with
      | Raise e =>
          if is_ValueError e then find_intersection s ray rest
          else Raise e
      | Ok (t, v) =>
          if Qeq_bool t (since s) then find_intersection s ray rest
          else
            g <- Line.guess (line (boundary_of s b)) t ;;
            Ok (Some (b, t, Boundary.best b v g))
      end
  end.

(** The second one: the first boundary that the ray has passed at the
    end of the stretch although no intersection was found. *)
Fixpoint find_missing (s : DState) (ray : Line) (until : Until)
  (bs : list Side) : result (option (Side * Q * Q)) :=
  match bs with
  | [] => Ok None
  | b :: rest =>
      match Umin (Line.until (line (boundary_of s b))) until with
      | Forever => find_missing s ray until rest
      | At bound_until =>
          if Qltb bound_until (since s) then find_missing s ray until rest
          else
            boundary_value <- Line.get (line (boundary_of s b)) bound_until ;;
            ray_value <- Line.get ray bound_until ;;
            if Boundary.cmp_eq b ray_value boundary_value
            then find_missing s ray until rest
            else Ok (Some (b, bound_until, boundary_value))
      end
  end.

(** From "current value line" to the end of the body. *)
Definition follow (until : Until) (s : DState) : Flow :=
  let ray := Ray (since s) until (value s) (velocity s) in
  if overlapped s then
    match bound s with
    | None => Throw AttributeError s
    | Some b =>
        match Umin (Line.until (line (boundary_of s b))) until with
        | Forever => Break s
        | At bound_until =>
            match Line.get (line (boundary_of s b)) bound_until with
            | Raise e => Throw e s
            | Ok v => Continue (move_and_yield s bound_until v)
            end
        end
    end
  else
    match find_intersection s ray (walked_boundaries s) with
    | Raise e => Throw e s
    | Ok (Some (b, t, v)) =>
        Continue (move_and_yield (with_bound s (Some b) true true) t v)
    | Ok None =>
        match bound s with
        | Some _ => Continue s
        | None =>
            match find_missing s ray until (walked_boundaries s) with
            | Raise e => Throw e s
            | Ok (Some (b, t, v)) =>
                Continue
                  (move_and_yield (with_bound s (Some b) true (again s)) t v)
            | Ok None => Continue s
            end
        end
    end.

(** From "calculate velocity" on. *)
Definition advance (until : Until) (s : DState) : Flow :=
  let total := sum (velocities s) in
  let r :=
    match bound s with
    | None => Ok total
    | Some b =>
        if overlapped s then
          lv <- Line.velocity (line (boundary_of s b)) ;;
          Ok (Boundary.best b total lv)
        else
          Ok (sum (filter (fun v => Boundary.cmp b v 0) (velocities s)))
    end in
  match r with
  | Raise e => Throw e s
  | Ok vel =>
      let s := with_velocity s vel in
      if overlapped s then
        match bound s with
        | None => Throw AttributeError s
        | Some b =>
            match Line.velocity (line (boundary_of s b)) with
            | Raise e => Throw e s
            | Ok lv =>
                if Boundary.cmp b vel lv
                then Continue (with_bound s None false true)
                else follow until s
            end
        end
      else follow until s
  end.

(** One pass through the body of [while since < until]. *)
Definition body (until : Until) (s : DState) : Flow :=
  if again s then
    advance until (with_walked s false [Ceil; Floor])
  else if Uleb until (Line.until (line (ceil s)))
          && Uleb until (Line.until (line (floor s)))
  then Break s
  else
    let b := if Ultb (Line.until (line (floor s)))
                     (Line.until (line (ceil s)))
             then Floor else Ceil in
    match Boundary.walk (lines_iter (boundary_of s b)) with
    | Raise e => Throw e s
    | Ok x => advance until (with_walked (with_boundary s b x) false [b])
    end.

(** How a loop, or the generator, ends. *)
Inductive Outcome : Type :=
| Done (s : DState)
| Failed (e : Error) (s : DState).

(** The [while] loop; [fuel] bounds the number of passes. *)
Fixpoint while (fuel : nat) (until : Until) (s : DState) : Outcome :=
  if lt_until (since s) until then
    match fuel with
    | O => Failed OutOfFuel s
    | S fuel' =>
        match body until s with
        | Continue s' => while fuel' until s'
        | Break s' => Done s'
        | Throw e s' => Failed e s'
        end
    end
  else Done s.

(** Passes that one stretch can need: each pass that walks uses up a
    line, and between two walks the flags allow only a few passes. *)
Definition budget (s : DState) : nat :=
  (17 * (length (lines_iter (ceil s)) + length (lines_iter (floor s)) + 1))%nat.

(** One turn of [for time, method, momentum in self.walk_events()], for
    an event that is yielded; [method = None] is one of the two
    sentinels.  [Break] leaves the [for] loop. *)
Definition on_event (base_time : Q) (time : Time)
  (method : option (Method * Momentum)) (s : DState) : Flow :=
  let until := normalize time base_time in
  match while (budget s) until (with_walked s true (walked_boundaries s)) with
  | Failed e s' => Throw e s'
  | Done s' =>
      match until with
      | Forever => Break s'
      | At u =>
          let v := value s' + velocity s' * (u - since s') in
          let s2 := move_and_yield s' u v in
          match method with
          | None => Continue s2
          | Some (ADD, m) =>
              Continue (with_velocities s2 (velocities s2 ++ [m_velocity m]))
          | Some (REMOVE, m) =>
              match remove_first Qeq_bool (m_velocity m) (velocities s2) with
              | Some vs => Continue (with_velocities s2 vs)
              | None => Throw NotInList s2
              end
          end
      end
  end.

(** The events of the log, as [walk_events] goes through its snapshot:
    an event whose momentum is no longer in [momenta] is taken out of
    the log and skipped, the others are yielded to the loop above; the
    last one is the sentinel [(+inf, None, None)].  The first component
    is the log as the generator leaves it. *)
Fixpoint for_events (base_time : Q) (momenta : list Momentum)
  (snapshot log : list Event) (s : DState) : list Event * Outcome :=
  match snapshot with
  | [] =>
      match on_event base_time PInf None s with
      | Continue s' | Break s' => (log, Done s')
      | Throw e s' => (log, Failed e s')
      end
  | (time, method, momentum) :: rest =>
      if negb (contains Meqb momentum momenta) then
        match remove_first Eeqb (time, method, momentum) log with
        | Some log' => for_events base_time momenta rest log' s
        | None => (log, Failed NotInList s)
        end
      else
        match on_event base_time time (Some (method, momentum)) s with
        | Continue s' => for_events base_time momenta rest log s'
        | Break s' => (log, Done s')
        | Throw e s' => (log, Failed e s')
        end
  end.

(** [zip(determination[:-1], determination[1:])]: the pairs of
    neighbours. *)
Fixpoint zipped_determination (d : list Vertex) : list (Vertex * Vertex) :=
  match d with
  | node1 :: (node2 :: _) as rest => (node1, node2) :: zipped_determination rest
  | _ => []
  end.

Definition segments (d : list Vertex) : list Line :=
  map (fun '(node1, node2) =>
         Segment (TIME node1) (TIME node2) (VALUE node1) (VALUE node2))
      (zipped_determination d).

(** [walk_lines] for a limit that is a gauge with determination [d]. *)
Definition lines_of_determination (base_time : Q) (d : list Vertex)
  : result (list Line) :=
  match d with
  | [] => Raise IndexError
  | first :: _ =>
      let last := List.last d first in
      Ok ((if Qltb base_time (TIME first)
           then [Horizon base_time (At (TIME first)) (VALUE first)]
           else [])
          ++ segments d
          ++ [Horizon (TIME last) Forever (VALUE last)])
  end.

(** [walk_lines] for a number. *)
Definition lines_of_number (base_time : Q) (v : Q) : list Line :=
  [Horizon base_time Forever v].

(** The two boundaries before the events: built, walked past the lines
    that end by [since], and checked for overflow. *)
Definition start (b : Q * Q) (ceil_lines floor_lines : list Line)
  : result DState :=
  let since := TIME b in
  let value := VALUE b in
  c0 <- Boundary.walk ceil_lines ;;
  f0 <- Boundary.walk floor_lines ;;
  c <- Boundary.skip_past since (line c0) (lines_iter c0) ;;
  cv <- Line.guess (line c) since ;;
  let bound := if Boundary.cmp Ceil cv value then Some Ceil else None in
  f <- Boundary.skip_past since (line f0) (lines_iter f0) ;;
  bound' <- match bound with
            | Some x => Ok (Some x)
            | None =>
                fv <- Line.guess (line f) since ;;
                Ok (if Boundary.cmp Floor fv value then Some Floor else None)
            end ;;
  Ok (mkDState since value 0 [] bound' false c f true [Ceil; Floor] []).

(** [determine], once the lines of the two limits are known: the
    vertices it yields, the exception that ended it if any, and the
    event log afterwards. *)
Definition determine (b : Q * Q) (momenta : list Momentum)
  (events : list Event) (ceil_lines floor_lines : list Line)
  : list Vertex * option Error * list Event :=
  match start b ceil_lines floor_lines with
  | Raise e => ([], Some e, events)
  | Ok s0 =>
      match on_event (TIME b) (Fin (TIME b)) None s0 with
      | Break s => (yielded s, None, events)
      | Throw e s => (yielded s, Some e, events)
      | Continue s =>
          match for_events (TIME b) momenta events events s with
          | (log, Done s') => (yielded s', None, log)
          | (log, Failed e s') => (yielded s', Some e, log)
          end
      end
  end.

(** The loop of the [determination] property: a vertex at the time of
    the vertex before it is dropped. *)
Fixpoint cache_vertices (prev_time : option Q) (l : list Vertex)
  : list Vertex :=
  match l with
  | [] => []
  | (time, value) :: rest =>
      if match prev_time with
         | Some p => Qeq_bool p time
         | None => false
         end
      then cache_vertices prev_time rest
      else (time, value) :: cache_vertices (Some time) rest
  end.

(** The [determination] property: the cached list if there is one;
    otherwise the limits are read (which may fill their caches), the
    generator runs, and what it yielded is cached, also when it ends in
    an exception.  The result comes with the gauge after the read. *)
Fixpoint read (g : Gauge) : result (list Vertex) * Gauge :=
  let '(mkGauge b ms mx mn evs cached) := g in
  match cached with
  | Some d => (Ok d, g)
  | None =>
      let '(cl, mx') :=
        match mx with
        | Number v => (Ok (lines_of_number (TIME b) v), mx)
        | Bound gm =>
            let '(r, gm') := read gm in
            (d <- r ;; lines_of_determination (TIME b) d, Bound gm')
        end in
      match cl with
      | Raise e => (Raise e, mkGauge b ms mx' mn evs (Some []))
      | Ok ceil_lines =>
          let '(fl, mn') :=
            match mn with
            | Number v => (Ok (lines_of_number (TIME b) v), mn)
            | Bound gm =>
                let '(r, gm') := read gm in
                (d <- r ;; lines_of_determination (TIME b) d, Bound gm')
            end in
          match fl with
          | Raise e => (Raise e, mkGauge b ms mx' mn' evs (Some []))
          | Ok floor_lines =>
              let '(ys, err, log) := determine b ms evs ceil_lines floor_lines in
              let d := cache_vertices None ys in
              (match err with None => Ok d | Some e => Raise e end,
               mkGauge b ms mx' mn' log (Some d))
          end
      end
  end.

Definition determination (g : Gauge) : result (list Vertex) := fst (read g).

(** ** The facade *)

(** [Gauge(value, max, min, at)]. *)
Definition new_gauge (value : Q) (max min : Limit Gauge) (at_ : Q) : Gauge :=
  mkGauge (at_, value) [] max min [] None.

(** [invalidate]: the cached determination is deleted. *)
Definition invalidate (g : Gauge) : Gauge :=
  mkGauge (base g) (momenta g) (_max g) (_min g) (_events g) None.

(** A method of a gauge: what it returns or raises, and the gauge
    afterwards. *)
Definition method (A : Type) : Type := Gauge -> result A * Gauge.

Definition with_max (g : Gauge) (x : Limit Gauge) : Gauge :=
  mkGauge (base g) (momenta g) x (_min g) (_events g) (_determination g).
Definition with_min (g : Gauge) (x : Limit Gauge) : Gauge :=
  mkGauge (base g) (momenta g) (_max g) x (_events g) (_determination g).

(** [bisect_left(determination, (at,))] on a list sorted by time: the
    number of vertices at times before [at]. *)
Fixpoint bisect_left (d : list Vertex) (at_ : Q) : nat :=
  match d with
  | [] => 0
  | p :: r => if Qltb (TIME p) at_ then S (bisect_left r at_) else 0
  end%nat.

Definition value_and_velocity_in (d : list Vertex) (at_ : Q)
  : result (Q * Q) :=
  let x := if Nat.eqb (length d) 1 then 0%nat else bisect_left d at_ in
  match x with
  | O =>
      match d with
      | [] => Raise IndexError
      | first :: _ => Ok (VALUE first, 0)
      end
  | S x' =>
      match nth_error d x with
      | None =>
          match d with
          | [] => Raise IndexError
          | first :: _ => Ok (VALUE (List.last d first), 0)
          end
      | Some (until, final) =>
          match nth_error d x' with
          | None => Raise IndexError
          | Some (since, value) =>
              let seg := Segment since until value final in
              v <- Line.get seg at_ ;;
              vel <- Line.velocity seg ;;
              Ok (v, vel)
          end
      end
  end.

Definition _value_and_velocity (at_ : Q) : method (Q * Q) := fun g =>
  let '(r, g') := read g in
  (d <- r ;; value_and_velocity_in d at_, g').

Definition get (at_ : Q) : method Q := fun g =>
  let '(r, g') := _value_and_velocity at_ g in
  (p <- r ;; Ok (fst p), g').

Definition velocity_at (at_ : Q) : method Q := fun g =>
  let '(r, g') := _value_and_velocity at_ g in
  (p <- r ;; Ok (snd p), g').

(** [_get_limit]: a limit that is a gauge is read at [at]. *)
Definition get_max (at_ : Q) : method Q := fun g =>
  match _max g with
  | Number v => (Ok v, g)
  | Bound l => let '(r, l') := get at_ l in (r, with_max g (Bound l'))
  end.

Definition get_min (at_ : Q) : method Q := fun g =>
  match _min g with
  | Number v => (Ok v, g)
  | Bound l => let '(r, l') := get at_ l in (r, with_min g (Bound l'))
  end.

(** [_coerce_and_remove_momenta] with a given value. *)
Definition _coerce_and_remove_momenta (value at_ : Q) (start stop : nat)
  : method Q := fun g =>
  (Ok value,
   mkGauge (at_, value) (del_slice start stop (momenta g))
     (_max g) (_min g) (_events g) None).

Definition forget_past (value : option Q) (at_ : Q) : method Q := fun g =>
  let start := bisect_key_right NInf (momenta g) in
  let stop := bisect_key_left (Fin at_) (momenta g) in
  match value with
  | Some v => _coerce_and_remove_momenta v at_ start stop g
  | None =>
      match get at_ g with
      | (Ok v, g') => _coerce_and_remove_momenta v at_ start stop g'
      | (Raise e, g') => (Raise e, g')
      end
  end.

Definition incr (delta : Q) (over clamp : bool) (at_ : Q) : method Q :=
  fun g =>
  match get at_ g with
  | (Raise e, g1) => (Raise e, g1)
  | (Ok prev_value, g1) =>
      let value := prev_value + delta in
      match get_max at_ g1 with
      | (Raise e, g2) => (Raise e, g2)
      | (Ok max_, g2) =>
          match get_min at_ g2 with
          | (Raise e, g3) => (Raise e, g3)
          | (Ok min_, g3) =>
              if over then forget_past (Some value) at_ g3
              else if clamp then
                let value :=
                  if Qltb 0 delta && Qltb max_ value
                  then pymax prev_value max_
                  else if Qltb delta 0 && Qltb value min_
                  then pymin prev_value min_
                  else value in
                forget_past (Some value) at_ g3
              else if Qltb 0 delta && Qltb max_ value
              then (Raise OutOfRange, g3)
              else if Qltb delta 0 && Qltb value min_
              then (Raise OutOfRange, g3)
              else forget_past (Some value) at_ g3
          end
      end
  end.

Definition decr (delta : Q) (over clamp : bool) (at_ : Q) : method Q :=
  incr (- delta) over clamp at_.

Definition set (value : Q) (over clamp : bool) (at_ : Q) : method Q :=
  fun g =>
  match get at_ g with
  | (Raise e, g1) => (Raise e, g1)
  | (Ok v, g1) => incr (value - v) over clamp at_ g1
  end.

(** [whenever], on the determination: the loop over the pairs of
    neighbours. *)
Definition crosses (value : Q) (nodes : Vertex * Vertex) : bool :=
  let '((time1, value1), (time2, value2)) := nodes in
  Qltb value1 value && Qle_bool value value2
  || Qltb value value1 && Qle_bool value2 value.

Definition crossing_time (value : Q) (nodes : Vertex * Vertex) : Q :=
  let '((time1, value1), (time2, value2)) := nodes in
  let ratio := (value - value1) / (value2 - value1) in
  time1 + (time2 - time1) * ratio.

Fixpoint crossings (pairs : list (Vertex * Vertex)) (value : Q) : list Q :=
  match pairs with
  | [] => []
  | nodes :: rest =>
      if negb (crosses value nodes) then crossings rest value
      else crossing_time value nodes :: crossings rest value
  end.

Definition whenever_in (d : list Vertex) (value : Q) : list Q :=
  match d with
  | [] => []
  | (first_time, first_value) :: _ =>
      (if Qeq_bool first_value value then [first_time] else [])
      ++ crossings (zipped_determination d) value
  end.

Definition whenever (value : Q) : method (list Q) := fun g =>
  let '(r, g') := read g in
  (d <- r ;; Ok (whenever_in d value), g').

Definition when (value : Q) (after : nat) : method Q := fun g =>
  match whenever value g with
  | (Raise e, g') => (Raise e, g')
  | (Ok l, g') =>
      match nth_error l after with
      | Some at_ => (Ok at_, g')
      | None => (Raise Unreachable, g')
      end
  end.

Definition add_momentum (m : Momentum) : method Momentum := fun g =>
  match _make_momentum m with
  | Raise e => (Raise e, g)
  | Ok momentum =>
      let ms := momenta_add momentum (momenta g) in
      let es := events_add (m_since momentum, ADD, momentum) (_events g) in
      let es := if Teqb (m_until momentum) PInf then es
                else events_add (m_until momentum, REMOVE, momentum) es in
      (Ok momentum, mkGauge (base g) ms (_max g) (_min g) es None)
  end.

Definition remove_momentum (m : Momentum) : method unit := fun g =>
  match _make_momentum m with
  | Raise e => (Raise e, g)
  | Ok momentum =>
      match remove_first Meqb momentum (momenta g) with
      | None => (Raise NotFound, g)
      | Some ms =>
          (Ok tt, mkGauge (base g) ms (_max g) (_min g) (_events g) None)
      end
  end.

(** ** Scenarios *)

Definition after {A} (r : result A * Gauge) : Gauge := snd r.

Definition momentum (v : Q) (since until : Time) : Momentum :=
  mkMomentum v since until.

Definition scenario_C : Gauge :=
  let g := new_gauge 12 (Number 10) (Number 0) 0 in
  let g := after (add_momentum (momentum 1 (Fin 0) (Fin 4)) g) in
  after (add_momentum (momentum (-2) (Fin 0) (Fin 4)) g).

Definition scenario_E_max : Gauge :=
  after (add_momentum (momentum (-1) NInf (Fin 5))
           (new_gauge 15 (Number 15) (Number 0) 0)).

Definition scenario_E : Gauge :=
  let g := new_gauge 12 (Bound scenario_E_max) (Number 100) 0 in
  let g := after (add_momentum (momentum 1 (Fin 1) (Fin 6)) g) in
  after (add_momentum (momentum (-1) (Fin 3) (Fin 8)) g).


(** Two vertex lists that denote the same points. *)
Definition veq (a b : Vertex) : Prop :=
  TIME a == TIME b /\ VALUE a == VALUE b.

Definition same_vertices (d e : list Vertex) : Prop := Forall2 veq d e.

(** Scenario E as the test suite sets it up: the floor is the default 0. *)
Definition scenario_E_min0 : Gauge :=
  let g := new_gauge 12 (Bound scenario_E_max) (Number 0) 0 in
  let g := after (add_momentum (momentum 1 (Fin 1) (Fin 6)) g) in
  after (add_momentum (momentum (-1) (Fin 3) (Fin 8)) g).

(** A gauge that already holds the momentum that is added and removed
    again. *)
Definition one_momentum : Momentum := momentum 1 (Fin 0) (Fin 4).

Definition gauge_with_duplicate : Gauge :=
  after (add_momentum one_momentum (new_gauge 0 (Number 10) (Number 0) 0)).

(** ** Notions used in the statements *)

(** The momenta as the sorted container keeps them: by [until]. *)
Definition key_sorted (ms : list Momentum) : Prop :=
  StronglySorted (fun a b => Tleb (m_until a) (m_until b) = true) ms.

(** The momenta that [forget_past] takes out at [at]: those that end
    before [at], except the ones whose end is [-inf]. *)
Definition forgotten (at_ : Q) (m : Momentum) : bool :=
  Tltb NInf (m_until m) && Tltb (m_until m) (Fin at_).

(** Times strictly increasing along a determination. *)
Definition increasing (d : list Vertex) : Prop :=
  StronglySorted (fun a b => TIME a < TIME b) d.

(** A gauge between fixed limits with some momenta. *)
Definition plain_gauge (value max min : Q) (ms : list Momentum) : Gauge :=
  fold_left (fun g m => after (add_momentum m g)) ms
    (new_gauge value (Number max) (Number min) 0).

(** A gauge that rises to 4 and comes back: determination
    (0,0), (4,4), (8,0). *)
Definition up_and_down : Gauge :=
  plain_gauge 0 10 0 [momentum 1 (Fin 0) (Fin 4); momentum (-1) (Fin 4) (Fin 8)].

(** The times [whenever] yields on a determination, in the words of the
    description: the time of the first vertex if its value is the goal,
    then one interpolated time for each pair of neighbours that the
    goal lies between (half-open). *)
Definition crossing_times (d : list Vertex) (goal : Q) : list Q :=
  match d with
  | [] => []
  | (t1, v1) :: _ => if Qeq_bool v1 goal then [t1] else []
  end
  ++ map (crossing_time goal)
       (filter (crosses goal) (combine (removelast d) (tl d))).

(** ** Well-formed boundaries *)

(** A line that begins before it ends. *)
Definition proper (l : Line) : Prop :=
  lt_until (Line.since l) (Line.until l) = true.

(** The lines of a boundary, each beginning where the one before ends,
    the last one without end. *)
Fixpoint chain (l : Line) (rest : list Line) : Prop :=
  proper l /\
  match rest with
  | [] => Line.until l = Forever
  | l' :: r => (exists u, Line.until l = At u /\ Line.since l' == u) /\ chain l' r
  end.

Definition chained (b : Boundary) : Prop := chain (line b) (lines_iter b).

(** ** A measure for the [while] loop *)

(** Whether the ray of the whole velocity from the current point meets
    the current line of boundary [b] at a later time. *)
Definition hits (until : Until) (s : DState) (b : Side) : bool :=
  match Line.intersect (Ray (since s) until (value s) (sum (velocities s)))
          (line (boundary_of s b)) with
  | Ok (t, _) => negb (Qeq_bool t (since s))
  | Raise _ => false
  end.

Definition flag (b : bool) : nat := if b then 1%nat else 0%nat.

Definition overshot (s : DState) : bool :=
  match bound s with Some _ => negb (overlapped s) | None => false end.

(** Passes without a walk that are still possible. *)
Definition potential (until : Until) (s : DState) : nat :=
  (6 * flag (again s) + 6 * flag (overshot s)
   + 2 * (flag (hits until s Ceil) + flag (hits until s Floor))
   + flag (overlapped s))%nat.

Definition lines_left (s : DState) : nat :=
  (length (lines_iter (ceil s)) + length (lines_iter (floor s)))%nat.

Definition passes (until : Until) (s : DState) : nat :=
  (17 * lines_left s + potential until s + 1)%nat.

(** ** The invariant of the [while] loop *)

(** Yielded vertices in time order, none later than [t]. *)
Definition ascending (ys : list Vertex) (t : Q) : Prop :=
  StronglySorted (fun a b => TIME a <= TIME b) ys
  /\ Forall (fun p => TIME p <= t) ys.

(** What holds of the local variables while the determiner advances to
    [until]: the boundaries are well formed and their current lines have
    begun by [until]; [since] has not passed [until], nor the end of the
    line it rides on; the vertices yielded so far are in order. *)
Definition invariant (until : Until) (s : DState) : Prop :=
  chained (ceil s) /\ chained (floor s)
  /\ le_until (Line.since (line (ceil s))) until = true
  /\ le_until (Line.since (line (floor s))) until = true
  /\ le_until (since s) until = true
  /\ (overlapped s = true ->
      exists b, bound s = Some b
                /\ le_until (since s) (Line.until (line (boundary_of s b))) = true)
  /\ ascending (yielded s) (since s).

(** When the loop is left, the line that is ridden reaches [until]. *)
Definition settled (until : Until) (s : DState) : Prop :=
  invariant until s
  /\ forall b, overlapped s = true -> bound s = Some b ->
               Uleb until (Line.until (line (boundary_of s b))) = true.

(** What one pass through the body of the loop must achieve, for a state
    [s] in which [again] has just been cleared: the invariant is kept,
    no line is lost after the walk, and when both boundaries were
    considered the potential has gone down against the potential before
    [again] was cleared. *)
Definition pass_ok (until : Until) (s : DState) (f : Flow) : Prop :=
  match f with
  | Continue s' =>
      invariant until s'
      /\ lines_left s' = lines_left s
      /\ (walked_boundaries s = [Ceil; Floor] ->
          (potential until s' < 6 + potential until s)%nat)
  | Break s' => settled until s'
  | Throw _ _ => False
  end.

(** ** Meetings of a ray and a line *)

(** The time at which a ray and a line with velocity [lv] would meet. *)
Definition meeting (s v vel : Q) (l : Line) (lv : Q) : Q :=
  ((Line.value l - lv * Line.since l) - (v - vel * s)) / (vel - lv).

(** Whether the ray from [(s, v)] meets [l] later than [s]. *)
Definition hit (s v vel : Q) (U : Until) (l : Line) : bool :=
  match Line.intersect (Ray s U v vel) l with
  | Ok (t, _) => negb (Qeq_bool t s)
  | Raise _ => false
  end.

(** ** Well-formed event logs and gauges *)

Definition event_time (e : Event) : Time := fst (fst e).
Definition event_momentum (e : Event) : Momentum := snd e.

(** The log in the order of its time stamps. *)
Definition time_sorted (evs : list Event) : Prop :=
  StronglySorted
    (fun a b => Tleb (event_time a) (event_time b) = true) evs.

(** The momenta that are in effect after the events [evs], starting from
    [active]; [None] when a [REMOVE] entry finds no equal momentum in
    effect. *)
Fixpoint pending (active : list Momentum) (evs : list Event)
  : option (list Momentum) :=
  match evs with
  | [] => Some active
  | (_, ADD, m) :: rest => pending (m :: active) rest
  | (_, REMOVE, m) :: rest =>
      match remove_first Meqb m active with
      | Some active' => pending active' rest
      | None => None
      end
  end.

(** Every [REMOVE] entry comes after an [ADD] entry of an equal momentum
    that no [REMOVE] entry before it has used. *)
Definition balanced (evs : list Event) : Prop := pending [] evs <> None.

(** The number of items of [l] equal to [q]. *)
Definition occurrences (q : Q) (l : list Q) : nat :=
  length (filter (fun y => Qeq_bool y q) l).

(** The velocities in effect are those of the momenta in effect. *)
Definition velocities_of (vs : list Q) (active : list Momentum) : Prop :=
  forall q, occurrences q vs = occurrences q (map m_velocity active).

(** A determination as the cache holds it: times strictly increasing,
    and the first vertex is the base. *)
Definition shaped (b : Q * Q) (d : list Vertex) : Prop :=
  increasing d /\ exists p rest, d = p :: rest /\ veq p b.

(** No [REMOVE] entry at [+inf]: [add_momentum] makes none. *)
Definition removal_finite (e : Event) : Prop :=
  match e with
  | (PInf, REMOVE, _) => False
  | _ => True
  end.

(** A gauge as the methods leave it: the momenta are sorted by [until];
    the log is sorted by time and balanced and removes nothing at
    [+inf]; a cached determination has the shape of one; the limits that
    are gauges are well formed themselves. *)
Fixpoint wf (g : Gauge) : Prop :=
  let '(mkGauge b ms mx mn evs cached) := g in
  key_sorted ms
  /\ time_sorted evs /\ balanced evs /\ Forall removal_finite evs
  /\ match cached with Some d => shaped b d | None => True end
  /\ match mx with Number _ => True | Bound l => wf l end
  /\ match mn with Number _ => True | Bound l => wf l end.

(** A momentum whose [since] is earlier than its [until]. *)
Definition begins_before_end (m : Momentum) : Prop :=
  Tltb (m_since m) (m_until m) = true.

(** What the inner loop leaves alone: the velocities in effect, and the
    vertices already yielded. *)
Definition frame (s s' : DState) : Prop :=
  velocities s' = velocities s
  /\ exists more, yielded s' = yielded s ++ more.

Definition flow_frame (s : DState) (f : Flow) : Prop :=
  match f with Continue s' | Break s' | Throw _ s' => frame s s' end.

(** The lines of a limit as [walk_lines] yields them for a base time
    [t0]: a chain whose first line has begun by [t0]. *)
Definition well_bounded (t0 : Q) (lines : list Line) : Prop :=
  match lines with
  | [] => False
  | l :: rest => chain l rest /\ Line.since l <= t0
  end.

(** The velocities after an event. *)
Definition next_velocities (method : option (Method * Momentum))
  (vs : list Q) : list Q :=
  match method with
  | None => vs
  | Some (ADD, m) => vs ++ [m_velocity m]
  | Some (REMOVE, m) =>
      match remove_first Qeq_bool (m_velocity m) vs with
      | Some vs' => vs'
      | None => vs
      end
  end.

(** Yielded vertices in time order. *)
Definition nondecreasing (ys : list Vertex) : Prop :=
  StronglySorted (fun a b => TIME a <= TIME b) ys.

(** The number of momenta of [l] equal to [x]. *)
Definition copies (x : Momentum) (l : list Momentum) : nat :=
  length (filter (fun y => Meqb y x) l).

Definition event_lt (a b : Event) : bool := is_Lt (Ecompare a b).

(** The loop of the determiner over the events that [walk_events]
    yields, without the log. *)
Fixpoint for_yielded (base_time : Q) (evs : list Event) (s : DState)
  : Outcome :=
  match evs with
  | [] =>
      match on_event base_time PInf None s with
      | Continue s' | Break s' => Done s'
      | Throw e s' => Failed e s'
      end
  | (time, method, momentum) :: rest =>
      match on_event base_time time (Some (method, momentum)) s with
      | Continue s' => for_yielded base_time rest s'
      | Break s' => Done s'
      | Throw e s' => Failed e s'
      end
  end.

(** ** The rest of the facade *)

(** [clamp(value, at)]: the maximum is read first, and the minimum only
    when the value does not exceed it. *)
Definition clamp (value at_ : Q) : method Q := fun g =>
  match get_max at_ g with
  | (Raise e, g1) => (Raise e, g1)
  | (Ok max, g1) =>
      if Qltb max value then (Ok max, g1)
      else
        match get_min at_ g1 with
        | (Raise e, g2) => (Raise e, g2)
        | (Ok min, g2) =>
            if Qltb value min then (Ok min, g2) else (Ok value, g2)
        end
  end.

(** [_set_limits(max, min, clamp, at)]: the limits that are given replace
    the old ones while the cached determination is still in place; with
    [clamp] the value at [at] is read then, and a value beyond a limit
    that was given is forced back by [forget_past]. *)
Definition _set_limits (max min : option (Limit Gauge)) (clamp : bool)
  (at_ : Q) : method unit := fun g =>
  let g := match max with Some x => with_max g x | None => g end in
  let g := match min with Some x => with_min g x | None => g end in
  if clamp then
    match get at_ g with
    | (Raise e, g1) => (Raise e, g1)
    | (Ok value, g1) =>
        match (match max with
               | None => (Ok value, g1)
               | Some _ => get_max at_ g1
               end) with
        | (Raise e, g2) => (Raise e, g2)
        | (Ok max_, g2) =>
            match (match min with
                   | None => (Ok value, g2)
                   | Some _ => get_min at_ g2
                   end) with
            | (Raise e, g3) => (Raise e, g3)
            | (Ok min_, g3) =>
                if Qltb max_ value
                then (Ok tt, snd (forget_past (Some max_) at_ g3))
                else if Qltb value min_
                then (Ok tt, snd (forget_past (Some min_) at_ g3))
                else (Ok tt, invalidate g3)
            end
        end
    end
  else (Ok tt, invalidate g).

Definition set_max (max : Limit Gauge) (clamp : bool) (at_ : Q)
  : method unit := _set_limits (Some max) None clamp at_.

Definition set_min (min : Limit Gauge) (clamp : bool) (at_ : Q)
  : method unit := _set_limits None (Some min) clamp at_.

(** [clear_momenta(value, at)]: [_coerce_and_remove_momenta] with
    [start] and [stop] left at [None], that is [del self.momenta[:]]. *)
Definition clear_momenta (value : option Q) (at_ : Q) : method Q := fun g =>
  match value with
  | Some v => _coerce_and_remove_momenta v at_ 0 (length (momenta g)) g
  | None =>
      match get at_ g with
      | (Ok v, g') =>
          _coerce_and_remove_momenta v at_ 0 (length (momenta g')) g'
      | (Raise e, g') => (Raise e, g')
      end
  end.

(** [__getstate__]: the base, the limits and the momenta as plain
    tuples. *)
Definition State : Type :=
  ((Q * Q) * Limit Gauge * Limit Gauge * list (Q * Time * Time))%type.

Definition __getstate__ (g : Gauge) : State :=
  (base g, _max g, _min g,
   map (fun m => (m_velocity m, m_since m, m_until m)) (momenta g)).

(** The loop of [__setstate__]: each tuple goes to [add_momentum] as
    velocity, since and until. *)
Fixpoint add_momenta (ms : list (Q * Time * Time)) : method unit := fun g =>
  match ms with
  | [] => (Ok tt, g)
  | (velocity, since, until) :: rest =>
      match add_momentum (momentum velocity since until) g with
      | (Ok _, g') => add_momenta rest g'
      | (Raise e, g') => (Raise e, g')
      end
  end.

(** [__setstate__]: [__init__] again, then the momenta one by one. *)
Definition __setstate__ (state : State) : result unit * Gauge :=
  let '(base, max, min, momenta) := state in
  add_momenta momenta (new_gauge (VALUE base) max min (TIME base)).

(** [Boundary.cmp_inv]. *)
Definition cmp_inv (b : Side) (x y : Q) : bool :=
  negb (Qeq_bool x y) && negb (Boundary.cmp b x y).

(** The events that [add_momentum] enters for a momentum. *)
Definition events_of (m : Momentum) : list Event :=
  (m_since m, ADD, m)
  :: (if Teqb (m_until m) PInf then [] else [(m_until m, REMOVE, m)]).

(** The other boundary. *)
Definition opposite (b : Side) : Side :=
  match b with Ceil => Floor | Floor => Ceil end.

(** ** Between two numbers *)

(** The value of a limit that is a number. *)
Definition limit_of (M m : Q) (b : Side) : Q :=
  match b with Ceil => M | Floor => m end.

Definition inside (M m x : Q) : Prop := m <= x /\ x <= M.

(** The boundaries of a gauge whose limits are the numbers [M] and [m]:
    one horizon each, begun by [since]. *)
Definition between_numbers (M m : Q) (s : DState) : Prop :=
  exists tc tf,
    ceil s = mkBoundary (Horizon tc Forever M) []
    /\ floor s = mkBoundary (Horizon tf Forever m) []
    /\ tc <= since s /\ tf <= since s.

(** What holds between the events when the gauge started within its
    limits: the value is within them, and so are the values yielded; a
    gauge that is bound rides on its boundary. *)
Definition steady (M m : Q) (s : DState) : Prop :=
  between_numbers M m s
  /\ inside M m (value s)
  /\ Forall (fun p => inside M m (VALUE p)) (yielded s)
  /\ (forall b, bound s = Some b ->
                overlapped s = true /\ value s == limit_of M m b)
  /\ (overlapped s = true -> bound s <> None).

(** The value that the ray of the current velocity has at the end of the
    stretch. *)
Definition final_value (u : Q) (s : DState) : Q :=
  value s + velocity s * (u - since s).

(** During the stretch to [U]: when the last pass has settled that no
    boundary is met any more ([again] is cleared), the gauge is free and
    the ray ends within the limits. *)
Definition looping (M m : Q) (U : Until) (s : DState) : Prop :=
  steady M m s
  /\ le_until (since s) U = true
  /\ (again s = false -> lt_until (since s) U = true ->
      bound s = None
      /\ match U with
         | At u => inside M m (final_value u s)
         | Forever => True
         end).

(** When the stretch is over. *)
Definition arrived (M m : Q) (U : Until) (s : DState) : Prop :=
  steady M m s
  /\ le_until (since s) U = true
  /\ match U with
     | At u =>
         inside M m (final_value u s)
         /\ (bound s <> None -> since s == u)
     | Forever => True
     end.

(** How a pass may end. *)
Definition pass_inside (M m : Q) (U : Until) (f : Flow) : Prop :=
  match f with
  | Continue s' => looping M m U s'
  | Break s' => arrived M m U s'
  | Throw _ _ => True
  end.

(** ** What the momenta alone would do *)



Fixpoint total {A} (f : A -> Q) (l : list A) : Q :=
  match l with
  | [] => 0
  | x :: r => f x + total f r
  end.








(** ** Over the maximum *)

(** The state with other vertices yielded; the determiner never looks at
    what it has yielded. *)
Definition with_yielded (s : DState) (ys : list Vertex) : DState :=
  mkDState (since s) (value s) (velocity s) (velocities s) (bound s)
    (overlapped s) (ceil s) (floor s) (again s) (walked_boundaries s) ys.

Definition flow_yielded (pre : list Vertex) (f : Flow) : Flow :=
  match f with
  | Continue s => Continue (with_yielded s (pre ++ yielded s))
  | Break s => Break (with_yielded s (pre ++ yielded s))
  | Throw e s => Throw e (with_yielded s (pre ++ yielded s))
  end.

Definition outcome_yielded (pre : list Vertex) (o : Outcome) : Outcome :=
  match o with
  | Done s => Done (with_yielded s (pre ++ yielded s))
  | Failed e s => Failed e (with_yielded s (pre ++ yielded s))
  end.

(** A gauge that started over its maximum [M] and has not come down to
    it yet: it is bound to the ceiling without riding on it. *)
Definition over (M m v0 : Q) (s : DState) : Prop :=
  between_numbers M m s
  /\ bound s = Some Ceil /\ overlapped s = false
  /\ M < value s /\ value s <= v0.

(** Before or after it has come down: the values yielded are between the
    minimum and the value at the start. *)
Definition settling (M m v0 : Q) (s : DState) : Prop :=
  Forall (fun p => inside v0 m (VALUE p)) (yielded s)
  /\ (over M m v0 s \/ steady M m (with_yielded s [])).

(** * Properties *)

(** ** Comparisons *)

Lemma Qltb_lt x y : Qltb x y = true <-> x < y.
Proof.
  unfold Qltb. rewrite negb_true_iff.
  split; intros H.
  - apply Qnot_le_lt. intros L. apply Qle_bool_iff in L. congruence.
  - destruct (Qle_bool y x) eqn:E; [|reflexivity].
    apply Qle_bool_iff in E. exfalso. apply (Qlt_not_le _ _ H E).
Qed.

Lemma Qltb_ge x y : Qltb x y = false <-> y <= x.
Proof.
  unfold Qltb. rewrite negb_false_iff. apply Qle_bool_iff.
Qed.

Lemma Qle_bool_gt x y : Qle_bool x y = false <-> y < x.
Proof.
  rewrite <- Qltb_lt. unfold Qltb. rewrite negb_true_iff. reflexivity.
Qed.

Lemma Qeq_bool_false x y : Qeq_bool x y = false <-> ~ x == y.
Proof.
  split; intros H.
  - intros E. apply Qeq_bool_iff in E. congruence.
  - destruct (Qeq_bool x y) eqn:E; [|reflexivity].
    apply Qeq_bool_iff in E. contradiction.
Qed.

(** ** The scenarios *)

(** C1: scenario C, value 12 over a ceiling of 10 with momenta +1 and -2
    on [0,4], determines to (0,12), (1,10), (4,7); the determiner starts
    bound to the ceiling without riding it. *)
Theorem scenario_C_determination :
  (exists s0,
      start (base scenario_C) (lines_of_number 0 10) (lines_of_number 0 0)
      = Ok s0
      /\ bound s0 = Some Ceil /\ overlapped s0 = false) /\
  exists d,
    determination scenario_C = Ok d
    /\ same_vertices d [(0, 12); (1, 10); (4, 7)].
Proof.
  split.
  - eexists. split; [vm_compute; reflexivity|]. split; reflexivity.
  - eexists. split; [vm_compute; reflexivity|].
    repeat constructor.
Qed.

(** C2, as stated: with a floor of 100 the last vertex of scenario E is
    (8,100), not (8,8). *)
Lemma scenario_E_floor_100 :
  ~ exists d,
      determination scenario_E = Ok d
      /\ same_vertices d
           [(0, 12); (1, 12); (2, 13); (3, 12); (5, 10); (6, 10); (8, 8)].
Proof.
  intros [d [H S]].
  vm_compute in H. injection H as <-.
  unfold same_vertices in S.
  repeat match goal with
         | H : Forall2 _ (_ :: _) (_ :: _) |- _ => inversion H; subst; clear H
         end.
  match goal with H : veq (8, 100) _ |- _ => destruct H as [_ V] end.
  vm_compute in V. discriminate.
Qed.

(** C2, amended: with the default floor 0 scenario E determines to the
    seven vertices, and the ceiling lines are the segment of the maximum
    gauge's determination followed by a horizon without end. *)
Theorem scenario_E_determination :
  (exists dmax,
      determination scenario_E_max = Ok dmax
      /\ same_vertices dmax [(0, 15); (5, 10)]
      /\ lines_of_determination 0 dmax
         = Ok [Segment 0 5 15 10; Horizon 5 Forever 10]) /\
  exists d,
    determination scenario_E_min0 = Ok d
    /\ same_vertices d
         [(0, 12); (1, 12); (2, 13); (3, 12); (5, 10); (6, 10); (8, 8)].
Proof.
  split.
  - eexists. split; [vm_compute; reflexivity|].
    split; [repeat constructor | reflexivity].
  - eexists. split; [vm_compute; reflexivity|].
    repeat constructor.
Qed.

(** C4, at the failing input: a gauge already holds [one_momentum];
    adding an equal momentum and removing it again succeeds and leaves
    one momentum in the gauge, but the determination has changed from
    (0,0), (4,4) to (0,0), (4,8): the four events of the two equal
    momenta all pass the filter of [walk_events]. *)
Theorem add_remove_with_duplicate :
  let g := gauge_with_duplicate in
  let r1 := add_momentum one_momentum g in
  let r2 := remove_momentum one_momentum (after r1) in
  fst r1 = Ok one_momentum /\ fst r2 = Ok tt
  /\ momenta (after r2) = momenta g
  /\ (exists d, determination g = Ok d
                /\ same_vertices d [(0, 0); (4, 4)])
  /\ (exists d', determination (after r2) = Ok d'
                 /\ same_vertices d' [(0, 0); (4, 8)]).
Proof.
  cbv zeta. split; [reflexivity|]. split; [reflexivity|].
  split; [reflexivity|]. split.
  - eexists. split; [vm_compute; reflexivity|]. repeat constructor.
  - eexists. split; [vm_compute; reflexivity|]. repeat constructor.
Qed.

(** ** Reading does not touch the base, the momenta or the kind of the
    limits *)

Lemma read_base g : base (snd (read g)) = base g.
Proof.
  destruct g as [b ms mx mn evs [d|]]; [reflexivity|].
  cbn [read].
  destruct mx as [v|gm]; [|destruct (read gm) as [[dm|e] gm']];
    cbn [bind]; try reflexivity;
    try destruct (lines_of_determination (TIME b) dm); try reflexivity;
    (destruct mn as [w|gn]; [|destruct (read gn) as [[dn|e'] gn']];
     cbn [bind]; try reflexivity;
     try destruct (lines_of_determination (TIME b) dn); try reflexivity;
     match goal with
     | |- context [determine ?a ?b ?c ?d ?e] =>
         destruct (determine a b c d e) as [[ys err] log]
     end; reflexivity).
Qed.

Lemma read_momenta g : momenta (snd (read g)) = momenta g.
Proof.
  destruct g as [b ms mx mn evs [d|]]; [reflexivity|].
  cbn [read].
  destruct mx as [v|gm]; [|destruct (read gm) as [[dm|e] gm']];
    cbn [bind]; try reflexivity;
    try destruct (lines_of_determination (TIME b) dm); try reflexivity;
    (destruct mn as [w|gn]; [|destruct (read gn) as [[dn|e'] gn']];
     cbn [bind]; try reflexivity;
     try destruct (lines_of_determination (TIME b) dn); try reflexivity;
     match goal with
     | |- context [determine ?a ?b ?c ?d ?e] =>
         destruct (determine a b c d e) as [[ys err] log]
     end; reflexivity).
Qed.

Lemma get_base t g : base (snd (get t g)) = base g.
Proof.
  unfold get, _value_and_velocity.
  pose proof (read_base g) as H. destruct (read g) as [r g']. exact H.
Qed.

Lemma get_momenta t g : momenta (snd (get t g)) = momenta g.
Proof.
  unfold get, _value_and_velocity.
  pose proof (read_momenta g) as H. destruct (read g) as [r g']. exact H.
Qed.

Lemma get_max_momenta t g : momenta (snd (get_max t g)) = momenta g.
Proof.
  unfold get_max. destruct g as [b ms mx mn evs c]; cbn.
  destruct mx as [v|l]; [reflexivity|].
  destruct (get t l); reflexivity.
Qed.

Lemma get_min_momenta t g : momenta (snd (get_min t g)) = momenta g.
Proof.
  unfold get_min. destruct g as [b ms mx mn evs c]; cbn.
  destruct mn as [v|l]; [reflexivity|].
  destruct (get t l); reflexivity.
Qed.

(** ** [incr] *)

Lemma pymax_Qmax a b : pymax a b == Qmax a b.
Proof.
  unfold pymax. destruct (Qltb a b) eqn:E.
  - apply Qltb_lt in E. rewrite Q.max_r; [reflexivity | apply Qlt_le_weak, E].
  - apply Qltb_ge in E. rewrite Q.max_l; [reflexivity | exact E].
Qed.

Lemma pymin_Qmin a b : pymin a b == Qmin a b.
Proof.
  unfold pymin. destruct (Qltb b a) eqn:E.
  - apply Qltb_lt in E. rewrite Q.min_r; [reflexivity | apply Qlt_le_weak, E].
  - apply Qltb_ge in E. rewrite Q.min_l; [reflexivity | exact E].
Qed.

(** What [forget_past] removes from momenta kept sorted by [until]. *)
Lemma skipn_bisect_left t ms :
  key_sorted ms ->
  Forall (fun m => Tltb NInf (m_until m) = true) ms ->
  skipn (bisect_key_left (Fin t) ms) ms
  = filter (fun m => negb (forgotten t m)) ms.
Proof.
  induction 1 as [|m r Hr IH Hm]; intros Hpos; [reflexivity|].
  inversion Hpos as [|? ? Hm0 Hr0]; subst.
  cbn [bisect_key_left filter]. unfold forgotten at 1.
  rewrite Hm0. cbn [andb].
  destruct (Tltb (m_until m) (Fin t)) eqn:E; cbn [negb skipn].
  - apply IH, Hr0.
  - f_equal. symmetry. apply forallb_filter_id.
    apply forallb_forall. intros x Hx.
    rewrite Forall_forall in Hm. specialize (Hm x Hx).
    unfold forgotten. apply negb_true_iff, andb_false_iff. right.
    unfold Tltb in *. apply negb_false_iff in E. apply negb_false_iff.
    destruct (m_until m), (m_until x); cbn in *; try congruence.
    apply Qle_bool_iff in E, Hm. apply Qle_bool_iff.
    eapply Qle_trans; eassumption.
Qed.

Lemma forget_past_slice t ms :
  key_sorted ms ->
  del_slice (bisect_key_right NInf ms) (bisect_key_left (Fin t) ms) ms
  = filter (fun m => negb (forgotten t m)) ms.
Proof.
  induction 1 as [|m r Hr IH Hm]; [reflexivity|].
  cbn [bisect_key_right bisect_key_left filter].
  destruct (Tleb (m_until m) NInf) eqn:E.
  - assert (U : m_until m = NInf) by (destruct (m_until m); cbn in E; congruence).
    unfold forgotten at 1. rewrite U. cbn.
    unfold del_slice in *. cbn. f_equal. apply IH.
  - assert (P : Tltb NInf (m_until m) = true) by (unfold Tltb; rewrite E; reflexivity).
    assert (Pr : Forall (fun x => Tltb NInf (m_until x) = true) r).
    { rewrite Forall_forall in *. intros x Hx. specialize (Hm x Hx).
      unfold Tltb in *. apply negb_true_iff. apply negb_true_iff in P.
      destruct (m_until m), (m_until x); cbn in *; congruence. }
    pose proof (skipn_bisect_left t (m :: r)) as S.
    cbn [bisect_key_left filter] in S.
    unfold del_slice. cbn [firstn app Nat.max].
    apply S; constructor; assumption.
Qed.

Section Incr.

Variables (g : Gauge) (t v M m : Q).

Let g1 := snd (get t g).
Let g2 := snd (get_max t g1).
Let g3 := snd (get_min t g2).

Hypothesis Hget : fst (get t g) = Ok v.
Hypothesis Hmax : fst (get_max t g1) = Ok M.
Hypothesis Hmin : fst (get_min t g2) = Ok m.

Lemma incr_reads delta over clamp :
  incr delta over clamp t g =
  let value := v + delta in
  if over then forget_past (Some value) t g3
  else if clamp then
    forget_past
      (Some (if Qltb 0 delta && Qltb M value then pymax v M
             else if Qltb delta 0 && Qltb value m then pymin v m
             else value)) t g3
  else if Qltb 0 delta && Qltb M value then (Raise OutOfRange, g3)
  else if Qltb delta 0 && Qltb value m then (Raise OutOfRange, g3)
  else forget_past (Some value) t g3.
Proof.
  unfold incr. subst g3 g2 g1.
  destruct (get t g) as [r1 h1]. cbn [fst snd] in *. subst r1.
  destruct (get_max t h1) as [r2 h2]. cbn [fst snd] in *. subst r2.
  destruct (get_min t h2) as [r3 h3]. cbn [fst snd] in *. subst r3.
  reflexivity.
Qed.

Lemma momenta_g3 : momenta g3 = momenta g.
Proof.
  subst g3 g2 g1.
  rewrite get_min_momenta, get_max_momenta, get_momenta. reflexivity.
Qed.

Lemma incr_plain_raises delta :
  fst (incr delta false false t g) = Raise OutOfRange
  <-> (0 < delta /\ M < v + delta) \/ (delta < 0 /\ v + delta < m).
Proof.
  rewrite incr_reads. cbv zeta. cbn [fst].
  destruct (Qltb 0 delta) eqn:A; destruct (Qltb M (v + delta)) eqn:B;
    destruct (Qltb delta 0) eqn:C; destruct (Qltb (v + delta) m) eqn:D;
    cbn [andb fst forget_past _coerce_and_remove_momenta];
    repeat match goal with
           | H : Qltb _ _ = true |- _ => apply Qltb_lt in H
           | H : Qltb _ _ = false |- _ => apply Qltb_ge in H
           end;
    (split; [intros E; try discriminate E; auto
            | intros [[P1 P2]|[P1 P2]]; try reflexivity; exfalso; lra]).
Qed.

Lemma incr_plain_accepts delta :
  ~ ((0 < delta /\ M < v + delta) \/ (delta < 0 /\ v + delta < m)) ->
  incr delta false false t g
  = (Ok (v + delta),
     mkGauge (t, v + delta)
       (del_slice (bisect_key_right NInf (momenta g))
                  (bisect_key_left (Fin t) (momenta g)) (momenta g))
       (_max g3) (_min g3) (_events g3) None).
Proof.
  intros N. rewrite incr_reads. cbv zeta.
  destruct (Qltb 0 delta && Qltb M (v + delta)) eqn:A.
  { exfalso. apply N. left. apply andb_true_iff in A as [A B].
    apply Qltb_lt in A, B. auto. }
  destruct (Qltb delta 0 && Qltb (v + delta) m) eqn:B.
  { exfalso. apply N. right. apply andb_true_iff in B as [B C].
    apply Qltb_lt in B, C. auto. }
  unfold forget_past, _coerce_and_remove_momenta.
  rewrite momenta_g3. reflexivity.
Qed.

End Incr.

(** C6, as stated: an increase whose result is still below the minimum
    is accepted although the new value is outside the range; and a
    momentum whose [until] equals the time of the change stays in the
    gauge. *)
Lemma incr_outside_range_accepted :
  (let g := plain_gauge (-5) 10 0 [] in
   fst (get 0 g) = Ok (-5)
   /\ fst (get_min 0 (snd (get_max 0 (snd (get 0 g))))) = Ok 0
   /\ -5 + 1 < 0
   /\ fst (incr 1 false false 0 g) = Ok (-4)) /\
  (let h := plain_gauge 0 10 0 [one_momentum] in
   Tleb (m_until one_momentum) (Fin 4) = true
   /\ fst (incr 1 false false 4 h) = Ok 5
   /\ momenta (snd (incr 1 false false 4 h)) = [one_momentum]).
Proof.
  split; cbv zeta.
  - repeat split; reflexivity.
  - repeat split; vm_compute; reflexivity.
Qed.

(** ** [velocity] *)

Lemma bisect_left_between (d : list Vertex) :
  increasing d ->
  forall i t1 v1 t2 v2 t,
    nth_error d i = Some (t1, v1) ->
    nth_error d (S i) = Some (t2, v2) ->
    t1 < t -> t <= t2 ->
    bisect_left d t = S i.
Proof.
  induction 1 as [|p r Hr IH Hp]; intros i t1 v1 t2 v2 t H1 H2 L1 L2.
  - destruct i; discriminate.
  - destruct i as [|i]; cbn [nth_error] in H1, H2.
    + injection H1 as ->. destruct r as [|q r']; [discriminate|].
      cbn in H2. injection H2 as ->.
      cbn [bisect_left TIME fst].
      apply Qltb_lt in L1. rewrite L1.
      apply Qltb_ge in L2. rewrite L2. reflexivity.
    + cbn [bisect_left].
      assert (P : TIME p < t).
      { rewrite Forall_forall in Hp.
        apply nth_error_In in H1. specialize (Hp _ H1). cbn in Hp. lra. }
      apply Qltb_lt in P. rewrite P. f_equal.
      eapply IH; eassumption.
Qed.

(** C5, as stated: at the vertex (4,4), shared by a rising and a falling
    segment, the velocity is not the slope -1 of the segment that begins
    there. *)
Lemma velocity_at_vertex_not_right_slope :
  (exists d, determination up_and_down = Ok d
             /\ same_vertices d [(0, 0); (4, 4); (8, 0)]) /\
  ~ exists vel, fst (velocity_at 4 up_and_down) = Ok vel
                /\ vel == (0 - 4) / (8 - 4).
Proof.
  split.
  - eexists. split; [vm_compute; reflexivity|]. repeat constructor.
  - intros [vel [H E]]. vm_compute in H. injection H as <-.
    vm_compute in E. discriminate.
Qed.

(** For a time after one vertex and not after the next, [velocity] is
    the slope of the segment between the two. *)
Lemma velocity_between (g : Gauge) (d : list Vertex) (i : nat)
  (t1 v1 t2 v2 t : Q) :
  determination g = Ok d ->
  increasing d ->
  nth_error d i = Some (t1, v1) ->
  nth_error d (S i) = Some (t2, v2) ->
  t1 < t -> t <= t2 ->
  fst (velocity_at t g) = Ok ((v2 - v1) / (t2 - t1)).
Proof.
  intros Hd Hi H1 H2 L1 L2.
  unfold velocity_at, _value_and_velocity.
  unfold determination in Hd. destruct (read g) as [r g']. cbn [fst] in *.
  subst r. cbn [bind]. unfold value_and_velocity_in.
  assert (Hlen : Nat.eqb (length d) 1 = false).
  { apply Nat.eqb_neq. intros E.
    assert (S i < length d)%nat by (apply nth_error_Some; congruence). lia. }
  rewrite Hlen, (bisect_left_between d Hi i t1 v1 t2 v2 t H1 H2 L1 L2).
  rewrite H2, H1. unfold Line.get, Line.velocity. cbn [Line.since Line.until le_until].
  assert (A : Qle_bool t1 t = true) by (apply Qle_bool_iff; lra).
  assert (B : Qle_bool t t2 = true) by (apply Qle_bool_iff; lra).
  assert (C : Qeq_bool (t2 - t1) 0 = false) by (apply Qeq_bool_false; lra).
  rewrite A, B, C. reflexivity.
Qed.

(** ** [whenever] and [when] *)

Lemma zipped_determination_combine (d : list Vertex) :
  zipped_determination d = combine (removelast d) (tl d).
Proof.
  induction d as [|a [|b r] IH]; try reflexivity.
  change (zipped_determination (a :: b :: r))
    with ((a, b) :: zipped_determination (b :: r)).
  rewrite IH. reflexivity.
Qed.

Lemma crossings_filter (pairs : list (Vertex * Vertex)) (goal : Q) :
  crossings pairs goal = map (crossing_time goal) (filter (crosses goal) pairs).
Proof.
  induction pairs as [|p r IH]; [reflexivity|].
  cbn [crossings filter]. destruct (crosses goal p); cbn [negb map];
    rewrite IH; reflexivity.
Qed.

Lemma whenever_in_crossing_times (d : list Vertex) (goal : Q) :
  whenever_in d goal = crossing_times d goal.
Proof.
  unfold whenever_in, crossing_times.
  destruct d as [|[t1 v1] r]; [reflexivity|].
  rewrite crossings_filter, zipped_determination_combine. reflexivity.
Qed.

Lemma crosses_iff (goal t1 v1 t2 v2 : Q) :
  crosses goal ((t1, v1), (t2, v2)) = true
  <-> (v1 < goal /\ goal <= v2) \/ (goal < v1 /\ v2 <= goal).
Proof.
  unfold crosses.
  rewrite orb_true_iff, !andb_true_iff, !Qltb_lt, !Qle_bool_iff.
  reflexivity.
Qed.

(** [whenever] and [when] on a gauge whose determination is [d]. *)
Lemma whenever_when_on (g : Gauge) (d : list Vertex) (goal : Q) :
  determination g = Ok d ->
  fst (whenever goal g) = Ok (crossing_times d goal)
  /\ (forall t1 v1 t2 v2,
         (crosses goal ((t1, v1), (t2, v2)) = true
          <-> (v1 < goal /\ goal <= v2) \/ (goal < v1 /\ v2 <= goal))
         /\ crossing_time goal ((t1, v1), (t2, v2))
            == t1 + (t2 - t1) * (goal - v1) / (v2 - v1))
  /\ (forall n at_,
         nth_error (crossing_times d goal) n = Some at_ ->
         fst (when goal n g) = Ok at_)
  /\ (forall n,
         fst (when goal n g) = Raise Unreachable
         <-> (length (crossing_times d goal) <= n)%nat).
Proof.
  intros Hd.
  assert (W : whenever goal g = (Ok (crossing_times d goal), snd (read g))).
  { unfold whenever. unfold determination in Hd.
    destruct (read g) as [r g']. cbn [fst snd] in *. subst r.
    cbn [bind]. rewrite whenever_in_crossing_times. reflexivity. }
  split; [rewrite W; reflexivity|].
  split.
  { intros. split; [apply crosses_iff|].
    unfold crossing_time, Qdiv. ring. }
  split.
  - intros n at_ H. unfold when. rewrite W, H. reflexivity.
  - intros n. unfold when. rewrite W.
    destruct (nth_error (crossing_times d goal) n) eqn:E; cbn [fst].
    + split; [discriminate|]. intros L.
      apply nth_error_None in L. congruence.
    + split; [|reflexivity]. intros _. apply nth_error_None, E.
Qed.

(** ** [remove_momentum] *)

Lemma remove_first_split {A} (eqb : A -> A -> bool) (x : A) (l : list A) :
  match remove_first eqb x l with
  | Some l' =>
      exists l1 y l2,
        l = l1 ++ y :: l2 /\ eqb y x = true
        /\ (forall z, In z l1 -> eqb z x = false) /\ l' = l1 ++ l2
  | None => contains eqb x l = false
  end.
Proof.
  induction l as [|y r IH]; [reflexivity|].
  cbn [remove_first contains existsb]. destruct (eqb y x) eqn:E.
  - exists [], y, r. repeat split; [assumption | intros z []].
  - destruct (remove_first eqb x r) as [r'|].
    + destruct IH as (l1 & z & l2 & -> & Hz & Hl1 & ->).
      exists (y :: l1), z, l2. repeat split; [assumption|].
      intros w [<-|Hw]; [assumption | apply Hl1, Hw].
    + exact IH.
Qed.

(** C10: for a valid momentum, [remove_momentum] takes exactly one
    momentum equal to it out of the gauge, the first one, and deletes
    the cached determination; it raises [NotFound] exactly when the
    gauge holds no equal momentum, and then the gauge, with its momenta
    and its determination, is as before. *)
Theorem remove_momentum_one (g : Gauge) (m : Momentum) :
  valid_momentum m = true ->
  let r := remove_momentum m g in
  (fst r = Raise NotFound <-> contains Meqb m (momenta g) = false)
  /\ (contains Meqb m (momenta g) = false ->
      snd r = g /\ momenta (snd r) = momenta g
      /\ determination (snd r) = determination g)
  /\ (contains Meqb m (momenta g) = true ->
      fst r = Ok tt
      /\ _determination (snd r) = None
      /\ base (snd r) = base g /\ _events (snd r) = _events g
      /\ exists l1 x l2,
           momenta g = l1 ++ x :: l2
           /\ Meqb x m = true
           /\ (forall y, In y l1 -> Meqb y m = false)
           /\ momenta (snd r) = l1 ++ l2).
Proof.
  intros V r. subst r. unfold remove_momentum, _make_momentum. rewrite V.
  pose proof (remove_first_split Meqb m (momenta g)) as S.
  destruct (remove_first Meqb m (momenta g)) as [ms|]; cbn [fst snd].
  - destruct S as (l1 & x & l2 & E & Hx & Hl1 & ->).
    assert (C : contains Meqb m (momenta g) = true).
    { unfold contains. apply existsb_exists. exists x. split; [|assumption].
      rewrite E. apply in_elt. }
    rewrite C. split; [split; discriminate|].
    split; [discriminate|]. intros _.
    cbn [_determination base _events momenta].
    repeat split. exists l1, x, l2. repeat split; assumption.
  - rewrite S. split; [split; reflexivity|].
    split; [intros _; repeat split | discriminate].
Qed.

Lemma remove_momentum_one_witness :
  let g := gauge_with_duplicate in
  let r := remove_momentum one_momentum g in
  (fst r = Raise NotFound <-> contains Meqb one_momentum (momenta g) = false)
  /\ (contains Meqb one_momentum (momenta g) = false ->
      snd r = g /\ momenta (snd r) = momenta g
      /\ determination (snd r) = determination g)
  /\ (contains Meqb one_momentum (momenta g) = true ->
      fst r = Ok tt
      /\ _determination (snd r) = None
      /\ base (snd r) = base g /\ _events (snd r) = _events g
      /\ exists l1 x l2,
           momenta g = l1 ++ x :: l2
           /\ Meqb x one_momentum = true
           /\ (forall y, In y l1 -> Meqb y one_momentum = false)
           /\ momenta (snd r) = l1 ++ l2).
Proof.
  apply (remove_momentum_one gauge_with_duplicate one_momentum).
  reflexivity.
Defined.

(** * The determiner keeps its invariant *)

(** ** Lines are affine *)

Ltac qb :=
  repeat match goal with
         | H : _ && _ = true |- _ => apply andb_true_iff in H; destruct H
         | H : Qltb _ _ = true |- _ => apply Qltb_lt in H
         | H : Qltb _ _ = false |- _ => apply Qltb_ge in H
         | H : Qle_bool _ _ = true |- _ => apply Qle_bool_iff in H
         | H : Qle_bool _ _ = false |- _ => apply Qle_bool_gt in H
         | H : Qeq_bool _ _ = true |- _ => apply Qeq_bool_iff in H
         | H : Qeq_bool _ _ = false |- _ => apply Qeq_bool_false in H
         end.

Lemma pymax_cases a b : (a < b /\ pymax a b = b) \/ (b <= a /\ pymax a b = a).
Proof.
  unfold pymax. destruct (Qltb a b) eqn:E; qb; auto.
Qed.

Lemma pymin_cases a b : (b < a /\ pymin a b = b) \/ (a <= b /\ pymin a b = a).
Proof.
  unfold pymin. destruct (Qltb b a) eqn:E; qb; auto.
Qed.

Lemma le_until_At a x : le_until a (At x) = true <-> a <= x.
Proof. apply Qle_bool_iff. Qed.

Lemma lt_until_At a x : lt_until a (At x) = true <-> a < x.
Proof. apply Qltb_lt. Qed.

Lemma lt_until_false a u : lt_until a u = false <-> until_le u a = true.
Proof.
  destruct u as [x|]; cbn; [|split; discriminate].
  rewrite Qltb_ge, Qle_bool_iff. reflexivity.
Qed.

Lemma lt_le_until a u : lt_until a u = true -> le_until a u = true.
Proof.
  destruct u as [x|]; cbn; [|reflexivity].
  rewrite Qltb_lt, Qle_bool_iff. apply Qlt_le_weak.
Qed.

Lemma le_until_trans a b u :
  a <= b -> le_until b u = true -> le_until a u = true.
Proof.
  destruct u as [x|]; cbn; [|reflexivity].
  rewrite !Qle_bool_iff. intros; lra.
Qed.


Lemma Umin_cases u w :
  (Ultb w u = true /\ Umin u w = w) \/ (Uleb u w = true /\ Umin u w = u).
Proof.
  unfold Umin, Ultb. destruct (Uleb u w) eqn:E; cbn; auto.
Qed.

Lemma le_until_Umin a u w :
  le_until a (Umin u w) = true <-> le_until a u = true /\ le_until a w = true.
Proof.
  unfold Umin, Ultb.
  destruct u as [x|], w as [y|]; cbn;
    try (destruct (Qle_bool x y) eqn:E; cbn);
    rewrite ?Qle_bool_iff; qb; intuition (try lra).
Qed.

Lemma Umin_Forever u w : Umin u w = Forever -> u = Forever /\ w = Forever.
Proof.
  unfold Umin, Ultb. destruct u as [x|], w as [y|]; cbn;
    try (destruct (Qle_bool x y)); cbn; intros H; try discriminate H; auto.
Qed.

Lemma velocity_proper l :
  proper l -> exists vl, Line.velocity l = Ok vl.
Proof.
  destruct l as [s u v|s u v vel|s u v f]; cbn; eauto.
  unfold proper; cbn. intros H; qb.
  destruct (Qeq_bool (u - s) 0) eqn:E; qb; [lra | eauto].
Qed.

Lemma get_in_range l t y :
  Line.get l t = Ok y ->
  Line.since l <= t /\ le_until t (Line.until l) = true /\ y = Line._get l t.
Proof.
  unfold Line.get.
  destruct (Qle_bool (Line.since l) t && le_until t (Line.until l)) eqn:E;
    [|discriminate].
  intros [= <-]. qb. auto.
Qed.

Lemma get_ok l t :
  Line.since l <= t -> le_until t (Line.until l) = true ->
  Line.get l t = Ok (Line._get l t).
Proof.
  intros A B. unfold Line.get.
  apply Qle_bool_iff in A. rewrite A, B. reflexivity.
Qed.

(** On its range a line is [value + velocity * (t - since)]. *)
Lemma get_affine l t vl :
  Line.velocity l = Ok vl ->
  Line.since l <= t -> le_until t (Line.until l) = true ->
  Line._get l t == Line.value l + vl * (t - Line.since l).
Proof.
  destruct l as [s u v|s u v vel|s u v f]; cbn.
  - intros [= <-] _ _. ring.
  - intros [= <-] _ _. ring.
  - destruct (Qeq_bool (u - s) 0) eqn:E; [discriminate|]. intros [= <-] A B.
    qb.
    destruct (Qeq_bool t s) eqn:E1; qb.
    { rewrite E1. ring. }
    destruct (Qeq_bool t u) eqn:E2; qb.
    { rewrite E2. field. exact E. }
    field. exact E.
Qed.

Lemma guess_total l t : exists y, Line.guess l t = Ok y.
Proof.
  unfold Line.guess.
  destruct (Qltb t (Line.since l)) eqn:A; [eauto|]. qb.
  destruct (Line.until l) as [u|] eqn:U.
  - destruct (Qltb u t) eqn:B; [eauto|]. qb.
    rewrite get_ok; [eauto | assumption | rewrite U; apply Qle_bool_iff, B].
  - rewrite get_ok; [eauto | assumption | rewrite U; reflexivity].
Qed.

Lemma guess_in_range l t :
  Line.since l <= t -> le_until t (Line.until l) = true ->
  Line.guess l t = Ok (Line._get l t).
Proof.
  intros A B. unfold Line.guess.
  assert (A' : Qltb t (Line.since l) = false) by (apply Qltb_ge, A).
  rewrite A'.
  destruct (Line.until l) as [u|] eqn:U.
  - cbn in B. qb.
    assert (B' : Qltb u t = false) by (apply Qltb_ge, B). rewrite B'.
    apply get_ok; [assumption | rewrite U; apply Qle_bool_iff, B].
  - apply get_ok; [assumption | rewrite U; reflexivity].
Qed.

Lemma intersect_ray s U v vel l lv :
  Line.velocity l = Ok lv ->
  Line.intersect (Ray s U v vel) l =
  if Qeq_bool (vel - lv) 0 then Raise ParallelLines
  else
    let T := meeting s v vel l lv in
    if Qle_bool (pymax s (Line.since l)) T
       && le_until T (Umin U (Line.until l))
    then Ok (T, v + vel * (T - s))
    else Raise NoIntersection.
Proof.
  intros V. unfold Line.intersect, Line.intercept. rewrite V. cbn [bind Line.velocity Line.value Line.since Line.until].
  destruct (Qeq_bool (vel - lv) 0) eqn:E; [reflexivity|].
  fold (meeting s v vel l lv). cbv zeta.
  destruct (Qle_bool (pymax s (Line.since l)) (meeting s v vel l lv)
            && le_until (meeting s v vel l lv) (Umin U (Line.until l))) eqn:R;
    [|reflexivity].
  apply andb_true_iff in R as [R1 R2].
  apply le_until_Umin in R2 as [R2 R3]. qb.
  unfold Line.get. cbn [Line.since Line.until Line._get].
  rewrite R2.
  assert (A : Qle_bool s (meeting s v vel l lv) = true).
  { apply Qle_bool_iff. destruct (pymax_cases s (Line.since l)) as [[? P]|[? P]];
      rewrite P in R1; lra. }
  rewrite A. reflexivity.
Qed.

(** Where they meet, the ray and the line have the same value. *)
Lemma meeting_value s v vel l lv :
  ~ vel - lv == 0 ->
  v + vel * (meeting s v vel l lv - s)
  == Line.value l + lv * (meeting s v vel l lv - Line.since l).
Proof.
  intros N. unfold meeting. field. exact N.
Qed.

(** A ray that starts on the line meets it at its start. *)
Lemma meeting_on_line s v vel l lv :
  ~ vel - lv == 0 ->
  v == Line.value l + lv * (s - Line.since l) ->
  meeting s v vel l lv == s.
Proof.
  intros N E. unfold meeting. rewrite E. field. exact N.
Qed.

(** Two rays on one straight line meet a line at the same time. *)
Lemma meeting_collinear s v t v' vel l lv :
  v' == v + vel * (t - s) ->
  meeting t v' vel l lv == meeting s v vel l lv.
Proof.
  intros E. unfold meeting. rewrite E.
  destruct (Qeq_dec (vel - lv) 0) as [Z|N].
  - unfold Qdiv. rewrite Z. 
    assert (I : / 0 == 0) by reflexivity.
    rewrite I. ring.
  - field. exact N.
Qed.

(** ** Meeting a boundary *)

Lemma hits_hit U s b :
  hits U s b = hit (since s) (value s) (sum (velocities s)) U
                 (line (boundary_of s b)).
Proof. reflexivity. Qed.

Lemma le_until_eq a b u : a == b -> le_until a u = le_until b u.
Proof.
  intros E. destruct u as [x|]; cbn; [|reflexivity].
  rewrite E. reflexivity.
Qed.

(** After the ray has met a line, the ray from the meeting point does
    not meet it again. *)
Lemma hit_after_meeting s v vel U l lv t y v' :
  Line.velocity l = Ok lv ->
  Line.intersect (Ray s U v vel) l = Ok (t, y) ->
  v' == y ->
  hit t v' vel U l = false.
Proof.
  intros V I E. rewrite (intersect_ray _ _ _ _ _ _ V) in I.
  destruct (Qeq_bool (vel - lv) 0) eqn:N; [discriminate|]. cbv zeta in I.
  destruct (Qle_bool (pymax s (Line.since l)) (meeting s v vel l lv)
            && le_until (meeting s v vel l lv) (Umin U (Line.until l)));
    [|discriminate].
  injection I as <- <-.
  unfold hit. rewrite (intersect_ray _ _ _ _ _ _ V), N. cbv zeta.
  match goal with
  | |- context [if ?c then _ else _] => destruct c
  end; [|reflexivity].
  apply negb_false_iff, Qeq_bool_iff.
  apply meeting_collinear. exact E.
Qed.

(** A line met by the ray from a later point of the same straight line
    is met by the ray from the earlier point. *)
Lemma hit_earlier s v vel U l lv t v' :
  Line.velocity l = Ok lv ->
  s <= t ->
  v' == v + vel * (t - s) ->
  hit t v' vel U l = true ->
  hit s v vel U l = true.
Proof.
  intros V L E. unfold hit. rewrite !(intersect_ray _ _ _ _ _ _ V).
  destruct (Qeq_bool (vel - lv) 0) eqn:N; [discriminate|]. cbv zeta.
  pose proof (meeting_collinear s v t v' vel l lv E) as M.
  destruct (Qle_bool (pymax t (Line.since l)) (meeting t v' vel l lv)
            && le_until (meeting t v' vel l lv) (Umin U (Line.until l))) eqn:R;
    [|discriminate].
  apply andb_true_iff in R as [R1 R2]. intros H.
  apply negb_true_iff in H. qb.
  assert (R1' : Qle_bool (pymax s (Line.since l)) (meeting s v vel l lv) = true).
  { apply Qle_bool_iff.
    destruct (pymax_cases s (Line.since l)) as [[? P]|[? P]]; rewrite P;
      destruct (pymax_cases t (Line.since l)) as [[? P']|[? P']];
      rewrite P' in R1; lra. }
  rewrite R1', <- (le_until_eq _ _ _ M), R2. cbn [andb].
  apply negb_true_iff, Qeq_bool_false. intros C.
  apply H.
  destruct (pymax_cases t (Line.since l)) as [[? P']|[? P']];
    rewrite P' in R1; lra.
Qed.

Lemma best_same b x y : x == y -> Boundary.best b x y == x.
Proof.
  intros E. destruct b; cbn.
  - destruct (pymin_cases x y) as [[? ->]|[? ->]]; lra.
  - destruct (pymax_cases x y) as [[? ->]|[? ->]]; lra.
Qed.

(** What [find_intersection] finds. *)
Lemma find_intersection_spec (s : DState) (U : Until) (vel : Q)
  (bs : list Side) :
  (forall b, exists lv, Line.velocity (line (boundary_of s b)) = Ok lv) ->
  match find_intersection s (Ray (since s) U (value s) vel) bs with
  | Raise _ => False
  | Ok None => True
  | Ok (Some (b, t, v')) =>
      exists y,
        Line.intersect (Ray (since s) U (value s) vel) (line (boundary_of s b))
        = Ok (t, y)
        /\ ~ t == since s /\ since s <= t /\ le_until t U = true
        /\ le_until t (Line.until (line (boundary_of s b))) = true
        /\ v' == value s + vel * (t - since s)
  end.
Proof.
  intros V. induction bs as [|b rest IH]; [exact I|].
  cbn [find_intersection].
  destruct (V b) as [lv Vb].
  pose proof (intersect_ray (since s) U (value s) vel _ _ Vb) as IR.
  destruct (Qeq_bool (vel - lv) 0) eqn:N.
  { rewrite IR. cbn [is_ValueError]. exact IH. }
  cbv zeta in IR.
  set (T := meeting (since s) (value s) vel (line (boundary_of s b)) lv) in *.
  destruct (Qle_bool (pymax (since s) (Line.since (line (boundary_of s b)))) T
            && le_until T (Umin U (Line.until (line (boundary_of s b)))))
    eqn:R.
  2:{ rewrite IR. cbn [is_ValueError]. exact IH. }
  rewrite IR.
  destruct (Qeq_bool T (since s)) eqn:ET; [exact IH|].
  apply andb_true_iff in R as [R1 R2].
  apply le_until_Umin in R2 as [R2 R3]. qb.
  assert (A : Line.since (line (boundary_of s b)) <= T /\ since s <= T).
  { destruct (pymax_cases (since s) (Line.since (line (boundary_of s b))))
      as [[? P]|[? P]]; rewrite P in R1; lra. }
  destruct A as [A1 A2].
  rewrite (guess_in_range _ _ A1 R3). cbn [bind].
  exists (value s + vel * (T - since s)).
  repeat split; try assumption.
  apply best_same.
  rewrite (get_affine _ _ _ Vb A1 R3).
  apply meeting_value. exact N.
Qed.

(** What [find_missing] finds, on well-formed boundaries. *)
Lemma find_missing_spec (s : DState) (U : Until) (vel : Q) (bs : list Side) :
  (forall b, proper (line (boundary_of s b))) ->
  (forall b, le_until (Line.since (line (boundary_of s b))) U = true) ->
  match find_missing s (Ray (since s) U (value s) vel) U bs with
  | Raise _ => False
  | Ok None => True
  | Ok (Some (b, t, _)) =>
      since s <= t /\ le_until t U = true
      /\ le_until t (Line.until (line (boundary_of s b))) = true
  end.
Proof.
  intros P J. induction bs as [|b rest IH]; [exact I|].
  cbn [find_missing].
  destruct (Umin (Line.until (line (boundary_of s b))) U) as [bu|] eqn:EU;
    [|exact IH].
  destruct (Qltb bu (since s)) eqn:EL; [exact IH|]. qb.
  assert (B : le_until bu (Line.until (line (boundary_of s b))) = true
              /\ le_until bu U = true).
  { apply le_until_Umin. rewrite EU. cbn. apply Qle_bool_iff. lra. }
  destruct B as [B1 B2].
  assert (A : Line.since (line (boundary_of s b)) <= bu).
  { specialize (P b). specialize (J b). unfold proper in P.
    apply lt_le_until in P.
    destruct (Umin_cases (Line.until (line (boundary_of s b))) U)
      as [[_ E]|[_ E]]; rewrite E in EU; rewrite EU in *; cbn in *; qb; lra. }
  rewrite (get_ok _ _ A B1). cbn [bind].
  unfold Line.get at 1. cbn [Line.since Line.until].
  assert (C : Qle_bool (since s) bu = true) by (apply Qle_bool_iff, EL).
  rewrite C, B2. cbn [andb bind].
  destruct (Boundary.cmp_eq b _ _); [exact IH|].
  repeat split; assumption.
Qed.

(** ** One pass of the loop *)

Lemma chain_proper l rest : chain l rest -> proper l.
Proof. destruct rest; intros [P _]; exact P. Qed.

Lemma chained_proper s b :
  chained (ceil s) -> chained (floor s) -> proper (line (boundary_of s b)).
Proof.
  intros C F. destruct b; cbn; eapply chain_proper; eassumption.
Qed.

Lemma ascending_snoc ys t t' v :
  ascending ys t -> t <= t' -> ascending (ys ++ [(t', v)]) t'.
Proof.
  intros [S A] L. split.
  - induction ys as [|p r IH]; cbn.
    + repeat constructor.
    + inversion S as [|? ? Sr Hp]; subst.
      inversion A as [|? ? Ap Ar]; subst.
      constructor; [apply IH; assumption|].
      apply Forall_app. split; [assumption|].
      constructor; [|constructor]. cbn in *. lra.
  - apply Forall_app. split.
    + eapply Forall_impl; [|exact A]. cbn. intros; lra.
    + constructor; [cbn; lra | constructor].
Qed.

Lemma ascending_later ys t t' : ascending ys t -> t <= t' -> ascending ys t'.
Proof.
  intros [S A] L. split; [assumption|].
  eapply Forall_impl; [|exact A]. cbn. intros; lra.
Qed.

Lemma potential_le U s : (potential U s <= 16)%nat.
Proof.
  unfold potential, overshot, flag.
  destruct (again s), (bound s), (overlapped s), (hits U s Ceil),
    (hits U s Floor); cbn; lia.
Qed.

Lemma flag_le b c : (b = true -> c = true) -> (flag b <= flag c)%nat.
Proof.
  destruct b, c; cbn; intros H; try lia.
  all: discriminate (H eq_refl).
Qed.

Lemma other_side (b b' : Side) : b = b' \/ b <> b'.
Proof. destruct b, b'; auto; right; discriminate. Qed.

(** The meeting found by [find_intersection] uses up one of the two
    possible meetings. *)
Lemma hits_decrease U s b t y v' :
  chained (ceil s) -> chained (floor s) ->
  Line.intersect (Ray (since s) U (value s) (sum (velocities s)))
    (line (boundary_of s b)) = Ok (t, y) ->
  ~ t == since s -> since s <= t ->
  v' == value s + sum (velocities s) * (t - since s) ->
  forall s',
    since s' = t -> value s' = v' -> velocities s' = velocities s ->
    ceil s' = ceil s -> floor s' = floor s ->
    (flag (hits U s' Ceil) + flag (hits U s' Floor)
     < flag (hits U s Ceil) + flag (hits U s Floor))%nat.
Proof.
  intros C F I N L E s' Hs Hv Hvs Hc Hf.
  assert (V : forall x, exists lv, Line.velocity (line (boundary_of s x)) = Ok lv).
  { intros x. apply velocity_proper, chained_proper; assumption. }
  assert (B : forall x, line (boundary_of s' x) = line (boundary_of s x)).
  { intros [|]; cbn; congruence. }
  assert (Hb : hits U s b = true).
  { unfold hits. rewrite I. apply negb_true_iff, Qeq_bool_false, N. }
  assert (Hb' : hits U s' b = false).
  { rewrite hits_hit, B, Hs, Hv, Hvs. destruct (V b) as [lv Vb].
    eapply hit_after_meeting; [exact Vb | exact I |].
    rewrite E.
    rewrite (intersect_ray _ _ _ _ _ _ Vb) in I.
    destruct (Qeq_bool _ _); [discriminate|]. cbv zeta in I.
    match type of I with
    | (if ?c then _ else _) = _ => destruct c
    end; [|discriminate].
    injection I as <- <-. reflexivity. }
  assert (Hm : forall x, hits U s' x = true -> hits U s x = true).
  { intros x. rewrite !hits_hit, B, Hs, Hv, Hvs. destruct (V x) as [lv Vx].
    apply (hit_earlier _ _ _ _ _ _ _ _ Vx L E). }
  pose proof (flag_le _ _ (Hm Ceil)). pose proof (flag_le _ _ (Hm Floor)).
  destruct b; rewrite Hb, Hb' in *; cbn [flag] in *; lia.
Qed.

Lemma follow_ok U s :
  invariant U s ->
  lt_until (since s) U = true ->
  again s = false ->
  (bound s = None -> velocity s = sum (velocities s)) ->
  pass_ok U s (follow U s).
Proof.
  intros Inv LT AG VS.
  pose proof Inv as (C & F & Jc & Jf & SU & I2 & Y).
  assert (P : forall b, proper (line (boundary_of s b))).
  { intros b. apply chained_proper; assumption. }
  assert (J : forall b, le_until (Line.since (line (boundary_of s b))) U = true).
  { intros [|]; assumption. }
  unfold follow.
  destruct (overlapped s) eqn:OV.
  - destruct (I2 eq_refl) as [b [Hb I2b]]. rewrite Hb.
    destruct (Umin (Line.until (line (boundary_of s b))) U) as [bu|] eqn:EU.
    + assert (B : le_until bu (Line.until (line (boundary_of s b))) = true
                  /\ le_until bu U = true).
      { apply le_until_Umin. rewrite EU. cbn. apply Qle_bool_iff. lra. }
      destruct B as [B1 B2].
      assert (A : Line.since (line (boundary_of s b)) <= bu /\ since s <= bu).
      { specialize (P b). specialize (J b). unfold proper in P.
        apply lt_le_until in P.
        destruct (Umin_cases (Line.until (line (boundary_of s b))) U)
          as [[_ E]|[_ E]]; rewrite E in EU; rewrite EU in *; cbn in *; qb;
          split; lra. }
      destruct A as [A1 A2].
      rewrite (get_ok _ _ A1 B1).
      destruct s as [sn vl vc vs bd ov c f ag wk ys]; cbn in *.
      subst. unfold pass_ok, invariant. cbn.
      repeat split; try assumption.
      * intros _. exists b. split; [reflexivity|]. destruct b; assumption.
      * apply (ascending_snoc _ _ _ _ Y A2).
      * apply (ascending_snoc _ _ _ _ Y A2).
      * intros _. unfold potential, overshot, flag. cbn.
        destruct (hits _ _ Ceil), (hits _ _ Floor),
          (hits _ _ Ceil), (hits _ _ Floor); lia.
    + cbn. split.
      * exact Inv.
      * intros b' _ Hb'. rewrite Hb in Hb'. injection Hb' as <-.
        apply Umin_Forever in EU as [-> ->]. reflexivity.
  - assert (V : forall x, exists lv, Line.velocity (line (boundary_of s x)) = Ok lv).
    { intros x. apply velocity_proper, P. }
    pose proof (find_intersection_spec s U (velocity s) (walked_boundaries s) V)
      as FI.
    destruct (find_intersection s _ (walked_boundaries s))
      as [[[[b t] v']|]|e]; [| |contradiction].
    + destruct FI as (y & I & N & L & TU & TB & E).
      cbn. split; [|split; [reflexivity|]].
      * destruct s as [sn vl vc vs bd ov c f ag wk ys]; cbn in *.
        unfold invariant; cbn. repeat split; try assumption.
        -- intros _. exists b. split; [reflexivity|]. destruct b; assumption.
        -- apply (ascending_snoc _ _ _ _ Y L).
        -- apply (ascending_snoc _ _ _ _ Y L).
      * intros _.
        destruct (bound s) as [b0|] eqn:BD.
        -- unfold potential, overshot, flag.
           destruct s as [sn vl vc vs bd ov c f ag wk ys]; cbn in *. subst.
           cbn.
           destruct (hits _ _ Ceil), (hits _ _ Floor),
             (hits _ _ Ceil), (hits _ _ Floor); lia.
        -- rewrite (VS eq_refl) in I, E.
           pose proof (hits_decrease U s b t y v' C F I N L E
                         (move_and_yield (with_bound s (Some b) true true) t v')
                         eq_refl eq_refl eq_refl eq_refl eq_refl) as D.
           unfold potential, overshot in *.
           destruct s as [sn vl vc vs bd ov c f ag wk ys]; cbn in *. subst.
           cbn [flag] in *. lia.
    + destruct (bound s) as [b0|] eqn:BD.
      * cbn. split; [exact Inv|split; [reflexivity|intros _; lia]].
      * pose proof (find_missing_spec s U (velocity s) (walked_boundaries s) P J)
          as FM.
        destruct (find_missing s _ U (walked_boundaries s))
          as [[[[b t] v']|]|e]; [| |contradiction].
        -- destruct FM as (L & TU & TB).
           cbn. split; [|split; [reflexivity|]].
           ++ destruct s as [sn vl vc vs bd ov c f ag wk ys]; cbn in *.
              unfold invariant; cbn. repeat split; try assumption.
              ** intros _. exists b. split; [reflexivity|].
                 destruct b; assumption.
              ** apply (ascending_snoc _ _ _ _ Y L).
              ** apply (ascending_snoc _ _ _ _ Y L).
           ++ intros _. unfold potential, overshot, flag.
              destruct s as [sn vl vc vs bd ov c f ag wk ys]; cbn in *. subst.
              cbn.
              destruct (hits _ _ Ceil), (hits _ _ Floor),
                (hits _ _ Ceil), (hits _ _ Floor); lia.
        -- cbn. split; [exact Inv|split; [reflexivity|intros _; lia]].
Qed.

Lemma hits_ext U s s' b :
  since s' = since s -> value s' = value s ->
  velocities s' = velocities s ->
  ceil s' = ceil s -> floor s' = floor s ->
  hits U s' b = hits U s b.
Proof.
  intros A B C D E. unfold hits.
  replace (line (boundary_of s' b)) with (line (boundary_of s b))
    by (destruct b; cbn; congruence).
  rewrite A, B, C. reflexivity.
Qed.

(** The potential, from the flags and the two possible meetings. *)
Lemma potential_eq U s :
  potential U s
  = (6 * flag (again s) + 6 * flag (overshot s)
     + 2 * (flag (hits U s Ceil) + flag (hits U s Floor))
     + flag (overlapped s))%nat.
Proof. reflexivity. Qed.

Lemma flag_le1 b : (flag b <= 1)%nat.
Proof. destruct b; cbn; lia. Qed.

Lemma pass_ok_velocity U s v f :
  pass_ok U (with_velocity s v) f -> pass_ok U s f.
Proof.
  destruct f as [s'|s'|e s']; cbn; auto.
Qed.

Lemma invariant_velocity U s v :
  invariant U s -> invariant U (with_velocity s v).
Proof. destruct s; exact (fun H => H). Qed.

Lemma advance_ok U s :
  invariant U s ->
  lt_until (since s) U = true ->
  again s = false ->
  pass_ok U s (advance U s).
Proof.
  intros Inv LT AG.
  pose proof Inv as (C & F & Jc & Jf & SU & I2 & Y).
  unfold advance.
  destruct (bound s) as [b|] eqn:BD.
  - destruct (overlapped s) eqn:OV.
    + destruct (velocity_proper _ (chained_proper s b C F)) as [lv Vb].
      rewrite Vb. cbn [bind].
      replace (overlapped (with_velocity s (Boundary.best b (sum (velocities s)) lv)))
        with true by (destruct s; cbn in *; congruence).
      replace (bound (with_velocity s (Boundary.best b (sum (velocities s)) lv)))
        with (Some b) by (destruct s; cbn in *; congruence).
      replace (line (boundary_of (with_velocity s (Boundary.best b (sum (velocities s)) lv)) b))
        with (line (boundary_of s b)) by (destruct s, b; reflexivity).
      rewrite Vb.
      destruct (Boundary.cmp b _ lv).
      * cbn [pass_ok]. split; [|split; [destruct s; reflexivity|]].
        -- destruct s as [sn vl vc vs bd ov c f ag wk ys].
           unfold invariant; cbn [ceil floor since overlapped bound yielded
             with_bound with_velocity boundary_of] in *.
           repeat split; try assumption; try apply Y.
           discriminate.
        -- intros _. rewrite !potential_eq.
           rewrite !(hits_ext U s (with_bound (with_velocity s _) None false true))
             by (destruct s; reflexivity).
           unfold overshot.
           replace (again (with_bound (with_velocity s (Boundary.best b (sum (velocities s)) lv)) None false true))
             with true by (destruct s; reflexivity).
           replace (bound (with_bound (with_velocity s (Boundary.best b (sum (velocities s)) lv)) None false true))
             with (@None Side) by (destruct s; reflexivity).
           replace (overlapped (with_bound (with_velocity s (Boundary.best b (sum (velocities s)) lv)) None false true))
             with false by (destruct s; reflexivity).
           rewrite AG, BD, OV. cbn [flag negb]. lia.
      * apply pass_ok_velocity with (v := Boundary.best b (sum (velocities s)) lv).
        apply follow_ok.
        -- apply invariant_velocity, Inv.
        -- destruct s; exact LT.
        -- destruct s; exact AG.
        -- destruct s; cbn in *; congruence.
    + cbn [bind].
      set (vel := sum (filter (fun v => Boundary.cmp b v 0) (velocities s))).
      replace (overlapped (with_velocity s vel))
        with false by (destruct s; cbn in *; congruence).
      apply pass_ok_velocity with (v := vel).
      apply follow_ok.
      * apply invariant_velocity, Inv.
      * destruct s; exact LT.
      * destruct s; exact AG.
      * destruct s; cbn in *; congruence.
  - destruct (overlapped s) eqn:OV.
    { destruct (I2 eq_refl) as [b [Hb _]]. congruence. }
    replace (overlapped (with_velocity s (sum (velocities s))))
      with false by (destruct s; cbn in *; congruence).
    apply pass_ok_velocity with (v := sum (velocities s)).
    apply follow_ok.
    + apply invariant_velocity, Inv.
    + destruct s; exact LT.
    + destruct s; exact AG.
    + destruct s; reflexivity.
Qed.

(** One pass keeps the invariant and uses up some of the passes left. *)
Lemma body_ok U s :
  invariant U s ->
  lt_until (since s) U = true ->
  match body U s with
  | Continue s' => invariant U s' /\ (passes U s' < passes U s)%nat
  | Break s' => settled U s'
  | Throw _ _ => False
  end.
Proof.
  intros Inv LT.
  pose proof Inv as (C & F & Jc & Jf & SU & I2 & Y).
  unfold body.
  destruct (again s) eqn:AG.
  - assert (A : pass_ok U (with_walked s false [Ceil; Floor])
                  (advance U (with_walked s false [Ceil; Floor]))).
    { apply advance_ok; destruct s; auto. }
    destruct (advance U (with_walked s false [Ceil; Floor])) as [s'|s'|e s'];
      cbn [pass_ok] in A; auto.
    destruct A as (I' & L & D). split; [exact I'|].
    specialize (D ltac:(destruct s; reflexivity)).
    unfold passes. 
    replace (lines_left (with_walked s false [Ceil; Floor]))
      with (lines_left s) in L by (destruct s; reflexivity).
    assert (PE : potential U s
                 = (6 + potential U (with_walked s false [Ceil; Floor]))%nat).
    { rewrite !potential_eq.
      rewrite !(hits_ext U s (with_walked s false [Ceil; Floor]))
        by (destruct s; reflexivity).
      unfold overshot.
      replace (again (with_walked s false [Ceil; Floor])) with false
        by (destruct s; reflexivity).
      replace (bound (with_walked s false [Ceil; Floor])) with (bound s)
        by (destruct s; reflexivity).
      replace (overlapped (with_walked s false [Ceil; Floor])) with (overlapped s)
        by (destruct s; reflexivity).
      rewrite AG. cbn [flag]. lia. }
    lia.
  - destruct (Uleb U (Line.until (line (ceil s)))
              && Uleb U (Line.until (line (floor s)))) eqn:ALL.
    + split; [exact Inv|]. intros b _ _.
      apply andb_true_iff in ALL as [A1 A2]. destruct b; assumption.
    + set (b := if Ultb (Line.until (line (floor s))) (Line.until (line (ceil s)))
                then Floor else Ceil).
      (* the chosen boundary ends before [U] *)
      assert (E : exists u, Line.until (line (boundary_of s b)) = At u
                            /\ lt_until u U = true
                            /\ forall b', le_until u (Line.until (line (boundary_of s b'))) = true).
      { subst b. unfold Ultb in *.
        destruct (Line.until (line (ceil s))) as [uc|] eqn:EC;
          destruct (Line.until (line (floor s))) as [uf|] eqn:EF;
          destruct U as [x|]; cbn in ALL |- *;
          try discriminate ALL.
        all: try (destruct (Qle_bool uc uf) eqn:Q1; cbn [negb]).
        all: cbn [boundary_of]; rewrite ?EC, ?EF.
        all: try (destruct (Qle_bool x uc) eqn:Q2);
          try (destruct (Qle_bool x uf) eqn:Q3); cbn in ALL;
          try discriminate ALL.
        all: eexists; split; [reflexivity|]; split;
          [cbn; try reflexivity; try apply Qltb_lt; qb; lra
          |intros [|]; cbn; rewrite ?EC, ?EF; cbn; try reflexivity;
           apply Qle_bool_iff; qb; lra]. }
      destruct E as (u & EU & LU & Lmin).
      assert (CH : chained (boundary_of s b)) by (destruct b; assumption).
      unfold chained in CH.
      destruct (lines_iter (boundary_of s b)) as [|l' r] eqn:EL.
      { destruct CH as [_ CH]. congruence. }
      destruct CH as (Pb & (u' & EU' & SL) & CH').
      rewrite EU in EU'. injection EU' as <-.
      cbn [Boundary.walk].
      set (s1 := with_walked (with_boundary s b (mkBoundary l' r)) false [b]).
      assert (I1 : invariant U s1).
      { assert (Pl' : proper l') by (eapply chain_proper; exact CH').
        subst s1. destruct s as [sn vl vc vs bd ov c f ag wk ys]; cbn in *.
        unfold invariant, chained; cbn.
        destruct b; cbn in *; repeat split; try assumption; try apply Y.
        - rewrite (le_until_eq _ _ _ SL). apply lt_le_until, LU.
        - intros O. destruct (I2 O) as [b0 [Hb0 I0]]. exists b0.
          split; [assumption|]. destruct b0; cbn in *; [|assumption].
          rewrite EU in I0. cbn in I0. unfold proper in Pl'.
          destruct (Line.until l') as [ul|]; cbn in *; [|reflexivity].
          qb. apply Qle_bool_iff. lra.
        - rewrite (le_until_eq _ _ _ SL). apply lt_le_until, LU.
        - intros O. destruct (I2 O) as [b0 [Hb0 I0]]. exists b0.
          split; [assumption|]. destruct b0; cbn in *; [assumption|].
          rewrite EU in I0. cbn in I0. unfold proper in Pl'.
          destruct (Line.until l') as [ul|]; cbn in *; [|reflexivity].
          qb. apply Qle_bool_iff. lra. }
      assert (A : pass_ok U s1 (advance U s1)).
      { apply advance_ok; [exact I1 | | ]; subst s1; destruct s, b; auto. }
      destruct (advance U s1) as [s'|s'|e s']; cbn [pass_ok] in A; auto.
      destruct A as (I' & L & _). split; [exact I'|].
      pose proof (potential_le U s'). unfold passes.
      assert (LL : lines_left s = S (lines_left s1)).
      { subst s1. unfold lines_left.
        destruct s as [sn vl vc vs bd ov c f ag wk ys], b; cbn in *;
          rewrite EL; cbn; lia. }
      lia.
Qed.

Lemma while_ok U fuel : forall s,
  invariant U s ->
  (passes U s <= fuel)%nat ->
  exists s', while fuel U s = Done s' /\ settled U s'.
Proof.
  induction fuel as [|fuel IH]; intros s Inv Hf.
  - unfold passes in Hf. lia.
  - cbn [while].
    destruct (lt_until (since s) U) eqn:LT.
    + pose proof (body_ok U s Inv LT) as B.
      destruct (body U s) as [s'|s'|e s'].
      * destruct B as [I' D]. apply IH; [exact I' | lia].
      * eauto.
      * contradiction.
    + exists s. split; [reflexivity|]. split; [exact Inv|].
      intros b O Hb.
      destruct Inv as (_ & _ & _ & _ & _ & I2 & _).
      destruct (I2 O) as [b0 [Hb0 I0]]. rewrite Hb in Hb0. injection Hb0 as <-.
      apply lt_until_false in LT.
      destruct U as [x|]; [|discriminate].
      cbn in LT. destruct (Line.until _) as [ub|]; cbn in *; [|reflexivity].
      qb. apply Qle_bool_iff. lra.
Qed.

(** ** The frame of the inner loop *)

Lemma frame_refl s : frame s s.
Proof. split; [reflexivity | exists []; symmetry; apply app_nil_r]. Qed.

Lemma frame_trans s1 s2 s3 : frame s1 s2 -> frame s2 s3 -> frame s1 s3.
Proof.
  intros [V1 [m1 Y1]] [V2 [m2 Y2]]. split; [congruence|].
  exists (m1 ++ m2). rewrite Y2, Y1, app_assoc. reflexivity.
Qed.

Lemma frame_move s t v : frame s (move_and_yield s t v).
Proof. split; [reflexivity | exists [(t, v)]; reflexivity]. Qed.

Lemma frame_with_bound s b o a : frame s (with_bound s b o a).
Proof.
  destruct s; (split; [reflexivity | exists []; symmetry; apply app_nil_r]).
Qed.

Lemma frame_with_velocity s v : frame s (with_velocity s v).
Proof.
  destruct s; (split; [reflexivity | exists []; symmetry; apply app_nil_r]).
Qed.

Lemma frame_with_walked s a w : frame s (with_walked s a w).
Proof.
  destruct s; (split; [reflexivity | exists []; symmetry; apply app_nil_r]).
Qed.

Lemma frame_with_boundary s b x : frame s (with_boundary s b x).
Proof.
  destruct s, b; (split; [reflexivity | exists []; symmetry; apply app_nil_r]).
Qed.

Lemma follow_frame U s : flow_frame s (follow U s).
Proof.
  unfold follow.
  destruct (overlapped s).
  - destruct (bound s) as [b|]; [|apply frame_refl].
    destruct (Umin _ U); [|apply frame_refl].
    destruct (Line.get _ _); [apply frame_move | apply frame_refl].
  - destruct (find_intersection _ _ _) as [[[[b t] v]|]|e];
      [| |apply frame_refl].
    + eapply frame_trans; [apply frame_with_bound | apply frame_move].
    + destruct (bound s); [apply frame_refl|].
      destruct (find_missing _ _ _ _) as [[[[b t] v]|]|e];
        try apply frame_refl.
      eapply frame_trans; [apply frame_with_bound | apply frame_move].
Qed.

Lemma flow_frame_trans s s1 f : frame s s1 -> flow_frame s1 f -> flow_frame s f.
Proof.
  destruct f; cbn; intros; eapply frame_trans; eassumption.
Qed.

Lemma advance_frame U s : flow_frame s (advance U s).
Proof.
  unfold advance.
  match goal with
  | |- flow_frame s (match ?r with Ok _ => _ | Raise _ => _ end) =>
      destruct r as [vel|e]
  end; [|apply frame_refl].
  destruct (overlapped (with_velocity s vel)).
  - destruct (bound (with_velocity s vel)) as [b|];
      [|apply frame_with_velocity].
    destruct (Line.velocity _); [|apply frame_with_velocity].
    destruct (Boundary.cmp _ _ _).
    + eapply frame_trans; [apply frame_with_velocity | apply frame_with_bound].
    + eapply flow_frame_trans; [apply frame_with_velocity | apply follow_frame].
  - eapply flow_frame_trans; [apply frame_with_velocity | apply follow_frame].
Qed.

Lemma body_frame U s : flow_frame s (body U s).
Proof.
  unfold body.
  destruct (again s).
  - eapply flow_frame_trans; [apply frame_with_walked | apply advance_frame].
  - destruct (_ && _); [apply frame_refl|].
    destruct (Boundary.walk _); [|apply frame_refl].
    eapply flow_frame_trans; [|apply advance_frame].
    eapply frame_trans; [apply frame_with_boundary | apply frame_with_walked].
Qed.

Lemma while_frame U fuel : forall s s',
  while fuel U s = Done s' -> frame s s'.
Proof.
  induction fuel as [|fuel IH]; intros s s'; cbn [while].
  - destruct (lt_until _ _); [discriminate|]. intros [= <-]. apply frame_refl.
  - destruct (lt_until _ _); [|intros [= <-]; apply frame_refl].
    pose proof (body_frame U s) as B.
    destruct (body U s) as [s1|s1|e s1]; cbn in B.
    + intros W. eapply frame_trans; [exact B | apply IH, W].
    + intros [= <-]. exact B.
    + discriminate.
Qed.

(** ** One event *)

Lemma invariant_later s U :
  invariant (At (since s)) s ->
  le_until (since s) U = true ->
  invariant U s.
Proof.
  intros (C & F & Jc & Jf & _ & I2 & Y) L.
  repeat split; try assumption; try apply Y.
  - cbn in Jc. qb. eapply le_until_trans; eassumption.
  - cbn in Jf. qb. eapply le_until_trans; eassumption.
Qed.

Lemma invariant_walked U s a w :
  invariant U s -> invariant U (with_walked s a w).
Proof. destruct s; exact (fun H => H). Qed.

Lemma budget_passes U s : (passes U s <= budget s)%nat.
Proof.
  unfold passes, budget, lines_left. pose proof (potential_le U s). lia.
Qed.

Lemma on_event_ok t0 time method s :
  invariant (At (since s)) s ->
  le_until (since s) (normalize time t0) = true ->
  (forall m, method = Some (REMOVE, m) ->
             remove_first Qeq_bool (m_velocity m) (velocities s) <> None) ->
  match on_event t0 time method s with
  | Continue s' =>
      invariant (At (since s')) s'
      /\ normalize time t0 = At (since s')
      /\ velocities s' = next_velocities method (velocities s)
      /\ yielded s' <> [] /\ exists more, yielded s' = yielded s ++ more
  | Break s' =>
      ascending (yielded s') (since s')
      /\ exists more, yielded s' = yielded s ++ more
  | Throw _ _ => False
  end.
Proof.
  intros Inv L R. unfold on_event.
  set (U := normalize time t0) in *.
  assert (I1 : invariant U (with_walked s true (walked_boundaries s))).
  { apply invariant_walked, invariant_later; assumption. }
  destruct (while_ok U (budget s) _ I1) as (s' & W & [I' ST]).
  { etransitivity; [apply budget_passes|]. destruct s; cbn. lia. }
  rewrite W.
  pose proof (while_frame _ _ _ _ W) as FR.
  assert (FR' : frame s s').
  { eapply frame_trans; [apply frame_with_walked | exact FR]. }
  destruct FR' as [FV [more FY]].
  pose proof I' as (C & F & Jc & Jf & SU & I2 & Y).
  destruct U as [u|] eqn:EU.
  - set (v := value s' + velocity s' * (u - since s')).
    assert (Inv2 : invariant (At u) (move_and_yield s' u v)).
    { destruct s' as [sn vl vc vs bd ov c f ag wk ys].
      unfold invariant;
        cbn [ceil floor since overlapped bound yielded move_and_yield
             boundary_of] in *.
      cbn in SU. qb.
      repeat split; try assumption.
      - apply Qle_bool_iff. lra.
      - intros O. destruct (I2 O) as [b [Hb I0]]. exists b.
        split; [assumption|]. specialize (ST b O Hb).
        destruct b; cbn [boundary_of] in *;
          destruct (Line.until _); cbn in *; congruence.
      - apply (ascending_snoc _ _ _ _ Y SU).
      - apply (ascending_snoc _ _ _ _ Y SU). }
    assert (YN : yielded (move_and_yield s' u v) <> []
                 /\ exists more', yielded (move_and_yield s' u v) = yielded s ++ more').
    { split.
      - destruct s'; cbn. intros E. apply app_eq_nil in E as [_ E]. discriminate.
      - exists (more ++ [(u, v)]). destruct s'; cbn in *. rewrite FY, app_assoc.
        reflexivity. }
    destruct method as [[[|] m]|].
    + split; [|split; [|split]].
      * destruct s'; exact Inv2.
      * destruct s'; reflexivity.
      * destruct s'; cbn in *. rewrite FV. reflexivity.
      * destruct s'; exact YN.
    + specialize (R m eq_refl). rewrite <- FV in R.
      replace (velocities (move_and_yield s' u v)) with (velocities s')
        by (destruct s'; reflexivity).
      destruct (remove_first Qeq_bool (m_velocity m) (velocities s')) as [vs|] eqn:RF;
        [|congruence].
      split; [|split; [|split]].
      * destruct s'; exact Inv2.
      * destruct s'; reflexivity.
      * cbn [next_velocities]. rewrite <- FV, RF. destruct s'; reflexivity.
      * destruct s'; exact YN.
    + split; [|split; [|split]].
      * exact Inv2.
      * destruct s'; reflexivity.
      * destruct s'; cbn in *. rewrite FV. reflexivity.
      * exact YN.
  - split; [exact Y | exists more; exact FY].
Qed.

(** ** Equal momenta, equal events *)

Lemma Qeq_bool_sym x y : Qeq_bool x y = Qeq_bool y x.
Proof.
  destruct (Qeq_bool x y) eqn:A, (Qeq_bool y x) eqn:B; qb; try reflexivity;
    exfalso; [apply B | apply A]; symmetry; assumption.
Qed.

Lemma Qeq_bool_trans x y z :
  Qeq_bool x y = true -> Qeq_bool y z = true -> Qeq_bool x z = true.
Proof. intros; qb. apply Qeq_bool_iff. lra. Qed.

Lemma Qeq_bool_refl x : Qeq_bool x x = true.
Proof. apply Qeq_bool_iff. reflexivity. Qed.

Lemma Teqb_refl a : Teqb a a = true.
Proof. destruct a; cbn; auto using Qeq_bool_refl. Qed.

Lemma Teqb_sym a b : Teqb a b = Teqb b a.
Proof. destruct a, b; cbn; auto using Qeq_bool_sym. Qed.

Lemma Teqb_trans a b c : Teqb a b = true -> Teqb b c = true -> Teqb a c = true.
Proof.
  destruct a, b, c; cbn; try discriminate; auto. apply Qeq_bool_trans.
Qed.

Lemma Meqb_refl m : Meqb m m = true.
Proof. unfold Meqb. rewrite Qeq_bool_refl, !Teqb_refl. reflexivity. Qed.

Lemma Meqb_sym a b : Meqb a b = Meqb b a.
Proof.
  unfold Meqb.
  rewrite (Qeq_bool_sym (m_velocity a)), (Teqb_sym (m_since a)),
    (Teqb_sym (m_until a)). reflexivity.
Qed.

Lemma Meqb_trans a b c : Meqb a b = true -> Meqb b c = true -> Meqb a c = true.
Proof.
  unfold Meqb. rewrite !andb_true_iff. intros [[A1 A2] A3] [[B1 B2] B3].
  repeat split; [eapply Qeq_bool_trans | eapply Teqb_trans | eapply Teqb_trans];
    eassumption.
Qed.

Lemma Meqb_velocity a b : Meqb a b = true -> m_velocity a == m_velocity b.
Proof.
  unfold Meqb. rewrite !andb_true_iff. intros [[A _] _]. qb. exact A.
Qed.

Lemma Eeqb_refl e : Eeqb e e = true.
Proof.
  destruct e as [[t k] m]. cbn. rewrite Teqb_refl, Meqb_refl.
  destruct k; reflexivity.
Qed.

Lemma Eeqb_momentum a b :
  Eeqb a b = true -> Meqb (event_momentum a) (event_momentum b) = true.
Proof.
  destruct a as [[ta ka] ma], b as [[tb kb] mb]. cbn.
  rewrite !andb_true_iff. intros [_ H]. exact H.
Qed.

Lemma contains_Meqb a b l :
  Meqb a b = true -> contains Meqb a l = contains Meqb b l.
Proof.
  intros E. unfold contains. induction l as [|y r IH]; [reflexivity|].
  cbn [existsb]. rewrite IH. f_equal.
  destruct (Meqb y a) eqn:A, (Meqb y b) eqn:B; try reflexivity.
  - rewrite (Meqb_trans _ _ _ A E) in B. discriminate.
  - rewrite Meqb_sym in E. rewrite (Meqb_trans _ _ _ B E) in A. discriminate.
Qed.

Lemma remove_first_skip {A} (eqb : A -> A -> bool) x l1 y l2 :
  (forall z, In z l1 -> eqb z x = false) -> eqb y x = true ->
  remove_first eqb x (l1 ++ y :: l2) = Some (l1 ++ l2).
Proof.
  intros N E. induction l1 as [|z r IH]; cbn [app remove_first].
  - rewrite E. reflexivity.
  - rewrite (N z (or_introl eq_refl)), IH; [reflexivity|].
    intros w Hw. apply N. right. exact Hw.
Qed.

(** ** Velocities and momenta in effect *)

Lemma occurrences_app q l1 l2 :
  occurrences q (l1 ++ l2) = (occurrences q l1 + occurrences q l2)%nat.
Proof. unfold occurrences. rewrite filter_app, length_app. reflexivity. Qed.

Lemma occurrences_cons q y l :
  occurrences q (y :: l) = (flag (Qeq_bool y q) + occurrences q l)%nat.
Proof. unfold occurrences. cbn. destruct (Qeq_bool y q); reflexivity. Qed.

Lemma velocities_of_add vs active m :
  velocities_of vs active ->
  velocities_of (vs ++ [m_velocity m]) (m :: active).
Proof.
  intros H q. rewrite occurrences_app. cbn [map].
  rewrite !occurrences_cons, H.
  change (occurrences q []) with 0%nat. lia.
Qed.

Lemma velocities_of_remove vs active m active' :
  velocities_of vs active ->
  remove_first Meqb m active = Some active' ->
  exists vs', remove_first Qeq_bool (m_velocity m) vs = Some vs'
              /\ velocities_of vs' active'.
Proof.
  intros H R.
  pose proof (remove_first_split Meqb m active) as S. rewrite R in S.
  destruct S as (a1 & x & a2 & -> & Ex & _ & ->).
  pose proof (remove_first_split Qeq_bool (m_velocity m) vs) as S.
  destruct (remove_first Qeq_bool (m_velocity m) vs) as [vs'|].
  - destruct S as (v1 & y & v2 & -> & Ey & _ & ->).
    exists (v1 ++ v2). split; [reflexivity|]. intros q.
    specialize (H q). rewrite map_app in *. cbn [map] in H.
    rewrite !occurrences_app, !occurrences_cons in H.
    rewrite !occurrences_app.
    apply Meqb_velocity in Ex. qb.
    assert (E : Qeq_bool y q = Qeq_bool (m_velocity x) q).
    { destruct (Qeq_bool y q) eqn:A, (Qeq_bool (m_velocity x) q) eqn:B; qb;
        try reflexivity; exfalso; [apply B | apply A]; lra. }
    rewrite E in H. lia.
  - exfalso. specialize (H (m_velocity m)).
    rewrite map_app in H. cbn [map] in H.
    rewrite occurrences_app, occurrences_cons in H.
    apply Meqb_velocity in Ex.
    assert (E : Qeq_bool (m_velocity x) (m_velocity m) = true)
      by (apply Qeq_bool_iff, Ex).
    rewrite E in H. cbn [flag] in H.
    assert (Z : occurrences (m_velocity m) vs = 0%nat).
    { unfold occurrences. unfold contains in S. clear H.
      induction vs as [|w r IH]; [reflexivity|].
      cbn in S |- *. apply orb_false_iff in S as [S1 S2].
      rewrite S1. apply IH, S2. }
    lia.
Qed.

(** ** The events that pass the filter of [walk_events] *)

Lemma pending_filter (P : Momentum -> bool) :
  (forall a b, Meqb a b = true -> P a = P b) ->
  forall evs active,
    pending active evs <> None ->
    pending (filter P active)
      (filter (fun e => P (event_momentum e)) evs) <> None.
Proof.
  intros HP. induction evs as [|[[t k] m] rest IH]; intros active H.
  - discriminate.
  - cbn [pending filter event_momentum snd] in *.
    destruct k.
    + destruct (P m) eqn:Pm.
      * cbn [pending]. specialize (IH (m :: active) H).
        cbn [filter] in IH. rewrite Pm in IH. exact IH.
      * specialize (IH (m :: active) H).
        cbn [filter] in IH. rewrite Pm in IH. exact IH.
    + pose proof (remove_first_split Meqb m active) as S.
      destruct (remove_first Meqb m active) as [active'|]; [|congruence].
      destruct S as (a1 & x & a2 & -> & Ex & N & ->).
      specialize (IH _ H). rewrite filter_app in IH.
      assert (Px : P x = P m) by (apply HP, Ex).
      destruct (P m) eqn:Pm.
      * cbn [pending]. rewrite filter_app. cbn [filter]. rewrite Px.
        rewrite (remove_first_skip Meqb m (filter P a1) x (filter P a2));
          [exact IH | | exact Ex].
        intros z Hz. apply filter_In in Hz as [Hz _]. apply N, Hz.
      * rewrite filter_app. cbn [filter]. rewrite Px. exact IH.
Qed.

Lemma pymax_le_l a b : a <= pymax a b.
Proof. destruct (pymax_cases a b) as [[? ->]|[? ->]]; lra. Qed.

Lemma pymax_le_r a b : b <= pymax a b.
Proof. destruct (pymax_cases a b) as [[? ->]|[? ->]]; lra. Qed.

Lemma normalize_mono a b t0 u :
  Tleb a b = true -> normalize a t0 = At u ->
  le_until u (normalize b t0) = true.
Proof.
  destruct a as [|x|], b as [|y|]; cbn; try discriminate; try reflexivity;
    intros L [= <-]; try apply Qle_bool_iff; qb.
  - lra.
  - apply pymax_le_r.
  - destruct (pymax_cases x t0) as [[? ->]|[? ->]];
      destruct (pymax_cases y t0) as [[? ->]|[? ->]]; lra.
Qed.

Lemma normalize_ge t t0 : le_until t0 (normalize t t0) = true.
Proof.
  destruct t as [|x|]; cbn; try reflexivity; apply Qle_bool_iff;
    [lra | apply pymax_le_r].
Qed.

(** The loop over the events. *)
Lemma for_events_ok (t0 : Q) (ms : list Momentum) :
  forall snapshot kept log s active,
    invariant (At (since s)) s ->
    time_sorted snapshot ->
    Forall (fun e => le_until (since s) (normalize (event_time e) t0) = true)
      snapshot ->
    log = kept ++ snapshot ->
    Forall (fun e => contains Meqb (event_momentum e) ms = true) kept ->
    velocities_of (velocities s) active ->
    pending active
      (filter (fun e => contains Meqb (event_momentum e) ms) snapshot)
    <> None ->
    exists log' s',
      for_events t0 ms snapshot log s = (log', Done s')
      /\ ascending (yielded s') (since s')
      /\ exists more, yielded s' = yielded s ++ more.
Proof.
  induction snapshot as [|[[time k] m] rest IH];
    intros kept log s active Inv TS GE EL KP VO PD.
  - cbn [for_events].
    assert (OE := on_event_ok t0 PInf None s Inv eq_refl
                    ltac:(intros m' E; discriminate E)).
    destruct (on_event t0 PInf None s) as [s'|s'|e s'].
    + destruct OE as (_ & N & _). discriminate N.
    + exists log, s'. split; [reflexivity|]. exact OE.
    + contradiction.
  - cbn [for_events].
    inversion TS as [|? ? TSr Hhd]; subst.
    inversion GE as [|? ? GEhd GEr]; subst.
    cbn [filter event_momentum snd] in PD.
    destruct (contains Meqb m ms) eqn:CM; cbn [negb].
    + (* the event is yielded *)
      cbn [event_time fst] in GEhd.
      assert (R : forall m', Some (k, m) = Some (REMOVE, m') ->
                remove_first Qeq_bool (m_velocity m') (velocities s) <> None).
      { intros m' [= -> <-]. cbn [pending] in PD.
        destruct (remove_first Meqb m active) as [a'|] eqn:RA; [|congruence].
        destruct (velocities_of_remove _ _ _ _ VO RA) as (vs' & RV & _).
        congruence. }
      pose proof (on_event_ok t0 time (Some (k, m)) s Inv GEhd R) as OE.
      destruct (on_event t0 time (Some (k, m)) s) as [s'|s'|e s'].
      * destruct OE as (Inv' & NU & NV & _ & more & YE).
        assert (GE' : Forall (fun e => le_until (since s')
                                (normalize (event_time e) t0) = true) rest).
        { rewrite Forall_forall in *. intros e He.
          apply (normalize_mono time); [apply Hhd, He | exact NU]. }
        assert (X : exists active',
                   velocities_of (velocities s') active'
                   /\ pending active'
                        (filter (fun e => contains Meqb (event_momentum e) ms) rest)
                      <> None).
        { rewrite NV. cbn [next_velocities pending] in *. destruct k.
          - exists (m :: active). split; [apply velocities_of_add, VO | exact PD].
          - destruct (remove_first Meqb m active) as [a'|] eqn:RA; [|congruence].
            destruct (velocities_of_remove _ _ _ _ VO RA) as (vs' & RV & VO').
            rewrite RV. exists a'. split; assumption. }
        destruct X as (active' & VO' & PD').
        destruct (IH (kept ++ [(time, k, m)]) (kept ++ (time, k, m) :: rest)
                    s' active' Inv' TSr GE')
          as (log' & s'' & FE & AS & more' & YE'); try assumption.
        { rewrite <- app_assoc. reflexivity. }
        { apply Forall_app. split; [assumption|]. constructor; [exact CM|constructor]. }
        exists log', s''. split; [exact FE|]. split; [exact AS|].
        exists (more ++ more'). rewrite YE', YE, app_assoc. reflexivity.
      * exists (kept ++ (time, k, m) :: rest), s'. split; [reflexivity|]. exact OE.
      * contradiction.
    + (* the event is stale *)
      rewrite (remove_first_skip Eeqb (time, k, m) kept (time, k, m) rest).
      * apply (IH kept (kept ++ rest) s active); try assumption. reflexivity.
      * intros z Hz. rewrite Forall_forall in KP. specialize (KP z Hz).
        destruct (Eeqb z (time, k, m)) eqn:E; [|reflexivity].
        apply Eeqb_momentum in E. cbn [event_momentum snd] in E.
        rewrite (contains_Meqb _ _ _ E) in KP. congruence.
      * apply Eeqb_refl.
Qed.

(** ** The lines of the limits *)

Lemma lines_of_number_bounded t0 v : well_bounded t0 (lines_of_number t0 v).
Proof.
  cbn. split; [split; reflexivity | lra].
Qed.

Lemma last_default {A} (l : list A) (a b : A) :
  l <> [] -> last l a = last l b.
Proof.
  induction l as [|x [|y r] IH]; intros N; [contradiction | reflexivity |].
  change (last (y :: r) a = last (y :: r) b). apply IH. discriminate.
Qed.

Lemma segments_chain (p0 : Vertex) : forall r p,
  increasing (p :: r) ->
  exists l rest,
    segments (p :: r)
    ++ [Horizon (TIME (last (p :: r) p0)) Forever (VALUE (last (p :: r) p0))]
    = l :: rest
    /\ chain l rest /\ Line.since l = TIME p.
Proof.
  induction r as [|q r IH]; intros p Hi.
  - eexists _, []. split; [reflexivity|]. split; [|reflexivity].
    split; reflexivity.
  - inversion Hi as [|? ? Hr Hp]; subst.
    destruct (IH q Hr) as (l' & rest' & E & CH & SL).
    change (segments (p :: q :: r))
      with (Segment (TIME p) (TIME q) (VALUE p) (VALUE q) :: segments (q :: r)).
    change (last (p :: q :: r) p0) with (last (q :: r) p0).
    cbn [app]. rewrite E.
    eexists _, _. split; [reflexivity|]. split; [|reflexivity].
    cbn [chain]. split; [|split].
    + unfold proper. cbn. apply Qltb_lt.
      inversion Hp; subst. assumption.
    + exists (TIME q). split; [reflexivity|]. rewrite SL. reflexivity.
    + exact CH.
Qed.

Lemma lines_of_determination_bounded t0 d :
  increasing d -> d <> [] ->
  exists lines,
    lines_of_determination t0 d = Ok lines /\ well_bounded t0 lines.
Proof.
  intros Hi N. destruct d as [|first r]; [contradiction|].
  unfold lines_of_determination.
  destruct (segments_chain first r first Hi) as (l & rest & E & CH & SL).
  rewrite E.
  destruct (Qltb t0 (TIME first)) eqn:LT.
  - eexists. split; [reflexivity|]. cbn [app well_bounded chain].
    split; [|cbn; lra]. split; [exact LT|]. split; [|exact CH].
    exists (TIME first). split; [reflexivity|]. rewrite SL. reflexivity.
  - eexists. split; [reflexivity|]. cbn [app well_bounded].
    split; [exact CH|]. rewrite SL. qb. exact LT.
Qed.

(** ** The start of the determiner *)

Lemma skip_past_ok t0 : forall rest l,
  chain l rest -> Line.since l <= t0 ->
  exists l' rest',
    Boundary.skip_past t0 l rest = Ok (mkBoundary l' rest')
    /\ chain l' rest' /\ Line.since l' <= t0.
Proof.
  induction rest as [|l1 r IH]; intros l CH L.
  - cbn [Boundary.skip_past]. destruct CH as [P E]. rewrite E. cbn.
    exists l, []. repeat split; [exact P | exact E | exact L].
  - cbn [Boundary.skip_past].
    destruct (until_le (Line.until l) t0) eqn:UL.
    + destruct CH as (P & (u & EU & SL) & CH').
      apply IH; [exact CH'|]. rewrite EU in UL. cbn in UL. qb. lra.
    + exists l, (l1 :: r). repeat split; try assumption; apply CH.
Qed.

Lemma start_ok b cl fl :
  well_bounded (TIME b) cl -> well_bounded (TIME b) fl ->
  exists s0,
    start b cl fl = Ok s0
    /\ invariant (At (TIME b)) s0
    /\ since s0 = TIME b /\ value s0 = VALUE b /\ velocity s0 = 0
    /\ velocities s0 = [] /\ yielded s0 = [].
Proof.
  intros WC WF. unfold start.
  destruct cl as [|lc rc]; [contradiction|].
  destruct fl as [|lf rf]; [contradiction|].
  destruct WC as [CC LC]. destruct WF as [CF LF].
  cbn [Boundary.walk bind line lines_iter].
  destruct (skip_past_ok (TIME b) rc lc CC LC) as (lc' & rc' & -> & CC' & LC').
  destruct (skip_past_ok (TIME b) rf lf CF LF) as (lf' & rf' & -> & CF' & LF').
  cbn [bind line].
  destruct (guess_total lc' (TIME b)) as [cv ->]. cbn [bind].
  destruct (Boundary.cmp Ceil cv (VALUE b)).
  - cbn [bind]. eexists. split; [reflexivity|].
    split; [|repeat split].
    unfold invariant, chained. cbn.
    repeat split; try assumption; try (apply Qle_bool_iff; assumption);
      try (apply Qle_bool_iff; lra); try discriminate; constructor.
  - destruct (guess_total lf' (TIME b)) as [fv ->]. cbn [bind].
    eexists. split; [reflexivity|].
    split; [|repeat split].
    unfold invariant, chained. cbn.
    repeat split; try assumption; try (apply Qle_bool_iff; assumption);
      try (apply Qle_bool_iff; lra); try discriminate; constructor.
Qed.

(** The first sentinel: the base is yielded. *)
Lemma on_event_first t0 s :
  since s = t0 ->
  on_event t0 (Fin t0) None s
  = Continue (move_and_yield (with_walked s true (walked_boundaries s)) t0
                (value s + velocity s * (t0 - t0))).
Proof.
  intros E. unfold on_event. cbn [normalize].
  assert (P : pymax t0 t0 = t0).
  { unfold pymax. destruct (Qltb t0 t0); reflexivity. }
  rewrite P.
  assert (W : forall fuel,
             while fuel (At t0) (with_walked s true (walked_boundaries s))
             = Done (with_walked s true (walked_boundaries s))).
  { intros fuel.
    assert (L : lt_until (since (with_walked s true (walked_boundaries s)))
                  (At t0) = false).
    { destruct s; cbn in *. subst. apply Qltb_ge. lra. }
    destruct fuel; cbn [while]; rewrite L; reflexivity. }
  rewrite W. destruct s; cbn in *. subst. reflexivity.
Qed.

(** ** The generator as a whole *)

Lemma determine_ok b ms evs cl fl :
  well_bounded (TIME b) cl -> well_bounded (TIME b) fl ->
  time_sorted evs -> balanced evs ->
  exists ys log v rest,
    determine b ms evs cl fl = (ys, None, log)
    /\ nondecreasing ys
    /\ ys = (TIME b, v) :: rest /\ v == VALUE b.
Proof.
  intros WC WF TS BA. unfold determine.
  destruct (start_ok b cl fl WC WF) as (s0 & -> & Inv0 & S0 & V0 & VL0 & VS0 & Y0).
  rewrite (on_event_first (TIME b) s0 S0).
  set (s1 := move_and_yield (with_walked s0 true (walked_boundaries s0)) (TIME b)
               (value s0 + velocity s0 * (TIME b - TIME b))).
  assert (Inv1 : invariant (At (since s1)) s1).
  { assert (R : forall m, @None (Method * Momentum) = Some (REMOVE, m) ->
                remove_first Qeq_bool (m_velocity m) (velocities s0) <> None)
      by (intros m E; discriminate E).
    assert (L : le_until (since s0) (normalize (Fin (TIME b)) (TIME b)) = true).
    { rewrite S0. apply normalize_ge. }
    rewrite <- S0 in Inv0.
    pose proof (on_event_ok (TIME b) (Fin (TIME b)) None s0 Inv0 L R) as OE.
    rewrite (on_event_first (TIME b) s0 S0) in OE. apply OE. }
  assert (S1 : since s1 = TIME b) by (subst s1; destruct s0; reflexivity).
  assert (Y1 : yielded s1 = [(TIME b, value s0 + velocity s0 * (TIME b - TIME b))]).
  { subst s1. destruct s0; cbn in *. subst. reflexivity. }
  assert (VS1 : velocities s1 = []).
  { subst s1. destruct s0; cbn in *. subst. reflexivity. }
  destruct (for_events_ok (TIME b) ms evs [] evs s1 [] Inv1 TS)
    as (log' & s' & FE & [AS _] & more & YE).
  - rewrite S1. apply Forall_forall. intros e _. apply normalize_ge.
  - reflexivity.
  - constructor.
  - rewrite VS1. intros q. reflexivity.
  - apply (pending_filter (fun m => contains Meqb m ms)) with (active := []);
      [|exact BA].
    intros x y E. apply contains_Meqb, E.
  - rewrite FE. exists (yielded s'), log'. eexists _, more.
    split; [reflexivity|]. split; [exact AS|].
    split; [rewrite YE, Y1; reflexivity|].
    rewrite V0, VL0. ring.
Qed.

(** ** Caching *)

Lemma cache_vertices_increasing : forall ys prev,
  nondecreasing ys ->
  (forall p, prev = Some p -> Forall (fun y => p <= TIME y) ys) ->
  increasing (cache_vertices prev ys)
  /\ (forall p, prev = Some p ->
                Forall (fun y => p < TIME y) (cache_vertices prev ys)).
Proof.
  induction ys as [|[t v] r IH]; intros prev S B.
  - split; [constructor | intros; constructor].
  - inversion S as [|? ? Sr Hr]; subst.
    cbn [cache_vertices].
    destruct prev as [p|].
    + specialize (B p eq_refl). inversion B as [|? ? Bt Br]; subst.
      cbn in Bt.
      destruct (Qeq_bool p t) eqn:E; qb.
      * apply IH; [exact Sr|]. intros p' [= <-]. exact Br.
      * destruct (IH (Some t) Sr) as [I1 I2].
        { intros p' [= <-]. exact Hr. }
        specialize (I2 t eq_refl).
        assert (LT : p < t) by lra.
        split.
        -- constructor; [exact I1|]. exact I2.
        -- intros p' [= <-]. constructor; [exact LT|].
           eapply Forall_impl; [|exact I2]. cbn. intros; lra.
    + destruct (IH (Some t) Sr) as [I1 I2].
      { intros p' [= <-]. exact Hr. }
      split; [|discriminate].
      constructor; [exact I1 | exact (I2 t eq_refl)].
Qed.

(** ** Reading a well-formed gauge *)

Lemma read_shaped : forall g,
  wf g ->
  exists d, fst (read g) = Ok d /\ shaped (base g) d
            /\ _determination (snd (read g)) = Some d.
Proof.
  fix IH 1. intros g W.
  destruct g as [b ms mx mn evs cached].
  cbn [wf] in W. destruct W as (KS & TS & BA & FR & WC & WX & WN).
  destruct cached as [d|].
  { exists d. split; [reflexivity|]. split; [exact WC | reflexivity]. }
  cbn [read base].
  assert (CL : exists cl mx',
             (let '(cl, mx') :=
                match mx with
                | Number v => (Ok (lines_of_number (TIME b) v), mx)
                | Bound gm =>
                    let '(r, gm') := read gm in
                    (bind r (fun d => lines_of_determination (TIME b) d), Bound gm')
                end in (cl, mx')) = (Ok cl, mx')
             /\ well_bounded (TIME b) cl).
  { destruct mx as [v|gm].
    - eexists _, _. split; [reflexivity | apply lines_of_number_bounded].
    - destruct (IH gm WX) as (dm & Rm & [Im (p & r & Em & _)] & _).
      destruct (read gm) as [rm gm']. cbn [fst] in Rm. subst rm.
      cbn [bind].
      destruct (lines_of_determination_bounded (TIME b) dm Im) as (cl & -> & WB).
      { rewrite Em. discriminate. }
      eexists _, _. split; [reflexivity | exact WB]. }
  assert (FL : exists fl mn',
             (let '(fl, mn') :=
                match mn with
                | Number v => (Ok (lines_of_number (TIME b) v), mn)
                | Bound gm =>
                    let '(r, gm') := read gm in
                    (bind r (fun d => lines_of_determination (TIME b) d), Bound gm')
                end in (fl, mn')) = (Ok fl, mn')
             /\ well_bounded (TIME b) fl).
  { destruct mn as [v|gm].
    - eexists _, _. split; [reflexivity | apply lines_of_number_bounded].
    - destruct (IH gm WN) as (dm & Rm & [Im (p & r & Em & _)] & _).
      destruct (read gm) as [rm gm']. cbn [fst] in Rm. subst rm.
      cbn [bind].
      destruct (lines_of_determination_bounded (TIME b) dm Im) as (fl & -> & WB).
      { rewrite Em. discriminate. }
      eexists _, _. split; [reflexivity | exact WB]. }
  destruct CL as (cl & mx' & ECL & WBC).
  destruct FL as (fl & mn' & EFL & WBF).
  match type of ECL with
  | (let '(_, _) := ?x in _) = _ => destruct x as [cl0 mx0]
  end.
  injection ECL as -> ->.
  match type of EFL with
  | (let '(_, _) := ?x in _) = _ => destruct x as [fl0 mn0]
  end.
  injection EFL as -> ->.
  destruct (determine_ok b ms evs cl fl WBC WBF TS BA)
    as (ys & log & v & rest & -> & ND & -> & EV).
  cbn [fst snd _determination].
  destruct (cache_vertices_increasing ((TIME b, v) :: rest) None ND)
    as [Inc _]; [discriminate|].
  eexists. split; [reflexivity|]. split; [|reflexivity].
  split; [exact Inc|].
  cbn [cache_vertices]. eexists _, _. split; [reflexivity|].
  split; [reflexivity | exact EV].
Qed.

(** * Well-formed gauges *)

(** ** The order of the log *)

Lemma Tleb_refl a : Tleb a a = true.
Proof. destruct a; cbn; try reflexivity. apply Qle_bool_iff. lra. Qed.

Lemma Tleb_trans a b c : Tleb a b = true -> Tleb b c = true -> Tleb a c = true.
Proof.
  destruct a, b, c; cbn; try discriminate; try reflexivity.
  intros; qb. apply Qle_bool_iff. lra.
Qed.

Lemma Tcompare_Lt a b : Tcompare a b = Lt -> Tltb a b = true.
Proof.
  unfold Tltb. destruct a as [|x|], b as [|y|]; cbn; try discriminate;
    try reflexivity.
  intros H. apply Qlt_alt in H. apply negb_true_iff, Qle_bool_gt, H.
Qed.

Lemma Tcompare_not_Lt a b : Tcompare a b <> Lt -> Tleb b a = true.
Proof.
  destruct a as [|x|], b as [|y|]; cbn; try reflexivity; try congruence.
  intros H. apply Qle_bool_iff.
  destruct (x ?= y) eqn:E; try congruence.
  - apply Qeq_alt in E. lra.
  - apply Qgt_alt in E. lra.
Qed.

Lemma Tcompare_le a b : Tcompare a b <> Gt -> Tleb a b = true.
Proof.
  destruct a as [|x|], b as [|y|]; cbn; try reflexivity; try congruence.
  intros H. apply Qle_bool_iff.
  destruct (x ?= y) eqn:E; try congruence.
  - apply Qeq_alt in E. lra.
  - apply Qlt_alt in E. lra.
Qed.

Lemma Tltb_Tcompare a b : Tltb a b = true -> Tcompare a b = Lt.
Proof.
  unfold Tltb. destruct a as [|x|], b as [|y|]; cbn; try discriminate;
    try reflexivity.
  intros H. apply negb_true_iff, Qle_bool_gt in H. apply Qlt_alt, H.
Qed.

Lemma Tltb_Tcompare_Gt a b : Tltb a b = true -> Tcompare b a = Gt.
Proof.
  unfold Tltb. destruct a as [|x|], b as [|y|]; cbn; try discriminate;
    try reflexivity.
  intros H. apply negb_true_iff, Qle_bool_gt in H. apply Qgt_alt, H.
Qed.

Lemma Tltb_Tleb_trans a b c :
  Tleb a b = true -> Tltb b c = true -> Tltb a c = true.
Proof.
  unfold Tltb. destruct a, b, c; cbn; try discriminate; try reflexivity.
  rewrite !negb_true_iff. intros; qb. apply Qle_bool_gt. lra.
Qed.

Lemma event_lt_time a b :
  event_lt a b = true -> Tleb (event_time a) (event_time b) = true.
Proof.
  destruct a as [[ta ka] ma], b as [[tb kb] mb].
  unfold event_lt, Ecompare, lex, event_time. cbn [fst].
  intros H. apply Tcompare_le. intros G. rewrite G in H. discriminate.
Qed.

Lemma event_not_lt_time a b :
  event_lt a b = false -> Tleb (event_time b) (event_time a) = true.
Proof.
  destruct a as [[ta ka] ma], b as [[tb kb] mb].
  unfold event_lt, Ecompare, lex, event_time. cbn [fst].
  intros H. apply Tcompare_not_Lt. intros G. rewrite G in H. discriminate.
Qed.

Lemma event_later_not_lt a b :
  Tltb (event_time b) (event_time a) = true -> event_lt a b = false.
Proof.
  destruct a as [[ta ka] ma], b as [[tb kb] mb].
  unfold event_lt, Ecompare, lex, event_time. cbn [fst].
  intros H. rewrite (Tltb_Tcompare_Gt _ _ H). reflexivity.
Qed.

(** ** Insertion *)

Lemma insort_split {A} (lt : A -> A -> bool) x l :
  exists l1 l2,
    l = l1 ++ l2 /\ insort lt x l = l1 ++ x :: l2
    /\ (forall y, In y l1 -> lt x y = false).
Proof.
  induction l as [|y r IH].
  - exists [], []. repeat split. intros y [].
  - cbn [insort]. destruct (lt x y) eqn:E.
    + exists [], (y :: r). repeat split. intros z [].
    + destruct IH as (l1 & l2 & -> & -> & N).
      exists (y :: l1), l2. repeat split.
      intros z [<-|Hz]; [exact E | apply N, Hz].
Qed.

Lemma insort_skip {A} (lt : A -> A -> bool) x l1 l2 :
  (forall y, In y l1 -> lt x y = false) ->
  insort lt x (l1 ++ l2) = l1 ++ insort lt x l2.
Proof.
  intros N. induction l1 as [|y r IH]; [reflexivity|].
  cbn [app insort]. rewrite (N y (or_introl eq_refl)), IH; [reflexivity|].
  intros z Hz. apply N. right. exact Hz.
Qed.

Lemma time_sorted_insert e evs :
  time_sorted evs -> time_sorted (events_add e evs).
Proof.
  unfold events_add. fold event_lt.
  induction 1 as [|y r Sr IH Hy]; cbn [insort].
  - repeat constructor.
  - destruct (event_lt e y) eqn:E.
    + constructor; [constructor; assumption|].
      apply event_lt_time in E.
      constructor; [exact E|].
      eapply Forall_impl; [|exact Hy]. cbn. intros z Hz.
      eapply Tleb_trans; eassumption.
    + constructor; [exact IH|].
      apply event_not_lt_time in E.
      destruct (insort_split event_lt e r) as (l1 & l2 & -> & -> & _).
      apply Forall_app in Hy as [H1 H2].
      apply Forall_app. split; [exact H1|]. constructor; assumption.
Qed.

(** ** Momenta in effect, counted *)

Lemma copies_cons x y l :
  copies x (y :: l) = (flag (Meqb y x) + copies x l)%nat.
Proof. unfold copies. cbn. destruct (Meqb y x); reflexivity. Qed.

Lemma copies_app x l1 l2 :
  copies x (l1 ++ l2) = (copies x l1 + copies x l2)%nat.
Proof. unfold copies. rewrite filter_app, length_app. reflexivity. Qed.

Lemma Meqb_same_class y z m x :
  Meqb y m = true -> Meqb z m = true -> Meqb y x = Meqb z x.
Proof.
  intros Hy Hz.
  assert (YZ : Meqb y z = true).
  { eapply Meqb_trans; [exact Hy|]. rewrite Meqb_sym. exact Hz. }
  destruct (Meqb y x) eqn:A, (Meqb z x) eqn:B; try reflexivity.
  - rewrite Meqb_sym in YZ. rewrite (Meqb_trans _ _ _ YZ A) in B. discriminate.
  - rewrite (Meqb_trans _ _ _ YZ B) in A. discriminate.
Qed.

Lemma copies_none m l : remove_first Meqb m l = None -> copies m l = 0%nat.
Proof.
  intros R. pose proof (remove_first_split Meqb m l) as S. rewrite R in S.
  unfold contains in S. unfold copies.
  induction l as [|y r IH]; [reflexivity|].
  cbn in S |- *. apply orb_false_iff in S as [S1 S2]. rewrite S1.
  apply IH; [|exact S2].
  cbn [remove_first] in R. rewrite S1 in R.
  destruct (remove_first Meqb m r); [discriminate | reflexivity].
Qed.

(** Momenta in effect that are there in addition do not disturb the
    events. *)
Lemma pending_shift (d : Momentum -> nat) : forall evs a b a',
  (forall x, copies x b = (copies x a + d x)%nat) ->
  pending a evs = Some a' ->
  exists b', pending b evs = Some b'
             /\ forall x, copies x b' = (copies x a' + d x)%nat.
Proof.
  induction evs as [|[[t k] m] rest IH]; intros a b a' H P.
  - injection P as <-. exists b. split; [reflexivity | exact H].
  - cbn [pending] in *. destruct k.
    + apply (IH (m :: a)); [|exact P].
      intros x. rewrite !copies_cons, H. lia.
    + pose proof (remove_first_split Meqb m a) as Sa.
      destruct (remove_first Meqb m a) as [a1|]; [|discriminate].
      destruct Sa as (p1 & y & p2 & -> & Ey & _ & ->).
      pose proof (remove_first_split Meqb m b) as Sb.
      destruct (remove_first Meqb m b) as [b1|] eqn:Rb.
      * destruct Sb as (q1 & z & q2 & -> & Ez & _ & ->).
        apply (IH (p1 ++ p2)); [|exact P].
        intros x. specialize (H x).
        rewrite !copies_app, !copies_cons in H. rewrite !copies_app.
        rewrite (Meqb_same_class y z m x Ey Ez) in H. lia.
      * exfalso. apply copies_none in Rb. specialize (H m).
        rewrite Rb, copies_app, copies_cons, Ey in H. cbn [flag] in H. lia.
Qed.

Lemma pending_app a evs1 evs2 :
  pending a (evs1 ++ evs2)
  = match pending a evs1 with
    | Some a1 => pending a1 evs2
    | None => None
    end.
Proof.
  revert a. induction evs1 as [|[[t k] m] rest IH]; intros a; [reflexivity|].
  cbn [app pending]. destruct k; [apply IH|].
  destruct (remove_first Meqb m a); [apply IH | reflexivity].
Qed.

(** An [ADD] entry may be inserted anywhere. *)
Lemma balanced_insert_add t m evs1 evs2 a :
  pending a (evs1 ++ evs2) <> None ->
  pending a (evs1 ++ (t, ADD, m) :: evs2) <> None.
Proof.
  rewrite !pending_app. destruct (pending a evs1) as [a1|]; [|auto].
  cbn [pending]. intros H.
  destruct (pending a1 evs2) as [a2|] eqn:P; [|congruence].
  destruct (pending_shift (fun x => flag (Meqb m x)) evs2 a1 (m :: a1) a2)
    as (b' & -> & _); [|exact P|discriminate].
  intros x. rewrite copies_cons. lia.
Qed.

(** An [ADD] entry and, later, a [REMOVE] entry of the same momentum may
    be inserted. *)
Lemma balanced_insert_pair t t' m evs1 evs2 evs3 a :
  pending a (evs1 ++ evs2 ++ evs3) <> None ->
  pending a (evs1 ++ (t, ADD, m) :: evs2 ++ (t', REMOVE, m) :: evs3) <> None.
Proof.
  rewrite !pending_app. destruct (pending a evs1) as [a1|]; [|auto].
  cbn [pending]. rewrite !pending_app.
  destruct (pending a1 evs2) as [a2|] eqn:P; [|auto].
  destruct (pending_shift (fun x => flag (Meqb m x)) evs2 a1 (m :: a1) a2)
    as (b2 & -> & H2); [|exact P|].
  { intros x. rewrite copies_cons. lia. }
  cbn [pending]. intros H.
  pose proof (remove_first_split Meqb m b2) as S.
  destruct (remove_first Meqb m b2) as [b3|] eqn:R.
  - destruct S as (q1 & z & q2 & -> & Ez & _ & ->).
    destruct (pending a2 evs3) as [a3|] eqn:P3; [|congruence].
    destruct (pending_shift (fun _ => 0%nat) evs3 a2 (q1 ++ q2) a3)
      as (b' & -> & _); [|exact P3|discriminate].
    intros x. specialize (H2 x).
    rewrite copies_app, copies_cons in H2. rewrite copies_app.
    rewrite (Meqb_same_class z m m x Ez (Meqb_refl m)) in H2. lia.
  - apply copies_none in R. specialize (H2 m).
    rewrite R, Meqb_refl in H2. cbn [flag] in H2. lia.
Qed.

(** ** The methods keep gauges well formed *)

Lemma key_sorted_insert m ms : key_sorted ms -> key_sorted (momenta_add m ms).
Proof.
  unfold momenta_add.
  induction 1 as [|y r Sr IH Hy]; cbn [insort].
  - repeat constructor.
  - destruct (key_lt m y) eqn:E; unfold key_lt, Tltb in E.
    + constructor; [constructor; assumption|].
      apply negb_true_iff in E.
      assert (L : Tleb (m_until m) (m_until y) = true).
      { destruct (m_until m), (m_until y); cbn in *; try congruence.
        qb. apply Qle_bool_iff. lra. }
      constructor; [exact L|].
      eapply Forall_impl; [|exact Hy]. cbn. intros z Hz.
      eapply Tleb_trans; eassumption.
    + constructor; [exact IH|].
      apply negb_false_iff in E.
      destruct (insort_split key_lt m r) as (l1 & l2 & -> & -> & _).
      apply Forall_app in Hy as [H1 H2].
      apply Forall_app. split; [exact H1|]. constructor; assumption.
Qed.

Lemma key_sorted_remove l1 x l2 :
  key_sorted (l1 ++ x :: l2) -> key_sorted (l1 ++ l2).
Proof.
  unfold key_sorted. induction l1 as [|y r IH]; cbn [app]; intros S.
  - inversion S; assumption.
  - inversion S as [|? ? Sr Hy]; subst. constructor; [apply IH, Sr|].
    apply Forall_app in Hy as [H1 H2]. inversion H2; subst.
    apply Forall_app. split; assumption.
Qed.

Lemma key_sorted_filter P ms : key_sorted ms -> key_sorted (filter P ms).
Proof.
  unfold key_sorted. induction 1 as [|y r Sr IH Hy]; cbn [filter].
  - constructor.
  - destruct (P y); [|exact IH]. constructor; [exact IH|].
    clear - Hy. induction r as [|x r IH]; [constructor|].
    inversion Hy; subst. cbn [filter]. destruct (P x); [constructor|]; auto.
Qed.

Lemma wf_new_gauge v mx mn t :
  match mx with Number _ => True | Bound l => wf l end ->
  match mn with Number _ => True | Bound l => wf l end ->
  wf (new_gauge v mx mn t).
Proof.
  intros X N. cbn [new_gauge wf].
  repeat split; try assumption; [constructor | constructor | discriminate | constructor].
Qed.

Lemma wf_fields g :
  wf g <->
  key_sorted (momenta g)
  /\ time_sorted (_events g) /\ balanced (_events g)
  /\ Forall removal_finite (_events g)
  /\ match _determination g with Some d => shaped (base g) d | None => True end
  /\ match _max g with Number _ => True | Bound l => wf l end
  /\ match _min g with Number _ => True | Bound l => wf l end.
Proof. destruct g; reflexivity. Qed.

Lemma begins_before_end_valid m : begins_before_end m -> valid_momentum m = true.
Proof.
  unfold begins_before_end, valid_momentum. intros ->.
  apply orb_true_r.
Qed.

Lemma balanced_add_momentum m evs :
  begins_before_end m ->
  balanced evs ->
  balanced
    (let es := events_add (m_since m, ADD, m) evs in
     if Teqb (m_until m) PInf then es
     else events_add (m_until m, REMOVE, m) es).
Proof.
  intros V B. unfold balanced, events_add in *. fold event_lt. cbv zeta.
  destruct (insort_split event_lt (m_since m, ADD, m) evs)
    as (l1 & l2 & -> & -> & N1).
  destruct (Teqb (m_until m) PInf).
  - apply balanced_insert_add, B.
  - rewrite (insort_skip event_lt (m_until m, REMOVE, m) l1).
    + cbn [insort].
      assert (E : event_lt (m_until m, REMOVE, m) (m_since m, ADD, m) = false).
      { apply event_later_not_lt. exact V. }
      rewrite E.
      destruct (insort_split event_lt (m_until m, REMOVE, m) l2)
        as (l2a & l2b & -> & -> & _).
      apply balanced_insert_pair, B.
    + intros y Hy. apply event_later_not_lt. cbn [event_time fst].
      eapply Tltb_Tleb_trans; [|exact V].
      apply (event_not_lt_time (m_since m, ADD, m) y), N1, Hy.
Qed.

Lemma removal_finite_insert e evs :
  removal_finite e -> Forall removal_finite evs ->
  Forall removal_finite (events_add e evs).
Proof.
  intros He H. unfold events_add.
  destruct (insort_split (fun a b => is_Lt (Ecompare a b)) e evs)
    as (l1 & l2 & -> & -> & _).
  apply Forall_app in H as [H1 H2].
  apply Forall_app. split; [exact H1 | constructor; assumption].
Qed.

Lemma wf_add_momentum m g :
  begins_before_end m -> wf g ->
  fst (add_momentum m g) = Ok m /\ wf (snd (add_momentum m g)).
Proof.
  intros V W. unfold add_momentum, _make_momentum.
  rewrite (begins_before_end_valid m V). cbn [fst snd].
  split; [reflexivity|].
  apply wf_fields in W as (KS & TS & BA & FR & _ & WX & WN).
  apply wf_fields. cbn [_events _determination _max _min base momenta].
  split; [|split; [|split; [|split; [|split; [exact I | split; assumption]]]]].
  - apply key_sorted_insert, KS.
  - destruct (Teqb (m_until m) PInf); repeat apply time_sorted_insert; exact TS.
  - apply (balanced_add_momentum m (_events g) V BA).
  - assert (A : Forall removal_finite
                  (events_add (m_since m, ADD, m) (_events g))).
    { apply removal_finite_insert; [|exact FR].
      cbn. destruct (m_since m); exact I. }
    destruct (Teqb (m_until m) PInf) eqn:E; [exact A|].
    apply removal_finite_insert; [|exact A].
    cbn. destruct (m_until m); try exact I. discriminate E.
Qed.

Lemma wf_remove_momentum m g : wf g -> wf (snd (remove_momentum m g)).
Proof.
  intros W. unfold remove_momentum.
  destruct (_make_momentum m) as [m'|]; [|exact W].
  pose proof (remove_first_split Meqb m' (momenta g)) as S.
  destruct (remove_first Meqb _ _); [|exact W].
  destruct S as (l1 & x & l2 & E & _ & _ & ->).
  apply wf_fields in W as (KS & TS & BA & FR & _ & WX & WN).
  apply wf_fields. cbn. repeat split; try assumption.
  rewrite E in KS. apply (key_sorted_remove _ _ _ KS).
Qed.

Lemma wf_rebase v t g : wf g -> wf (snd (forget_past (Some v) t g)).
Proof.
  intros W. apply wf_fields in W as (KS & TS & BA & FR & _ & WX & WN).
  apply wf_fields. cbn. repeat split; try assumption.
  rewrite (forget_past_slice t _ KS). apply key_sorted_filter, KS.
Qed.

Lemma wf_invalidate g : wf g -> wf (invalidate g).
Proof.
  intros W. apply wf_fields in W as (KS & TS & BA & FR & _ & WX & WN).
  apply wf_fields. cbn. repeat split; assumption.
Qed.


(** C3: the determination of a well-formed gauge (a log in time order in
    which every removal follows its addition, limits that are numbers or
    well-formed gauges) exists, it is what a read leaves in the cache,
    its times increase strictly, and its first vertex is the base point,
    whatever the base value. *)
Theorem determination_increasing_from_base (g : Gauge) :
  wf g ->
  exists d,
    determination g = Ok d
    /\ _determination (snd (read g)) = Some d
    /\ increasing d
    /\ exists p rest,
         d = p :: rest
         /\ TIME p == TIME (base g) /\ VALUE p == VALUE (base g).
Proof.
  intros W.
  destruct (read_shaped g W) as (d & R & [Inc (p & rest & E & V)] & C).
  exists d. repeat split; try assumption.
  exists p, rest. split; [exact E | exact V].
Qed.

Lemma determination_increasing_from_base_witness :
  exists d,
    determination scenario_E = Ok d
    /\ _determination (snd (read scenario_E)) = Some d
    /\ increasing d
    /\ exists p rest,
         d = p :: rest
         /\ TIME p == TIME (base scenario_E)
         /\ VALUE p == VALUE (base scenario_E).
Proof.
  apply (determination_increasing_from_base scenario_E).
  vm_compute. repeat split; try discriminate; repeat constructor.
Defined.

(** ** What a read leaves in the log *)

Lemma on_event_break t0 time method s s' :
  on_event t0 time method s = Break s' -> time = PInf.
Proof.
  unfold on_event. destruct (while _ _ _); [|discriminate].
  destruct time as [|x|]; cbn [normalize]; [| |reflexivity].
  - destruct method as [[[|] m]|]; try discriminate.
    destruct (remove_first _ _ _); discriminate.
  - destruct method as [[[|] m]|]; try discriminate.
    destruct (remove_first _ _ _); discriminate.
Qed.

(** The log after the loop: the stale entries are gone from the part of
    the snapshot that was visited; a part that was not visited begins
    with an event at [+inf]. *)
Lemma for_events_log (t0 : Q) (ms : list Momentum) :
  forall snapshot kept s log' s',
    Forall (fun e => contains Meqb (event_momentum e) ms = true) kept ->
    for_events t0 ms snapshot (kept ++ snapshot) s = (log', Done s') ->
    exists visited unvisited,
      snapshot = visited ++ unvisited
      /\ log' = kept
                ++ filter (fun e => contains Meqb (event_momentum e) ms) visited
                ++ unvisited
      /\ match unvisited with
         | [] => True
         | e :: _ => event_time e = PInf
         end.
Proof.
  induction snapshot as [|[[time k] m] rest IH]; intros kept s log' s' KP.
  - cbn [for_events]. destruct (on_event _ _ _ _); intros [= <- <-].
    + exists [], []. repeat split.
    + exists [], []. repeat split.
  - cbn [for_events].
    destruct (contains Meqb m ms) eqn:CM; cbn [negb].
    + destruct (on_event t0 time (Some (k, m)) s) as [s1|s1|e s1] eqn:OE.
      * intros FE.
        change ((time, k, m) :: rest) with ([(time, k, m)] ++ rest) in FE.
        rewrite app_assoc in FE.
        apply IH in FE.
        -- destruct FE as (vis & unv & -> & -> & H).
           exists ((time, k, m) :: vis), unv.
           split; [reflexivity|]. split; [|exact H].
           cbn [filter event_momentum snd]. rewrite CM.
           rewrite <- !app_assoc. reflexivity.
        -- apply Forall_app. split; [exact KP|].
           constructor; [exact CM | constructor].
      * intros [= <- <-]. apply on_event_break in OE. subst time.
        exists [], ((PInf, k, m) :: rest). repeat split.
      * discriminate.
    + rewrite (remove_first_skip Eeqb (time, k, m) kept (time, k, m) rest).
      * intros FE. apply IH in FE; [|exact KP].
        destruct FE as (vis & unv & -> & -> & H).
        exists ((time, k, m) :: vis), unv.
        split; [reflexivity|]. split; [|exact H].
        cbn [filter event_momentum snd]. rewrite CM. reflexivity.
      * intros z Hz. rewrite Forall_forall in KP. specialize (KP z Hz).
        destruct (Eeqb z (time, k, m)) eqn:E; [|reflexivity].
        apply Eeqb_momentum in E. cbn [event_momentum snd] in E.
        rewrite (contains_Meqb _ _ _ E) in KP. congruence.
      * apply Eeqb_refl.
Qed.

Lemma determine_log b ms evs cl fl ys log :
  determine b ms evs cl fl = (ys, None, log) ->
  exists visited unvisited,
    evs = visited ++ unvisited
    /\ log = filter (fun e => contains Meqb (event_momentum e) ms) visited
             ++ unvisited
    /\ match unvisited with
       | [] => True
       | e :: _ => event_time e = PInf
       end.
Proof.
  unfold determine. destruct (start b cl fl) as [s0|e]; [|discriminate].
  destruct (on_event _ _ _ s0) as [s1|s1|e s1] eqn:OE.
  - destruct (for_events _ _ _ _ _) as [log0 [s'|e s']] eqn:FE; [|discriminate].
    intros [= <- <-].
    apply (for_events_log (TIME b) ms evs [] s1 log0 s'); [constructor|].
    exact FE.
  - apply on_event_break in OE. discriminate.
  - discriminate.
Qed.

Lemma Tleb_PInf t : Tleb PInf t = true -> t = PInf.
Proof. destruct t; cbn; congruence. Qed.

Lemma time_sorted_pruned P visited unvisited :
  time_sorted (visited ++ unvisited) ->
  time_sorted (filter P visited ++ unvisited).
Proof.
  induction visited as [|e r IH]; intros S; [exact S|].
  inversion S as [|? ? Sr He]; subst. cbn [filter].
  destruct (P e); [|apply IH, Sr].
  cbn [app]. constructor; [apply IH, Sr|].
  apply Forall_app in He as [H1 H2]. apply Forall_app. split; [|exact H2].
  clear - H1. induction r as [|x r IH]; [constructor|].
  inversion H1; subst. cbn [filter].
  destruct (P x); [constructor|]; auto.
Qed.

Lemma pending_adds : forall evs a,
  Forall (fun e => snd (fst e) = ADD) evs -> pending a evs <> None.
Proof.
  induction evs as [|[[t k] m] r IH]; intros a F; [discriminate|].
  inversion F as [|? ? Hk Fr]; subst. cbn in Hk. subst k.
  cbn [pending]. apply IH, Fr.
Qed.

Lemma log_pruned ms visited unvisited :
  time_sorted (visited ++ unvisited) ->
  balanced (visited ++ unvisited) ->
  Forall removal_finite (visited ++ unvisited) ->
  match unvisited with [] => True | e :: _ => event_time e = PInf end ->
  let log := filter (fun e => contains Meqb (event_momentum e) ms) visited
             ++ unvisited in
  time_sorted log /\ balanced log /\ Forall removal_finite log.
Proof.
  intros TS BA FR HU. cbv zeta. split; [|split].
  - apply time_sorted_pruned, TS.
  - unfold balanced in *. rewrite pending_app in *.
    destruct (pending [] visited) as [a|] eqn:PV; [|congruence].
    assert (PF : pending (filter (fun m => contains Meqb m ms) [])
                   (filter (fun e => contains Meqb (event_momentum e) ms) visited)
                 <> None).
    { apply pending_filter; [|congruence].
      intros x y E. apply contains_Meqb, E. }
    cbn [filter] in PF.
    destruct (pending [] (filter _ visited)) as [a'|]; [|congruence].
    apply pending_adds.
    (* the unvisited events are all at [+inf], so none is a removal *)
    apply Forall_app in FR as [_ FU].
    destruct unvisited as [|e r]; [constructor|].
    assert (A : Forall (fun x => event_time x = PInf) (e :: r)).
    { constructor; [exact HU|].
      clear - TS HU. induction visited as [|x v IH].
      - inversion TS as [|? ? _ He]; subst.
        eapply Forall_impl; [|exact He]. cbn. intros y Hy.
        rewrite HU in Hy. apply Tleb_PInf, Hy.
      - inversion TS; subst. auto. }
    clear - A FU. induction (e :: r) as [|[[t k] m] l IH]; [constructor|].
    inversion A as [|? ? At Al]; subst. inversion FU as [|? ? Ft Fl]; subst.
    constructor; [|auto].
    cbn in At. subst t. cbn in Ft |- *. destruct k; [reflexivity|contradiction].
  - apply Forall_app in FR as [FV FU]. apply Forall_app. split; [|exact FU].
    clear - FV. induction visited as [|x v IH]; [constructor|].
    inversion FV; subst. cbn [filter].
    destruct (contains _ _ _); [constructor|]; auto.
Qed.

(** A read keeps the gauge well formed. *)
Lemma read_wf : forall g, wf g -> wf (snd (read g)).
Proof.
  fix IH 1. intros g W.
  destruct g as [b ms mx mn evs cached].
  pose proof W as W0.
  cbn [wf] in W. destruct W as (KS & TS & BA & FR & WC & WX & WN).
  destruct cached as [d|]; [exact W0|].
  cbn [read].
  assert (CL : exists cl mx',
             (let '(cl, mx') :=
                match mx with
                | Number v => (Ok (lines_of_number (TIME b) v), mx)
                | Bound gm =>
                    let '(r, gm') := read gm in
                    (bind r (fun d => lines_of_determination (TIME b) d), Bound gm')
                end in (cl, mx')) = (Ok cl, mx')
             /\ well_bounded (TIME b) cl
             /\ match mx' with Number _ => True | Bound l => wf l end).
  { destruct mx as [v|gm].
    - eexists _, _. split; [reflexivity|].
      split; [apply lines_of_number_bounded | exact I].
    - destruct (read_shaped gm WX) as (dm & Rm & [Im (p & r & Em & _)] & _).
      pose proof (IH gm WX) as Wm.
      destruct (read gm) as [rm gm']. cbn [fst snd] in Rm, Wm. subst rm.
      cbn [bind].
      destruct (lines_of_determination_bounded (TIME b) dm Im) as (cl & -> & WB).
      { rewrite Em. discriminate. }
      eexists _, _. split; [reflexivity|]. split; [exact WB | exact Wm]. }
  assert (FL : exists fl mn',
             (let '(fl, mn') :=
                match mn with
                | Number v => (Ok (lines_of_number (TIME b) v), mn)
                | Bound gm =>
                    let '(r, gm') := read gm in
                    (bind r (fun d => lines_of_determination (TIME b) d), Bound gm')
                end in (fl, mn')) = (Ok fl, mn')
             /\ well_bounded (TIME b) fl
             /\ match mn' with Number _ => True | Bound l => wf l end).
  { destruct mn as [v|gm].
    - eexists _, _. split; [reflexivity|].
      split; [apply lines_of_number_bounded | exact I].
    - destruct (read_shaped gm WN) as (dm & Rm & [Im (p & r & Em & _)] & _).
      pose proof (IH gm WN) as Wm.
      destruct (read gm) as [rm gm']. cbn [fst snd] in Rm, Wm. subst rm.
      cbn [bind].
      destruct (lines_of_determination_bounded (TIME b) dm Im) as (fl & -> & WB).
      { rewrite Em. discriminate. }
      eexists _, _. split; [reflexivity|]. split; [exact WB | exact Wm]. }
  destruct CL as (cl & mx' & ECL & WBC & WX').
  destruct FL as (fl & mn' & EFL & WBF & WN').
  match type of ECL with
  | (let '(_, _) := ?x in _) = _ => destruct x as [cl0 mx0]
  end.
  injection ECL as -> ->.
  match type of EFL with
  | (let '(_, _) := ?x in _) = _ => destruct x as [fl0 mn0]
  end.
  injection EFL as -> ->.
  destruct (determine_ok b ms evs cl fl WBC WBF TS BA)
    as (ys & log & v & rest & D & ND & -> & EV).
  rewrite D. cbn [snd wf].
  destruct (determine_log _ _ _ _ _ _ _ D) as (vis & unv & -> & -> & HU).
  destruct (log_pruned ms vis unv TS BA FR HU) as (TS' & BA' & FR').
  destruct (cache_vertices_increasing ((TIME b, v) :: rest) None ND)
    as [Inc _]; [discriminate|].
  repeat split; try assumption.
  cbn [cache_vertices]. eexists _, _. split; [reflexivity|].
  split; [reflexivity | exact EV].
Qed.

(** ** Reads of a well-formed gauge succeed *)

Lemma bisect_left_spec : forall d t,
  increasing d ->
  match bisect_left d t with
  | O => match d with [] => True | p :: _ => t <= TIME p end
  | S x' =>
      (exists p, nth_error d x' = Some p /\ TIME p < t)
      /\ match nth_error d (S x') with
         | Some q => t <= TIME q
         | None => True
         end
  end.
Proof.
  induction d as [|p r IH]; intros t Hi; [exact I|].
  inversion Hi as [|? ? Hr Hp]; subst.
  cbn [bisect_left]. destruct (Qltb (TIME p) t) eqn:E; qb; [|exact E].
  specialize (IH t Hr).
  destruct (bisect_left r t) as [|x'].
  - split; [exists p; split; [reflexivity | exact E]|].
    cbn [nth_error]. destruct r; [exact I | exact IH].
  - destruct IH as [(q & Hq & Lq) IH2]. split.
    + exists q. split; assumption.
    + exact IH2.
Qed.

Lemma value_and_velocity_total d t :
  increasing d -> d <> [] ->
  exists p, value_and_velocity_in d t = Ok p.
Proof.
  intros Hi N. unfold value_and_velocity_in.
  destruct d as [|first r]; [contradiction|].
  destruct (Nat.eqb (length (first :: r)) 1); [eauto|].
  pose proof (bisect_left_spec (first :: r) t Hi) as B.
  destruct (bisect_left (first :: r) t) as [|x']; [eauto|].
  destruct B as [(p & Hp & Lp) B2].
  destruct (nth_error (first :: r) (S x')) as [[until final]|] eqn:E2; [|eauto].
  rewrite Hp. destruct p as [since value]. cbn [TIME fst] in *.
  (* the two neighbours are in order *)
  assert (LT : since < until).
  { clear - Hi Hp E2. revert x' Hp E2.
    induction Hi as [|a l Hl IHl Ha]; intros x' Hp E2; [destruct x'; discriminate|].
    destruct x' as [|x'].
    - cbn [nth_error] in Hp. injection Hp as ->.
      change (nth_error l 0 = Some (until, final)) in E2.
      apply nth_error_In in E2.
      rewrite Forall_forall in Ha. apply (Ha _ E2).
    - change (nth_error l x' = Some (since, value)) in Hp.
      change (nth_error l (S x') = Some (until, final)) in E2.
      eapply IHl; eassumption. }
  unfold Line.get, Line.velocity. cbn [Line.since Line.until le_until].
  assert (A : Qle_bool since t = true) by (apply Qle_bool_iff; lra).
  assert (B : Qle_bool t until = true) by (apply Qle_bool_iff; exact B2).
  assert (C : Qeq_bool (until - since) 0 = false) by (apply Qeq_bool_false; lra).
  rewrite A, B, C. cbn [andb bind]. eauto.
Qed.

Lemma get_wf t g :
  wf g -> (exists v, fst (get t g) = Ok v) /\ wf (snd (get t g)).
Proof.
  intros W. unfold get, _value_and_velocity.
  destruct (read_shaped g W) as (d & R & [Inc (p & rest & E & _)] & _).
  pose proof (read_wf g W) as W'.
  destruct (read g) as [r g']. cbn [fst snd] in *. subst r. cbn [bind].
  split; [|exact W'].
  destruct (value_and_velocity_total d t Inc) as [[v vel] ->].
  { rewrite E. discriminate. }
  cbn [bind fst]. eauto.
Qed.

Lemma get_max_wf t g :
  wf g -> (exists v, fst (get_max t g) = Ok v) /\ wf (snd (get_max t g)).
Proof.
  intros W. unfold get_max.
  pose proof W as W0. apply wf_fields in W as (KS & TS & BA & FR & WC & WX & WN).
  destruct (_max g) as [v|l] eqn:E;
    [split; [exists v; reflexivity | exact W0]|].
  destruct (get_wf t l WX) as [[v Hv] Wl].
  destruct (get t l) as [r l']. cbn [fst snd] in *. subst r.
  split; [eauto|].
  apply wf_fields. destruct g; cbn in *. repeat split; assumption.
Qed.

Lemma get_min_wf t g :
  wf g -> (exists v, fst (get_min t g) = Ok v) /\ wf (snd (get_min t g)).
Proof.
  intros W. unfold get_min.
  pose proof W as W0. apply wf_fields in W as (KS & TS & BA & FR & WC & WX & WN).
  destruct (_min g) as [v|l] eqn:E;
    [split; [exists v; reflexivity | exact W0]|].
  destruct (get_wf t l WN) as [[v Hv] Wl].
  destruct (get t l) as [r l']. cbn [fst snd] in *. subst r.
  split; [eauto|].
  apply wf_fields. destruct g; cbn in *. repeat split; assumption.
Qed.

(** The three reads of [incr] succeed on a well-formed gauge. *)
Lemma reads_wf t g :
  wf g ->
  exists v M m,
    fst (get t g) = Ok v
    /\ fst (get_max t (snd (get t g))) = Ok M
    /\ fst (get_min t (snd (get_max t (snd (get t g))))) = Ok m
    /\ wf (snd (get_min t (snd (get_max t (snd (get t g)))))).
Proof.
  intros W.
  destruct (get_wf t g W) as [[v Hv] W1].
  destruct (get_max_wf t _ W1) as [[M HM] W2].
  destruct (get_min_wf t _ W2) as [[m Hm] W3].
  exists v, M, m. repeat split; assumption.
Qed.

(** ** The edge of well-formedness *)

(** A momentum from [-inf] to [-inf] passes the check of
    [_make_momentum] although it does not begin before it ends; its
    [REMOVE] entry sorts before its [ADD] entry and the determiner
    fails in [velocities.remove]. *)
Lemma momentum_at_minus_infinity :
  let m := momentum 1 NInf NInf in
  let r := add_momentum m (new_gauge 0 (Number 10) (Number 0) 0) in
  fst r = Ok m
  /\ _events (snd r) = [(NInf, REMOVE, m); (NInf, ADD, m)]
  /\ determination (snd r) = Raise NotInList.
Proof. cbv zeta. repeat split; vm_compute; reflexivity. Qed.

Lemma wf_incr delta over clamp t g :
  wf g -> wf (snd (incr delta over clamp t g)).
Proof.
  intros W.
  destruct (reads_wf t g W) as (v & M & m & Hget & Hmax & Hmin & W3).
  rewrite (incr_reads g t v M m Hget Hmax Hmin). cbv zeta.
  destruct over; [apply wf_rebase, W3|].
  destruct clamp; [apply wf_rebase, W3|].
  destruct (_ && _); [exact W3|].
  destruct (_ && _); [exact W3|].
  apply wf_rebase, W3.
Qed.

(** ** Adding and removing a momentum that the gauge does not hold *)

Lemma for_events_yielded (t0 : Q) (ms : list Momentum) :
  forall snapshot kept s,
    Forall (fun e => contains Meqb (event_momentum e) ms = true) kept ->
    snd (for_events t0 ms snapshot (kept ++ snapshot) s)
    = for_yielded t0
        (filter (fun e => contains Meqb (event_momentum e) ms) snapshot) s.
Proof.
  induction snapshot as [|[[time k] m] rest IH]; intros kept s KP.
  - cbn [for_events for_yielded filter].
    destruct (on_event _ _ _ _); reflexivity.
  - cbn [for_events filter event_momentum snd].
    destruct (contains Meqb m ms) eqn:CM; cbn [negb for_yielded].
    + destruct (on_event t0 time (Some (k, m)) s) as [s1|s1|e s1];
        try reflexivity.
      change ((time, k, m) :: rest) with ([(time, k, m)] ++ rest).
      rewrite app_assoc. apply IH.
      apply Forall_app. split; [exact KP|].
      constructor; [exact CM | constructor].
    + rewrite (remove_first_skip Eeqb (time, k, m) kept (time, k, m) rest).
      * apply IH, KP.
      * intros z Hz. rewrite Forall_forall in KP. specialize (KP z Hz).
        destruct (Eeqb z (time, k, m)) eqn:E; [|reflexivity].
        apply Eeqb_momentum in E. cbn [event_momentum snd] in E.
        rewrite (contains_Meqb _ _ _ E) in KP. congruence.
      * apply Eeqb_refl.
Qed.

(** The vertices and the outcome of the generator depend on the log
    only through the events that pass the filter. *)
Lemma determine_yielded b ms evs evs' cl fl :
  filter (fun e => contains Meqb (event_momentum e) ms) evs
  = filter (fun e => contains Meqb (event_momentum e) ms) evs' ->
  fst (determine b ms evs cl fl) = fst (determine b ms evs' cl fl).
Proof.
  intros E. unfold determine.
  destruct (start b cl fl) as [s0|e]; [|reflexivity].
  destruct (on_event _ _ _ s0) as [s1|s1|e s1]; try reflexivity.
  pose proof (for_events_yielded (TIME b) ms evs [] s1 (Forall_nil _)) as A.
  pose proof (for_events_yielded (TIME b) ms evs' [] s1 (Forall_nil _)) as B.
  cbn [app] in A, B. rewrite E in A.
  destruct (for_events (TIME b) ms evs evs s1) as [log o].
  destruct (for_events (TIME b) ms evs' evs' s1) as [log' o'].
  cbn [snd] in A, B. rewrite <- B in A. subst o'.
  destruct o; reflexivity.
Qed.

Lemma determination_events b ms mx mn evs evs' :
  filter (fun e => contains Meqb (event_momentum e) ms) evs
  = filter (fun e => contains Meqb (event_momentum e) ms) evs' ->
  determination (mkGauge b ms mx mn evs None)
  = determination (mkGauge b ms mx mn evs' None).
Proof.
  intros E. unfold determination. cbn [read].
  destruct (match mx with
            | Number v => (Ok (lines_of_number (TIME b) v), mx)
            | Bound gm =>
                let '(r, gm') := read gm in
                (bind r (fun d => lines_of_determination (TIME b) d), Bound gm')
            end) as [[cl|e] mx']; [|reflexivity].
  destruct (match mn with
            | Number v => (Ok (lines_of_number (TIME b) v), mn)
            | Bound gm =>
                let '(r, gm') := read gm in
                (bind r (fun d => lines_of_determination (TIME b) d), Bound gm')
            end) as [[fl|e] mn']; [|reflexivity].
  pose proof (determine_yielded b ms evs evs' cl fl E) as D.
  destruct (determine b ms evs cl fl) as [[ys err] log].
  destruct (determine b ms evs' cl fl) as [[ys' err'] log'].
  cbn [fst] in D. injection D as -> ->. reflexivity.
Qed.

Lemma filter_insort {A} (P : A -> bool) (lt : A -> A -> bool) x l :
  P x = false -> filter P (insort lt x l) = filter P l.
Proof.
  intros H. destruct (insort_split lt x l) as (l1 & l2 & -> & -> & _).
  rewrite !filter_app. cbn [filter]. rewrite H. reflexivity.
Qed.

Lemma contains_false {A} (eqb : A -> A -> bool) x l :
  contains eqb x l = false -> forall y, In y l -> eqb y x = false.
Proof.
  unfold contains. intros H y Hy.
  destruct (eqb y x) eqn:E; [|reflexivity].
  assert (X : existsb (fun z => eqb z x) l = true)
    by (apply existsb_exists; eauto).
  congruence.
Qed.

(** X27: when the gauge holds no momentum equal to [m], adding [m] and
    removing it again gives back the momenta and the determination; the
    two entries left in the log do not pass the filter. *)
Lemma add_remove_when_absent (g : Gauge) (m : Momentum) :
  valid_momentum m = true ->
  contains Meqb m (momenta g) = false ->
  let r1 := add_momentum m g in
  let r2 := remove_momentum m (after r1) in
  fst r1 = Ok m /\ fst r2 = Ok tt
  /\ momenta (after r2) = momenta g
  /\ determination (after r2) = determination (invalidate g).
Proof.
  intros V C. cbv zeta.
  unfold add_momentum, remove_momentum, _make_momentum, after.
  rewrite V. cbn [fst snd momenta].
  assert (R : remove_first Meqb m (momenta_add m (momenta g))
              = Some (momenta g)).
  { unfold momenta_add.
    destruct (insort_split key_lt m (momenta g)) as (l1 & l2 & E & -> & _).
    rewrite E. apply remove_first_skip; [|apply Meqb_refl].
    intros z Hz. apply (contains_false Meqb m (momenta g) C).
    rewrite E. apply in_or_app. left. exact Hz. }
  rewrite R. cbn [fst snd momenta].
  repeat split.
  destruct g as [b ms mx mn evs cached].
  cbn [base momenta _max _min _events invalidate] in *.
  apply determination_events.
  assert (S : contains Meqb (event_momentum (m_since m, ADD, m)) ms = false)
    by exact C.
  assert (S' : contains Meqb (event_momentum (m_until m, REMOVE, m)) ms = false)
    by exact C.
  unfold events_add.
  destruct (Teqb (m_until m) PInf).
  - apply (filter_insort (fun e => contains Meqb (event_momentum e) ms)), S.
  - rewrite (filter_insort (fun e => contains Meqb (event_momentum e) ms)
               _ _ _ S').
    apply (filter_insort (fun e => contains Meqb (event_momentum e) ms)), S.
Qed.

(** * The facade on well-formed gauges *)

(** C5, amended: on a well-formed gauge, for a time after one vertex of
    the determination and not after the next, [velocity] is the slope of
    the segment between the two; so inside a segment it is that
    segment's slope, and at a vertex that two segments share it is the
    slope of the one that ends there. *)
Theorem velocity_is_left_slope (g : Gauge) (d : list Vertex) (i : nat)
  (t1 v1 t2 v2 t : Q) :
  wf g ->
  determination g = Ok d ->
  nth_error d i = Some (t1, v1) ->
  nth_error d (S i) = Some (t2, v2) ->
  t1 < t -> t <= t2 ->
  fst (velocity_at t g) = Ok ((v2 - v1) / (t2 - t1)).
Proof.
  intros W Hd. destruct (read_shaped g W) as (d' & R & [Inc _] & _).
  unfold determination in Hd. rewrite R in Hd. injection Hd as ->.
  apply velocity_between; assumption.
Qed.

Lemma velocity_is_left_slope_witness :
  fst (velocity_at 4 up_and_down) = Ok ((4 - 0) / (4 - 0)).
Proof.
  apply (velocity_is_left_slope up_and_down
           [(0, 0); (4, 4); (8, 0)] 0 0 0 4 4 4).
  - vm_compute. repeat split; try discriminate; repeat constructor.
  - vm_compute. reflexivity.
  - reflexivity.
  - vm_compute. reflexivity.
  - reflexivity.
  - discriminate.
Defined.

(** C6, amended: on a well-formed gauge the reads of [incr] succeed, and
    without [over] and [clamp] it raises exactly when the change goes up
    and ends above the maximum or goes down and ends below the minimum;
    otherwise it returns the new value, rebases to it at [t], forgets
    the momenta that ended before [t] (a finite end strictly before
    [t]) and deletes the cached determination. *)
Theorem incr_plain (g : Gauge) (t delta : Q) :
  wf g ->
  exists v M m,
    fst (get t g) = Ok v
    /\ fst (get_max t (snd (get t g))) = Ok M
    /\ fst (get_min t (snd (get_max t (snd (get t g))))) = Ok m
    /\ let r := incr delta false false t g in
       let beyond :=
         (0 < delta /\ M < v + delta) \/ (delta < 0 /\ v + delta < m) in
       (fst r = Raise OutOfRange <-> beyond)
       /\ (~ beyond ->
           fst r = Ok (v + delta)
           /\ base (snd r) = (t, v + delta)
           /\ momenta (snd r)
              = filter (fun x => negb (forgotten t x)) (momenta g)
           /\ _determination (snd r) = None).
Proof.
  intros W. destruct (reads_wf t g W) as (v & M & m & Hget & Hmax & Hmin & _).
  exists v, M, m. repeat split; try assumption.
  - apply incr_plain_raises; assumption.
  - apply incr_plain_raises; assumption.
  - rewrite (incr_plain_accepts g t v M m Hget Hmax Hmin delta H). reflexivity.
  - rewrite (incr_plain_accepts g t v M m Hget Hmax Hmin delta H). reflexivity.
  - rewrite (incr_plain_accepts g t v M m Hget Hmax Hmin delta H).
    cbn [snd momenta]. apply forget_past_slice.
    apply wf_fields in W. apply W.
  - rewrite (incr_plain_accepts g t v M m Hget Hmax Hmin delta H). reflexivity.
Qed.

Lemma incr_plain_witness :
  exists v M m,
    fst (get 6 (plain_gauge 5 10 0 [one_momentum])) = Ok v
    /\ fst (get_max 6 (snd (get 6 (plain_gauge 5 10 0 [one_momentum])))) = Ok M
    /\ fst (get_min 6 (snd (get_max 6 (snd (get 6 (plain_gauge 5 10 0 [one_momentum]))))))
       = Ok m
    /\ let r := incr 1 false false 6 (plain_gauge 5 10 0 [one_momentum]) in
       let beyond := (0 < 1 /\ M < v + 1) \/ (1 < 0 /\ v + 1 < m) in
       (fst r = Raise OutOfRange <-> beyond)
       /\ (~ beyond ->
           fst r = Ok (v + 1)
           /\ base (snd r) = (6, v + 1)
           /\ momenta (snd r)
              = filter (fun x => negb (forgotten 6 x))
                  (momenta (plain_gauge 5 10 0 [one_momentum]))
           /\ _determination (snd r) = None).
Proof.
  apply (incr_plain (plain_gauge 5 10 0 [one_momentum]) 6 1).
  vm_compute. repeat split; try discriminate; repeat constructor.
Defined.

(** C7: on a well-formed gauge, without [over] and [clamp], [incr]
    checks only the limit on the side the value moves to: it raises
    exactly when a positive change ends above the maximum or a negative
    one ends below the minimum.  A change of zero is always accepted,
    and so is a positive change that ends at or below the maximum,
    wherever the minimum is (and symmetrically); the gauge is then
    rebased to the new value. *)
Theorem incr_checks_one_side (g : Gauge) (t delta : Q) :
  wf g ->
  exists v M m,
    fst (get t g) = Ok v
    /\ fst (get_max t (snd (get t g))) = Ok M
    /\ fst (get_min t (snd (get_max t (snd (get t g))))) = Ok m
    /\ let r := incr delta false false t g in
       (fst r = Raise OutOfRange
        <-> (0 < delta /\ M < v + delta) \/ (delta < 0 /\ v + delta < m))
       /\ (delta == 0 ->
           fst r = Ok (v + delta) /\ base (snd r) = (t, v + delta))
       /\ (0 < delta -> v + delta <= M ->
           fst r = Ok (v + delta) /\ base (snd r) = (t, v + delta))
       /\ (delta < 0 -> m <= v + delta ->
           fst r = Ok (v + delta) /\ base (snd r) = (t, v + delta)).
Proof.
  intros W. destruct (reads_wf t g W) as (v & M & m & Hget & Hmax & Hmin & _).
  exists v, M, m. split; [exact Hget|]. split; [exact Hmax|].
  split; [exact Hmin|]. cbv zeta.
  split; [apply incr_plain_raises; assumption|].
  repeat split; intros;
    rewrite (incr_plain_accepts g t v M m Hget Hmax Hmin delta);
    try reflexivity;
    intros [[P1 P2]|[P1 P2]]; lra.
Qed.

Lemma incr_checks_one_side_witness :
  exists v M m,
    fst (get 0 (plain_gauge (-5) 10 0 [])) = Ok v
    /\ fst (get_max 0 (snd (get 0 (plain_gauge (-5) 10 0 [])))) = Ok M
    /\ fst (get_min 0 (snd (get_max 0 (snd (get 0 (plain_gauge (-5) 10 0 []))))))
       = Ok m
    /\ let r := incr 1 false false 0 (plain_gauge (-5) 10 0 []) in
       (fst r = Raise OutOfRange
        <-> (0 < 1 /\ M < v + 1) \/ (1 < 0 /\ v + 1 < m))
       /\ (1 == 0 -> fst r = Ok (v + 1) /\ base (snd r) = (0, v + 1))
       /\ (0 < 1 -> v + 1 <= M ->
           fst r = Ok (v + 1) /\ base (snd r) = (0, v + 1))
       /\ (1 < 0 -> m <= v + 1 ->
           fst r = Ok (v + 1) /\ base (snd r) = (0, v + 1)).
Proof.
  apply (incr_checks_one_side (plain_gauge (-5) 10 0 []) 0 1).
  vm_compute. repeat split; try discriminate; repeat constructor.
Defined.

(** C8: on a well-formed gauge, [incr] with [clamp] (and without [over])
    does not raise.  A positive change that would end above the maximum
    gives the larger of the previous value and the maximum, a negative
    one that would end below the minimum gives the smaller of the
    previous value and the minimum, anything else gives the sum; an
    increase never lowers the value and a decrease never raises it.  The
    gauge is rebased to the result. *)
Theorem incr_clamp (g : Gauge) (t delta : Q) :
  wf g ->
  exists v M m value,
    fst (get t g) = Ok v
    /\ fst (get_max t (snd (get t g))) = Ok M
    /\ fst (get_min t (snd (get_max t (snd (get t g))))) = Ok m
    /\ fst (incr delta false true t g) = Ok value
    /\ base (snd (incr delta false true t g)) = (t, value)
    /\ (0 < delta -> M < v + delta -> value == Qmax v M)
    /\ (delta < 0 -> v + delta < m -> value == Qmin v m)
    /\ (~ (0 < delta /\ M < v + delta) ->
        ~ (delta < 0 /\ v + delta < m) -> value == v + delta)
    /\ (0 < delta -> v <= value)
    /\ (delta < 0 -> value <= v).
Proof.
  intros W. destruct (reads_wf t g W) as (v & M & m & Hget & Hmax & Hmin & _).
  exists v, M, m.
  rewrite (incr_reads g t v M m Hget Hmax Hmin). cbv zeta.
  cbn [forget_past _coerce_and_remove_momenta fst snd base].
  eexists. split; [exact Hget|]. split; [exact Hmax|]. split; [exact Hmin|].
  split; [reflexivity|]. split; [reflexivity|].
  pose proof (pymax_Qmax v M) as EM. pose proof (pymin_Qmin v m) as Em.
  pose proof (Q.le_max_l v M) as LM. pose proof (Q.le_min_l v m) as Lm.
  destruct (Qltb 0 delta) eqn:A; destruct (Qltb M (v + delta)) eqn:B;
    destruct (Qltb delta 0) eqn:C; destruct (Qltb (v + delta) m) eqn:D;
    cbn [andb];
    repeat match goal with
           | H : Qltb _ _ = true |- _ => apply Qltb_lt in H
           | H : Qltb _ _ = false |- _ => apply Qltb_ge in H
           end;
    repeat split; intros; try rewrite EM; try rewrite Em;
    try reflexivity; try lra; try (exfalso; tauto).
Qed.

Lemma incr_clamp_witness :
  exists v M m value,
    fst (get 0 (plain_gauge 5 10 0 [])) = Ok v
    /\ fst (get_max 0 (snd (get 0 (plain_gauge 5 10 0 [])))) = Ok M
    /\ fst (get_min 0 (snd (get_max 0 (snd (get 0 (plain_gauge 5 10 0 []))))))
       = Ok m
    /\ fst (incr 100 false true 0 (plain_gauge 5 10 0 [])) = Ok value
    /\ base (snd (incr 100 false true 0 (plain_gauge 5 10 0 []))) = (0, value)
    /\ (0 < 100 -> M < v + 100 -> value == Qmax v M)
    /\ (100 < 0 -> v + 100 < m -> value == Qmin v m)
    /\ (~ (0 < 100 /\ M < v + 100) ->
        ~ (100 < 0 /\ v + 100 < m) -> value == v + 100)
    /\ (0 < 100 -> v <= value)
    /\ (100 < 0 -> value <= v).
Proof.
  apply (incr_clamp (plain_gauge 5 10 0 []) 0 100).
  vm_compute. repeat split; try discriminate; repeat constructor.
Defined.

(** C9: on a well-formed gauge with determination [d], [whenever] yields
    the time of the first vertex if its value is the goal, then for each
    pair of neighbouring vertices with [v1 < goal <= v2] or
    [v1 > goal >= v2] the interpolated time
    [t1 + (t2 - t1) * (goal - v1) / (v2 - v1)]; [when] with [after = n]
    returns element [n] of that sequence and raises [Unreachable]
    exactly when the sequence has no such element. *)
Theorem whenever_when (g : Gauge) (goal : Q) :
  wf g ->
  exists d,
    determination g = Ok d
    /\ fst (whenever goal g) = Ok (crossing_times d goal)
    /\ (forall t1 v1 t2 v2,
           (crosses goal ((t1, v1), (t2, v2)) = true
            <-> (v1 < goal /\ goal <= v2) \/ (goal < v1 /\ v2 <= goal))
           /\ crossing_time goal ((t1, v1), (t2, v2))
              == t1 + (t2 - t1) * (goal - v1) / (v2 - v1))
    /\ (forall n at_,
           nth_error (crossing_times d goal) n = Some at_ ->
           fst (when goal n g) = Ok at_)
    /\ (forall n,
           fst (when goal n g) = Raise Unreachable
           <-> (length (crossing_times d goal) <= n)%nat).
Proof.
  intros W. destruct (read_shaped g W) as (d & R & _).
  exists d. split; [exact R|].
  apply whenever_when_on. exact R.
Qed.

Lemma whenever_when_witness :
  exists d,
    determination up_and_down = Ok d
    /\ fst (whenever 3 up_and_down) = Ok (crossing_times d 3)
    /\ (forall t1 v1 t2 v2,
           (crosses 3 ((t1, v1), (t2, v2)) = true
            <-> (v1 < 3 /\ 3 <= v2) \/ (3 < v1 /\ v2 <= 3))
           /\ crossing_time 3 ((t1, v1), (t2, v2))
              == t1 + (t2 - t1) * (3 - v1) / (v2 - v1))
    /\ (forall n at_,
           nth_error (crossing_times d 3) n = Some at_ ->
           fst (when 3 n up_and_down) = Ok at_)
    /\ (forall n,
           fst (when 3 n up_and_down) = Raise Unreachable
           <-> (length (crossing_times d 3%Q) <= n)%nat).
Proof.
  apply (whenever_when up_and_down 3).
  vm_compute. repeat split; try discriminate; repeat constructor.
Defined.

(** * Further properties of the lines *)

(** X1: [guess] never raises; inside the range of the line it is [get],
    before [since] it is the value at [since], and [get] raises there
    and after [until]. *)
Theorem guess_never_raises (l : Line) (t : Q) :
  exists y,
    Line.guess l t = Ok y
    /\ (forall z, Line.get l t = Ok z -> z = y)
    /\ (t < Line.since l ->
        y = Line.value l /\ Line.get l t = Raise OutOfTimeRange)
    /\ (le_until t (Line.until l) = false ->
        Line.get l t = Raise OutOfTimeRange).
Proof.
  destruct (guess_total l t) as [y G]. exists y.
  split; [exact G|]. split; [|split].
  - intros z Hz. apply get_in_range in Hz as (A & B & ->).
    rewrite (guess_in_range l t A B) in G. congruence.
  - intros L. unfold Line.guess in G.
    assert (A : Qltb t (Line.since l) = true) by (apply Qltb_lt, L).
    rewrite A in G. injection G as <-. split; [reflexivity|].
    unfold Line.get.
    assert (B : Qle_bool (Line.since l) t = false) by (apply Qle_bool_gt, L).
    rewrite B. reflexivity.
  - intros L. unfold Line.get. rewrite L, andb_false_r. reflexivity.
Qed.

(** What a successful [intersect] has computed. *)
Lemma intersect_inv a b t v :
  Line.intersect a b = Ok (t, v) ->
  exists va vb,
    Line.velocity a = Ok va /\ Line.velocity b = Ok vb
    /\ ~ va - vb == 0
    /\ t = ((Line.value b - vb * Line.since b)
            - (Line.value a - va * Line.since a)) / (va - vb)
    /\ Line.since a <= t /\ Line.since b <= t
    /\ le_until t (Line.until a) = true /\ le_until t (Line.until b) = true
    /\ v = Line._get a t.
Proof.
  unfold Line.intersect, Line.intercept.
  destruct (Line.velocity b) as [vb|e]; [|discriminate].
  destruct (Line.velocity a) as [va|e]; [|discriminate].
  cbn [bind]. destruct (Qeq_bool (va - vb) 0) eqn:E; [discriminate|].
  match goal with
  | |- context [if ?c then _ else _] => destruct c eqn:R
  end; [|discriminate].
  apply andb_true_iff in R as [R1 R2].
  apply le_until_Umin in R2 as [R2 R3].
  match goal with
  | |- context [Line.get a ?T] => set (T0 := T) in *
  end.
  destruct (Line.get a T0) as [y|e] eqn:G; [|discriminate].
  cbn [bind]. intros [= <- <-].
  apply get_in_range in G as (A & _ & ->).
  exists va, vb. qb.
  assert (B : Line.since b <= T0).
  { destruct (pymax_cases (Line.since a) (Line.since b)) as [[? P]|[? P]];
      rewrite P in R1; lra. }
  repeat split; try assumption; reflexivity.
Qed.



Lemma Qle_bool_eq_l a b c : a == b -> Qle_bool a c = Qle_bool b c.
Proof.
  intros E. destruct (Qle_bool b c) eqn:B; qb.
  - apply Qle_bool_iff. lra.
  - apply Qle_bool_gt. lra.
Qed.



(** X4: between two lines that begin before they end, [intersect] raises
    nothing but the two [ValueError]s that the determiner catches:
    parallel lines, exactly when the velocities are equal (also when the
    lines coincide), and an intersection outside the common range. *)
Theorem intersect_raises_value_errors (a b : Line) :
  proper a -> proper b ->
  exists va vb,
    Line.velocity a = Ok va /\ Line.velocity b = Ok vb
    /\ (Line.intersect a b = Raise ParallelLines <-> va == vb)
    /\ (forall e, Line.intersect a b = Raise e ->
                  e = ParallelLines \/ e = NoIntersection).
Proof.
  intros Pa Pb.
  destruct (velocity_proper a Pa) as [va Va].
  destruct (velocity_proper b Pb) as [vb Vb].
  exists va, vb. split; [exact Va|]. split; [exact Vb|].
  unfold Line.intersect, Line.intercept. rewrite Va, Vb. cbn [bind].
  destruct (Qeq_bool (va - vb) 0) eqn:E; qb.
  - split; [split; [intros _; lra | reflexivity]|].
    intros e [= <-]. left. reflexivity.
  - match goal with
    | |- context [if ?c then _ else _] => destruct c eqn:R
    end.
    + apply andb_true_iff in R as [R1 R2].
      apply le_until_Umin in R2 as [R2 R3]. qb.
      rewrite get_ok; [|
        destruct (pymax_cases (Line.since a) (Line.since b)) as [[? P]|[? P]];
        rewrite P in R1; lra | exact R2].
      cbn [bind]. split; [split; [discriminate | intros; lra]|].
      intros e; discriminate.
    + split; [split; [discriminate | intros; lra]|].
      intros e [= <-]. right. reflexivity.
Qed.

Lemma intersect_raises_value_errors_witness :
  exists va vb,
    Line.velocity (Ray 0 (At 5) 1 2) = Ok va
    /\ Line.velocity (Segment 0 4 3 11) = Ok vb
    /\ (Line.intersect (Ray 0 (At 5) 1 2) (Segment 0 4 3 11)
        = Raise ParallelLines <-> va == vb)
    /\ (forall e, Line.intersect (Ray 0 (At 5) 1 2) (Segment 0 4 3 11)
                  = Raise e ->
                  e = ParallelLines \/ e = NoIntersection).
Proof.
  apply (intersect_raises_value_errors (Ray 0 (At 5) 1 2) (Segment 0 4 3 11));
    reflexivity.
Defined.



(** * Reading values back *)

(** What [get] and [velocity] return on a gauge whose read gives [d]. *)
Lemma reads_on g d t :
  fst (read g) = Ok d ->
  fst (get t g) = (p <- value_and_velocity_in d t ;; Ok (fst p))
  /\ fst (velocity_at t g) = (p <- value_and_velocity_in d t ;; Ok (snd p)).
Proof.
  intros R. unfold get, velocity_at, _value_and_velocity.
  destruct (read g) as [r g']. cbn [fst] in *. subst r. cbn [bind].
  split; reflexivity.
Qed.

(** At and before its first vertex a determination has the value of
    that vertex. *)
Lemma value_before_first (p : Vertex) (rest : list Vertex) t :
  t <= TIME p ->
  value_and_velocity_in (p :: rest) t = Ok (VALUE p, 0).
Proof.
  intros L. unfold value_and_velocity_in.
  destruct (Nat.eqb (length (p :: rest)) 1); [reflexivity|].
  cbn [bisect_left].
  assert (E : Qltb (TIME p) t = false) by (apply Qltb_ge, L).
  rewrite E. reflexivity.
Qed.

(** At the base time and before it. *)
Lemma before_base (g : Gauge) (t : Q) :
  wf g -> t <= TIME (base g) ->
  exists v,
    fst (get t g) = Ok v /\ v == VALUE (base g)
    /\ fst (velocity_at t g) = Ok 0.
Proof.
  intros W L.
  destruct (read_shaped g W) as (d & R & [Inc (p & rest & -> & [ET EV])] & _).
  destruct (reads_on g _ t R) as [-> ->].
  rewrite value_before_first by (rewrite ET; exact L).
  cbn [bind fst snd]. exists (VALUE p). repeat split. exact EV.
Qed.

(** X6: at the base time and before it, a well-formed gauge has its base
    value and stands still. *)
Theorem get_before_base (g : Gauge) (t : Q) :
  wf g -> t <= TIME (base g) ->
  exists v,
    fst (get t g) = Ok v /\ v == VALUE (base g)
    /\ fst (velocity_at t g) = Ok 0.
Proof. exact (before_base g t). Qed.

Lemma get_before_base_witness :
  exists v,
    fst (get (-1) up_and_down) = Ok v /\ v == VALUE (base up_and_down)
    /\ fst (velocity_at (-1) up_and_down) = Ok 0.
Proof.
  apply (get_before_base up_and_down (-1)).
  - vm_compute. repeat split; try discriminate; repeat constructor.
  - vm_compute. discriminate.
Defined.

Lemma bisect_left_all (d : list Vertex) t :
  Forall (fun p => TIME p < t) d -> bisect_left d t = length d.
Proof.
  induction 1 as [|p r Hp Hr IH]; [reflexivity|].
  cbn [bisect_left length]. apply Qltb_lt in Hp. rewrite Hp, IH. reflexivity.
Qed.

Lemma increasing_before_last d :
  increasing d -> forall a, Forall (fun p => TIME p <= TIME (last d a)) d.
Proof.
  induction 1 as [|p r Hr IH Hp]; intros a; [constructor|].
  destruct r as [|q r'].
  - constructor; [apply Qle_refl | constructor].
  - change (last (p :: q :: r') a) with (last (q :: r') a).
    specialize (IH a).
    constructor; [|exact IH].
    inversion Hp as [|? ? Hq _]; subst.
    inversion IH as [|? ? Lq _]; subst.
    eapply Qle_trans; [apply Qlt_le_weak, Hq | exact Lq].
Qed.

(** After its last vertex a determination keeps the value of that
    vertex. *)
Lemma value_after_last (p : Vertex) (rest : list Vertex) t :
  increasing (p :: rest) ->
  TIME (last (p :: rest) p) < t ->
  value_and_velocity_in (p :: rest) t = Ok (VALUE (last (p :: rest) p), 0).
Proof.
  intros Inc L. unfold value_and_velocity_in.
  destruct (Nat.eqb (length (p :: rest)) 1) eqn:E1.
  - destruct rest; [reflexivity | discriminate].
  - assert (All : Forall (fun q => TIME q < t) (p :: rest)).
    { eapply Forall_impl; [|apply (increasing_before_last _ Inc p)].
      cbn beta. intros q Hq. lra. }
    rewrite (bisect_left_all _ _ All).
    cbn [length].
    assert (N : nth_error (p :: rest) (S (length rest)) = None)
      by (apply nth_error_None; cbn [length]; lia).
    rewrite N. reflexivity.
Qed.

(** X7: after the last vertex of its determination a well-formed gauge
    keeps the value of that vertex and stands still. *)
Theorem get_after_last (g : Gauge) (d : list Vertex) (t : Q) :
  wf g -> determination g = Ok d ->
  TIME (last d (base g)) < t ->
  fst (get t g) = Ok (VALUE (last d (base g)))
  /\ fst (velocity_at t g) = Ok 0.
Proof.
  intros W D L.
  destruct (read_shaped g W) as (d' & R & [Inc (p & rest & E & _)] & _).
  unfold determination in D. rewrite R in D. injection D as ->. subst d.
  destruct (reads_on g _ t R) as [-> ->].
  rewrite (last_default (p :: rest) (base g) p) in * by discriminate.
  rewrite (value_after_last p rest t Inc L). split; reflexivity.
Qed.

Lemma get_after_last_witness :
  fst (get 9 up_and_down)
  = Ok (VALUE (last [(0, 0); (4, 4); (8, 0)] (base up_and_down)))
  /\ fst (velocity_at 9 up_and_down) = Ok 0.
Proof.
  apply (get_after_last up_and_down [(0, 0); (4, 4); (8, 0)] 9).
  - vm_compute. repeat split; try discriminate; repeat constructor.
  - vm_compute. reflexivity.
  - vm_compute. reflexivity.
Defined.

(** * [when] and [get] *)




Lemma neighbours_in_order (d : list Vertex) :
  increasing d ->
  forall i t1 v1 t2 v2,
    nth_error d i = Some (t1, v1) -> nth_error d (S i) = Some (t2, v2) ->
    t1 < t2.
Proof.
  induction 1 as [|p r Hr IH Hp]; intros i t1 v1 t2 v2 H1 H2.
  - destruct i; discriminate.
  - destruct i as [|i].
    + cbn [nth_error] in H1. injection H1 as ->.
      change (nth_error r 0 = Some (t2, v2)) in H2.
      apply nth_error_In in H2. rewrite Forall_forall in Hp.
      apply (Hp _ H2).
    + change (nth_error r i = Some (t1, v1)) in H1.
      change (nth_error r (S i) = Some (t2, v2)) in H2.
      eapply IH; eassumption.
Qed.







(** * Changing the value and reading it back *)

(** After a rebase to [(t, v)] the value at [t] is [v]. *)
Lemma get_after_rebase (g : Gauge) (v t : Q) :
  wf g ->
  exists y,
    fst (get t (snd (forget_past (Some v) t g))) = Ok y /\ y == v.
Proof.
  intros W.
  destruct (before_base (snd (forget_past (Some v) t g)) t)
    as (y & G & E & _).
  - apply wf_rebase, W.
  - cbn. apply Qle_refl.
  - exists y. split; [exact G | exact E].
Qed.


(** What [incr] returns, it has done. *)
Lemma incr_done (g : Gauge) (delta : Q) (over clamp : bool) (t x : Q) :
  wf g ->
  fst (incr delta over clamp t g) = Ok x ->
  exists g3,
    wf g3 /\ incr delta over clamp t g = forget_past (Some x) t g3.
Proof.
  intros W H.
  destruct (reads_wf t g W) as (v & M & m & Hget & Hmax & Hmin & W3).
  rewrite (incr_reads g t v M m Hget Hmax Hmin) in *. cbv zeta in *.
  eexists. split; [exact W3|].
  destruct over; [injection H as <-; reflexivity|].
  destruct clamp; [injection H as <-; reflexivity|].
  destruct (_ && _); [discriminate|].
  destruct (_ && _); [discriminate|].
  injection H as <-. reflexivity.
Qed.

(** X10: whatever [incr] returns is the value of the gauge at that time
    afterwards, with [over], with [clamp] or with neither. *)
Theorem incr_then_get (g : Gauge) (delta : Q) (over clamp : bool) (t x : Q) :
  wf g ->
  fst (incr delta over clamp t g) = Ok x ->
  exists y,
    fst (get t (snd (incr delta over clamp t g))) = Ok y /\ y == x.
Proof.
  intros W H.
  destruct (incr_done g delta over clamp t x W H) as (g3 & W3 & ->).
  apply get_after_rebase, W3.
Qed.

Lemma incr_then_get_witness :
  exists y,
    fst (get 2 (snd (incr 100 false true 2 up_and_down))) = Ok y
    /\ y == 10.
Proof.
  apply (incr_then_get up_and_down 100 false true 2 10).
  - vm_compute. repeat split; try discriminate; repeat constructor.
  - vm_compute. reflexivity.
Defined.






(** X13: without a value, [forget_past] rebases a well-formed gauge to
    its own value at that time: the value there stays, and the momenta
    that ended before (a finite [until] strictly before [t]) go. *)
Theorem forget_past_keeps_value (g : Gauge) (t : Q) :
  wf g ->
  exists v y,
    fst (get t g) = Ok v
    /\ fst (forget_past None t g) = Ok v
    /\ base (snd (forget_past None t g)) = (t, v)
    /\ momenta (snd (forget_past None t g))
       = filter (fun m => negb (forgotten t m)) (momenta g)
    /\ _determination (snd (forget_past None t g)) = None
    /\ fst (get t (snd (forget_past None t g))) = Ok y /\ y == v.
Proof.
  intros W.
  destruct (get_wf t g W) as [[v G] W1].
  pose proof (get_momenta t g) as GM.
  assert (E : forget_past None t g = forget_past (Some v) t (snd (get t g))).
  { unfold forget_past.
    destruct (get t g) as [r g1]. cbn [fst snd] in *. subst r.
    rewrite GM. reflexivity. }
  rewrite E.
  destruct (get_after_rebase (snd (get t g)) v t W1) as (y & Gy & Ey).
  exists v, y. split; [exact G|]. split; [reflexivity|].
  split; [reflexivity|]. split; [|split; [reflexivity | split; assumption]].
  cbn [forget_past _coerce_and_remove_momenta snd momenta].
  rewrite GM. apply forget_past_slice.
  apply wf_fields in W. apply W.
Qed.

Lemma forget_past_keeps_value_witness :
  exists v y,
    fst (get 6 up_and_down) = Ok v
    /\ fst (forget_past None 6 up_and_down) = Ok v
    /\ base (snd (forget_past None 6 up_and_down)) = (6, v)
    /\ momenta (snd (forget_past None 6 up_and_down))
       = filter (fun m => negb (forgotten 6 m)) (momenta up_and_down)
    /\ _determination (snd (forget_past None 6 up_and_down)) = None
    /\ fst (get 6 (snd (forget_past None 6 up_and_down))) = Ok y /\ y == v.
Proof.
  apply (forget_past_keeps_value up_and_down 6).
  vm_compute. repeat split; try discriminate; repeat constructor.
Defined.

(** * Gauges without momenta *)

Lemma guess_horizon s u x t : Line.guess (Horizon s u x) t = Ok x.
Proof.
  unfold Line.guess.
  cbn [Line.since Line.until Line._earlier Line._later Line.value].
  destruct (Qltb t s) eqn:A; [reflexivity|].
  destruct u as [u|].
  - destruct (Qltb u t) eqn:B; [reflexivity|]. qb.
    rewrite get_ok; [reflexivity | exact A | apply Qle_bool_iff, B].
  - qb. rewrite get_ok; [reflexivity | exact A | reflexivity].
Qed.

(** Between two numbers and without events the generator yields the
    base point and ends. *)
Lemma determine_without_events (t0 v a c : Q) :
  determine (t0, v) [] [] (lines_of_number t0 a) (lines_of_number t0 c)
  = ([(t0, v + 0 * (t0 - t0))], None, []).
Proof.
  unfold determine, start, lines_of_number.
  cbn [Boundary.walk bind line lines_iter Boundary.skip_past Line.until
       until_le TIME VALUE fst snd].
  rewrite !guess_horizon. cbn [bind].
  destruct (Boundary.cmp Ceil a v); [|destruct (Boundary.cmp Floor c v)];
    cbn [bind]; rewrite on_event_first by reflexivity; reflexivity.
Qed.

Lemma filter_no_momenta (evs : list Event) :
  filter (fun e => contains Meqb (event_momentum e) []) evs = [].
Proof. induction evs as [|e r IH]; [reflexivity | exact IH]. Qed.

(** Without momenta and between two numbers the determination is the
    base point, whatever the log still holds. *)
Lemma determination_without_momenta (b : Q * Q) (a c : Q) (evs : list Event) :
  determination (mkGauge b [] (Number a) (Number c) evs None)
  = Ok [(TIME b, VALUE b + 0 * (TIME b - TIME b))].
Proof.
  rewrite (determination_events b [] (Number a) (Number c) evs [])
    by (rewrite !filter_no_momenta; reflexivity).
  destruct b as [t0 v]. unfold determination. cbn [read TIME VALUE fst snd].
  rewrite determine_without_events. reflexivity.
Qed.

Lemma constant_gauge (b : Q * Q) (a c : Q) (evs : list Event) (t : Q) :
  let g := mkGauge b [] (Number a) (Number c) evs None in
  exists v,
    determination g = Ok [(TIME b, v)] /\ v == VALUE b
    /\ fst (get t g) = Ok v /\ fst (velocity_at t g) = Ok 0.
Proof.
  cbv zeta. pose proof (determination_without_momenta b a c evs) as D.
  eexists. split; [exact D|]. split; [ring|].
  destruct (reads_on _ _ t D) as [-> ->]. split; reflexivity.
Qed.

(** X14: a new gauge between two numbers is constant: its determination
    is the one vertex of its base, [get] returns the initial value at
    every time, also when that value lies outside the limits, and the
    velocity is zero. *)
Theorem new_gauge_constant (value max min at_ t : Q) :
  exists v,
    determination (new_gauge value (Number max) (Number min) at_)
    = Ok [(at_, v)]
    /\ v == value
    /\ fst (get t (new_gauge value (Number max) (Number min) at_)) = Ok v
    /\ fst (velocity_at t (new_gauge value (Number max) (Number min) at_))
       = Ok 0.
Proof. exact (constant_gauge (at_, value) max min [] t). Qed.

(** ** A read leaves the limits that are numbers alone *)

Lemma read_max_number g a : _max g = Number a -> _max (snd (read g)) = Number a.
Proof.
  destruct g as [b ms mx mn evs [d|]]; [trivial|].
  cbn [_max]. intros ->. cbn [read bind].
  destruct mn as [w|gn]; [|destruct (read gn) as [[dn|e'] gn']];
    cbn [bind]; try reflexivity;
    try destruct (lines_of_determination (TIME b) dn); try reflexivity;
    match goal with
    | |- context [determine ?a ?b ?c ?d ?e] =>
        destruct (determine a b c d e) as [[ys err] log]
    end; reflexivity.
Qed.

Lemma read_min_number g a : _min g = Number a -> _min (snd (read g)) = Number a.
Proof.
  destruct g as [b ms mx mn evs [d|]]; [trivial|].
  cbn [_min]. intros ->. cbn [read].
  destruct mx as [v|gm]; [|destruct (read gm) as [[dm|e] gm']];
    cbn [bind]; try reflexivity;
    try destruct (lines_of_determination (TIME b) dm); try reflexivity;
    match goal with
    | |- context [determine ?a ?b ?c ?d ?e] =>
        destruct (determine a b c d e) as [[ys err] log]
    end; reflexivity.
Qed.

Lemma get_numbers t g a c :
  _max g = Number a -> _min g = Number c ->
  _max (snd (get t g)) = Number a /\ _min (snd (get t g)) = Number c.
Proof.
  intros A C. unfold get, _value_and_velocity.
  pose proof (read_max_number g a A). pose proof (read_min_number g c C).
  destruct (read g). auto.
Qed.

Lemma del_slice_all {A} (l : list A) : del_slice 0 (length l) l = [].
Proof. unfold del_slice. cbn [firstn app Nat.max]. apply skipn_all. Qed.

(** X15: [clear_momenta] empties the momenta and rebases the gauge to
    the given value, or to its value at that time when none is given;
    between two numbers the gauge is constant from then on: [get]
    returns that value at every time, whatever events the log still
    holds. *)
Theorem clear_momenta_constant (g : Gauge) (value : option Q) (at_ a c t : Q) :
  wf g -> _max g = Number a -> _min g = Number c ->
  exists v y,
    fst (clear_momenta value at_ g) = Ok v
    /\ match value with
       | Some x => v = x
       | None => fst (get at_ g) = Ok v
       end
    /\ momenta (snd (clear_momenta value at_ g)) = []
    /\ base (snd (clear_momenta value at_ g)) = (at_, v)
    /\ determination (snd (clear_momenta value at_ g)) = Ok [(at_, y)]
    /\ fst (get t (snd (clear_momenta value at_ g))) = Ok y
    /\ y == v
    /\ fst (velocity_at t (snd (clear_momenta value at_ g))) = Ok 0.
Proof.
  intros W A C.
  assert (K : forall v h, _max h = Number a -> _min h = Number c ->
                exists y,
                  let r := _coerce_and_remove_momenta v at_ 0
                             (length (momenta h)) h in
                  fst r = Ok v /\ momenta (snd r) = []
                  /\ base (snd r) = (at_, v)
                  /\ determination (snd r) = Ok [(at_, y)]
                  /\ fst (get t (snd r)) = Ok y /\ y == v
                  /\ fst (velocity_at t (snd r)) = Ok 0).
  { intros v h Ah Ch. cbv zeta.
    unfold _coerce_and_remove_momenta. cbn [fst snd].
    rewrite del_slice_all, Ah, Ch.
    destruct (constant_gauge (at_, v) a c (_events h) t) as (y & D & E & G & V).
    exists y. repeat split; assumption. }
  unfold clear_momenta. destruct value as [x|].
  - destruct (K x g A C) as (y & H). cbv zeta in H.
    exists x, y. intuition.
  - destruct (get_wf at_ g W) as [[v G] _].
    destruct (get_numbers at_ g a c A C) as [A' C'].
    destruct (get at_ g) as [r g']. cbn [fst snd] in *. subst r.
    destruct (K v g' A' C') as (y & H). cbv zeta in H.
    exists v, y. intuition.
Qed.

Lemma clear_momenta_constant_witness :
  exists v y,
    fst (clear_momenta None 2 up_and_down) = Ok v
    /\ fst (get 2 up_and_down) = Ok v
    /\ momenta (snd (clear_momenta None 2 up_and_down)) = []
    /\ base (snd (clear_momenta None 2 up_and_down)) = (2, v)
    /\ determination (snd (clear_momenta None 2 up_and_down)) = Ok [(2, y)]
    /\ fst (get 7 (snd (clear_momenta None 2 up_and_down))) = Ok y
    /\ y == v
    /\ fst (velocity_at 7 (snd (clear_momenta None 2 up_and_down))) = Ok 0.
Proof.
  apply (clear_momenta_constant up_and_down None 2 10 0 7).
  - vm_compute. repeat split; try discriminate; repeat constructor.
  - reflexivity.
  - reflexivity.
Defined.

(** * Pickling *)

Lemma insort_permutation {A} (lt : A -> A -> bool) x l :
  Permutation (insort lt x l) (l ++ [x]).
Proof.
  destruct (insort_split lt x l) as (l1 & l2 & -> & -> & _).
  rewrite <- app_assoc. apply Permutation_app_head.
  change (x :: l2) with ([x] ++ l2). apply Permutation_app_comm.
Qed.

Lemma events_add_momentum m evs :
  Permutation
    (let es := events_add (m_since m, ADD, m) evs in
     if Teqb (m_until m) PInf then es
     else events_add (m_until m, REMOVE, m) es)
    (evs ++ events_of m).
Proof.
  cbv zeta. unfold events_add, events_of.
  destruct (Teqb (m_until m) PInf).
  - apply insort_permutation.
  - etransitivity; [apply insort_permutation|].
    change (evs ++ [(m_since m, ADD, m); (m_until m, REMOVE, m)])
      with (evs ++ [(m_since m, ADD, m)] ++ [(m_until m, REMOVE, m)]).
    rewrite app_assoc. apply Permutation_app_tail, insort_permutation.
Qed.

Lemma sorted_before {A} (R : A -> A -> Prop) l1 x l2 :
  StronglySorted R (l1 ++ x :: l2) -> forall y, In y l1 -> R y x.
Proof.
  induction l1 as [|a r IH]; intros S y Hy; [contradiction|].
  inversion S as [|? ? Sr Ha]; subst.
  destruct Hy as [<-|Hy]; [|apply IH; assumption].
  rewrite Forall_forall in Ha. apply Ha, in_elt.
Qed.

(** A momentum that ends no earlier than the ones present goes to the
    end of the list. *)
Lemma momenta_add_last m pre :
  (forall y, In y pre -> Tleb (m_until y) (m_until m) = true) ->
  momenta_add m pre = pre ++ [m].
Proof.
  intros H. unfold momenta_add.
  rewrite <- (app_nil_r pre) at 1. rewrite insort_skip; [reflexivity|].
  intros y Hy. unfold key_lt, Tltb. rewrite (H y Hy). reflexivity.
Qed.

(** The loop of [__setstate__] over momenta in the order of the sorted
    container. *)
Lemma add_momenta_sorted : forall rest g,
  key_sorted (momenta g ++ rest) ->
  Forall (fun m => valid_momentum m = true) rest ->
  exists g',
    add_momenta
      (map (fun m => (m_velocity m, m_since m, m_until m)) rest) g
    = (Ok tt, g')
    /\ base g' = base g /\ _max g' = _max g /\ _min g' = _min g
    /\ momenta g' = momenta g ++ rest
    /\ (_determination g = None -> _determination g' = None)
    /\ Permutation (_events g') (_events g ++ flat_map events_of rest)
    /\ (wf g -> Forall begins_before_end rest -> wf g').
Proof.
  induction rest as [|m r IH]; intros g KS V.
  - exists g. cbn [map add_momenta flat_map]. rewrite !app_nil_r.
    repeat split; auto.
  - inversion V as [|? ? Vm Vr]; subst.
    cbn [map add_momenta]. unfold momentum.
    replace (mkMomentum (m_velocity m) (m_since m) (m_until m)) with m
      by (destruct m; reflexivity).
    pose proof (wf_add_momentum m g) as WA.
    unfold add_momentum, _make_momentum in *. rewrite Vm in *.
    cbn [fst snd] in *.
    rewrite (momenta_add_last m (momenta g)) in *
      by (apply (sorted_before _ _ _ _ KS)).
    match goal with
    | |- context [add_momenta _ ?h] => set (g1 := h) in *
    end.
    destruct (IH g1) as (g' & E & B & X & N & M & D & P & W).
    { cbn [g1 momenta]. rewrite <- app_assoc. exact KS. }
    { exact Vr. }
    exists g'. split; [exact E|]. cbn [g1 base _max _min momenta] in *.
    split; [exact B|]. split; [exact X|]. split; [exact N|].
    split; [rewrite M, <- app_assoc; reflexivity|].
    split; [intros _; apply D; reflexivity|].
    split.
    + etransitivity; [exact P|]. cbn [g1 _events flat_map].
      rewrite app_assoc. apply Permutation_app_tail.
      apply events_add_momentum.
    + intros Wg F. inversion F as [|? ? Fm Fr]; subst.
      apply W; [|exact Fr]. apply WA; assumption.
Qed.

(** X16: what [__getstate__] saves, [__setstate__] restores: the base,
    the two limits and the momenta, in the same order; the cached
    determination is gone, and the log is rebuilt from the momenta
    alone, so entries of momenta removed earlier are not carried over. *)
Theorem setstate_getstate (g : Gauge) :
  key_sorted (momenta g) ->
  Forall (fun m => valid_momentum m = true) (momenta g) ->
  exists g',
    __setstate__ (__getstate__ g) = (Ok tt, g')
    /\ base g' = base g /\ _max g' = _max g /\ _min g' = _min g
    /\ momenta g' = momenta g
    /\ _determination g' = None
    /\ Permutation (_events g') (flat_map events_of (momenta g))
    /\ (wf g -> Forall begins_before_end (momenta g) -> wf g').
Proof.
  intros KS V. unfold __setstate__, __getstate__.
  set (g0 := new_gauge (VALUE (base g)) (_max g) (_min g) (TIME (base g))).
  destruct (add_momenta_sorted (momenta g) g0 KS V)
    as (g' & E & B & X & N & M & D & P & W).
  exists g'. split; [exact E|].
  split; [rewrite B; cbn; destruct (base g); reflexivity|].
  split; [exact X|]. split; [exact N|]. split; [exact M|].
  split; [apply D; reflexivity|]. split; [exact P|].
  intros Wg F. apply W; [|exact F].
  apply wf_fields in Wg as (_ & _ & _ & _ & _ & WX & WN).
  apply wf_new_gauge; assumption.
Qed.

Lemma setstate_getstate_witness :
  exists g',
    __setstate__ (__getstate__ up_and_down) = (Ok tt, g')
    /\ base g' = base up_and_down
    /\ _max g' = _max up_and_down
    /\ _min g' = _min up_and_down
    /\ momenta g' = momenta up_and_down
    /\ _determination g' = None
    /\ Permutation (_events g')
         (flat_map events_of (momenta up_and_down))
    /\ (wf up_and_down ->
        Forall begins_before_end (momenta up_and_down) -> wf g').
Proof.
  apply (setstate_getstate up_and_down).
  - vm_compute. repeat constructor.
  - vm_compute. repeat constructor.
Defined.

(** * Limits *)

Lemma get_max_base t g : base (snd (get_max t g)) = base g.
Proof.
  unfold get_max. destruct g as [b ms mx mn evs c]; cbn.
  destruct mx as [v|l]; [reflexivity|].
  destruct (get t l); reflexivity.
Qed.

Lemma get_min_base t g : base (snd (get_min t g)) = base g.
Proof.
  unfold get_min. destruct g as [b ms mx mn evs c]; cbn.
  destruct mn as [v|l]; [reflexivity|].
  destruct (get t l); reflexivity.
Qed.

(** X17: on a well-formed gauge [clamp] never raises and changes neither
    the base nor the momenta.  A value within the limits comes back as
    it is; when the minimum is not above the maximum the result lies
    between the two; a value above the maximum gives the maximum without
    a look at the minimum. *)
Theorem clamp_within_limits (g : Gauge) (value t : Q) :
  wf g ->
  exists M m y,
    fst (get_max t g) = Ok M
    /\ fst (get_min t (snd (get_max t g))) = Ok m
    /\ fst (clamp value t g) = Ok y
    /\ (M < value -> y = M)
    /\ (value <= M -> value < m -> y = m)
    /\ (m <= value -> value <= M -> y = value)
    /\ (m <= M -> m <= y /\ y <= M)
    /\ base (snd (clamp value t g)) = base g
    /\ momenta (snd (clamp value t g)) = momenta g.
Proof.
  intros W.
  destruct (get_max_wf t g W) as [[M HM] W1].
  destruct (get_min_wf t _ W1) as [[m Hm] _].
  pose proof (get_max_base t g) as B1.
  pose proof (get_max_momenta t g) as M1.
  pose proof (get_min_base t (snd (get_max t g))) as B2.
  pose proof (get_min_momenta t (snd (get_max t g))) as M2.
  unfold clamp.
  destruct (get_max t g) as [r1 g1]. cbn [fst snd] in *. subst r1.
  destruct (get_min t g1) as [r2 g2]. cbn [fst snd] in *. subst r2.
  exists M, m.
  destruct (Qltb M value) eqn:A; [|destruct (Qltb value m) eqn:C];
    cbn [fst snd]; qb; eexists;
    (split; [reflexivity|]); (split; [reflexivity|]);
    (split; [reflexivity|]);
    repeat split; intros; try reflexivity; try lra; congruence.
Qed.

Lemma clamp_within_limits_witness :
  exists M m y,
    fst (get_max 2 scenario_E_min0) = Ok M
    /\ fst (get_min 2 (snd (get_max 2 scenario_E_min0))) = Ok m
    /\ fst (clamp 20 2 scenario_E_min0) = Ok y
    /\ (M < 20 -> y = M)
    /\ (20 <= M -> 20 < m -> y = m)
    /\ (m <= 20 -> 20 <= M -> y = 20)
    /\ (m <= M -> m <= y /\ y <= M)
    /\ base (snd (clamp 20 2 scenario_E_min0)) = base scenario_E_min0
    /\ momenta (snd (clamp 20 2 scenario_E_min0)) = momenta scenario_E_min0.
Proof.
  apply (clamp_within_limits scenario_E_min0 20 2).
  vm_compute. repeat split; try discriminate; repeat constructor.
Defined.

Lemma wf_with_max g x :
  wf g -> match x with Number _ => True | Bound l => wf l end ->
  wf (with_max g x).
Proof.
  intros W X. apply wf_fields in W as (KS & TS & BA & FR & WC & _ & WN).
  apply wf_fields. cbn. repeat split; assumption.
Qed.

Lemma wf_with_min g x :
  wf g -> match x with Number _ => True | Bound l => wf l end ->
  wf (with_min g x).
Proof.
  intros W X. apply wf_fields in W as (KS & TS & BA & FR & WC & WX & _).
  apply wf_fields. cbn. repeat split; assumption.
Qed.

(** X18: [set_max] to a number with [clamp] on a well-formed gauge.  The
    value at [at] is read with the new maximum in place (from the cached
    determination, if there is one); when it exceeds the maximum the
    gauge is rebased to the maximum at [at], the momenta that ended
    before go, and [get] there returns the maximum; otherwise base and
    momenta stay.  In both cases the cached determination is gone. *)
Theorem set_max_clamp (g : Gauge) (M t : Q) :
  wf g ->
  exists v,
    fst (get t (with_max g (Number M))) = Ok v
    /\ fst (set_max (Number M) true t g) = Ok tt
    /\ _max (snd (set_max (Number M) true t g)) = Number M
    /\ _determination (snd (set_max (Number M) true t g)) = None
    /\ (M < v ->
        base (snd (set_max (Number M) true t g)) = (t, M)
        /\ momenta (snd (set_max (Number M) true t g))
           = filter (fun m => negb (forgotten t m)) (momenta g)
        /\ exists y,
             fst (get t (snd (set_max (Number M) true t g))) = Ok y
             /\ y == M)
    /\ (v <= M ->
        base (snd (set_max (Number M) true t g)) = base g
        /\ momenta (snd (set_max (Number M) true t g)) = momenta g).
Proof.
  intros W.
  assert (W0 : wf (with_max g (Number M))) by (apply wf_with_max; [exact W | exact I]).
  destruct (get_wf t _ W0) as [[v G] W1].
  pose proof (get_base t (with_max g (Number M))) as B1.
  pose proof (get_momenta t (with_max g (Number M))) as M1.
  pose proof (read_max_number (with_max g (Number M)) M) as X1.
  unfold set_max, _set_limits.
  assert (E : snd (get t (with_max g (Number M)))
              = snd (read (with_max g (Number M)))).
  { unfold get, _value_and_velocity. destruct (read _); reflexivity. }
  rewrite E in *. clear E.
  destruct (get t (with_max g (Number M))) as [r g1] eqn:Eg.
  assert (E1 : g1 = snd (read (with_max g (Number M)))).
  { unfold get, _value_and_velocity in Eg.
    destruct (read (with_max g (Number M))). injection Eg as _ <-. reflexivity. }
  cbn [fst snd] in *. subst r. rewrite <- E1 in *. clear E1.
  specialize (X1 ltac:(destruct g; reflexivity)).
  exists v. split; [reflexivity|].
  unfold get_max. rewrite X1.
  assert (NV : Qltb v v = false) by (apply Qltb_ge, Qle_refl).
  rewrite NV.
  destruct (Qltb M v) eqn:A; cbn [fst snd]; qb.
  - split; [reflexivity|]. split; [exact X1|]. split; [reflexivity|].
    split; [|intros; lra]. intros _.
    split; [reflexivity|]. split.
    + cbn [forget_past _coerce_and_remove_momenta snd momenta].
      rewrite M1. destruct g as [b ms mx mn evs c]. cbn [with_max momenta].
      apply forget_past_slice. cbn in W. apply W.
    + apply get_after_rebase, W1.
  - split; [reflexivity|]. split; [exact X1|]. split; [reflexivity|].
    split; [intros; lra|]. intros _. cbn [invalidate base momenta].
    rewrite B1, M1. destruct g; split; reflexivity.
Qed.

Lemma set_max_clamp_witness :
  exists v,
    fst (get 4 (with_max up_and_down (Number 3))) = Ok v
    /\ fst (set_max (Number 3) true 4 up_and_down) = Ok tt
    /\ _max (snd (set_max (Number 3) true 4 up_and_down)) = Number 3
    /\ _determination (snd (set_max (Number 3) true 4 up_and_down)) = None
    /\ (3 < v ->
        base (snd (set_max (Number 3) true 4 up_and_down)) = (4, 3)
        /\ momenta (snd (set_max (Number 3) true 4 up_and_down))
           = filter (fun m => negb (forgotten 4 m)) (momenta up_and_down)
        /\ exists y,
             fst (get 4 (snd (set_max (Number 3) true 4 up_and_down))) = Ok y
             /\ y == 3)
    /\ (v <= 3 ->
        base (snd (set_max (Number 3) true 4 up_and_down)) = base up_and_down
        /\ momenta (snd (set_max (Number 3) true 4 up_and_down))
           = momenta up_and_down).
Proof.
  apply (set_max_clamp up_and_down 3 4).
  vm_compute. repeat split; try discriminate; repeat constructor.
Defined.

(** X19: [set_min] to a number with [clamp], in the same way: a value
    below the new minimum is raised to it by a rebase, a value at or
    above it leaves base and momenta alone. *)
Theorem set_min_clamp (g : Gauge) (m t : Q) :
  wf g ->
  exists v,
    fst (get t (with_min g (Number m))) = Ok v
    /\ fst (set_min (Number m) true t g) = Ok tt
    /\ _min (snd (set_min (Number m) true t g)) = Number m
    /\ _determination (snd (set_min (Number m) true t g)) = None
    /\ (v < m ->
        base (snd (set_min (Number m) true t g)) = (t, m)
        /\ momenta (snd (set_min (Number m) true t g))
           = filter (fun x => negb (forgotten t x)) (momenta g)
        /\ exists y,
             fst (get t (snd (set_min (Number m) true t g))) = Ok y
             /\ y == m)
    /\ (m <= v ->
        base (snd (set_min (Number m) true t g)) = base g
        /\ momenta (snd (set_min (Number m) true t g)) = momenta g).
Proof.
  intros W.
  assert (W0 : wf (with_min g (Number m))) by (apply wf_with_min; [exact W | exact I]).
  destruct (get_wf t _ W0) as [[v G] W1].
  pose proof (get_base t (with_min g (Number m))) as B1.
  pose proof (get_momenta t (with_min g (Number m))) as M1.
  pose proof (read_min_number (with_min g (Number m)) m) as X1.
  unfold set_min, _set_limits.
  assert (E : snd (get t (with_min g (Number m)))
              = snd (read (with_min g (Number m)))).
  { unfold get, _value_and_velocity. destruct (read _); reflexivity. }
  rewrite E in *. clear E.
  destruct (get t (with_min g (Number m))) as [r g1] eqn:Eg.
  assert (E1 : g1 = snd (read (with_min g (Number m)))).
  { unfold get, _value_and_velocity in Eg.
    destruct (read (with_min g (Number m))). injection Eg as _ <-. reflexivity. }
  cbn [fst snd] in *. subst r. rewrite <- E1 in *. clear E1.
  specialize (X1 ltac:(destruct g; reflexivity)).
  exists v. split; [reflexivity|].
  unfold get_min. rewrite X1.
  assert (NV : Qltb v v = false) by (apply Qltb_ge, Qle_refl).
  rewrite NV.
  destruct (Qltb v m) eqn:A; cbn [fst snd]; qb.
  - split; [reflexivity|]. split; [exact X1|]. split; [reflexivity|].
    split; [|intros; lra]. intros _.
    split; [reflexivity|]. split.
    + cbn [forget_past _coerce_and_remove_momenta snd momenta].
      rewrite M1. destruct g as [b ms mx mn evs c]. cbn [with_min momenta].
      apply forget_past_slice. cbn in W. apply W.
    + apply get_after_rebase, W1.
  - split; [reflexivity|]. split; [exact X1|]. split; [reflexivity|].
    split; [intros; lra|]. intros _. cbn [invalidate base momenta].
    rewrite B1, M1. destruct g; split; reflexivity.
Qed.

Lemma set_min_clamp_witness :
  exists v,
    fst (get 2 (with_min up_and_down (Number 3))) = Ok v
    /\ fst (set_min (Number 3) true 2 up_and_down) = Ok tt
    /\ _min (snd (set_min (Number 3) true 2 up_and_down)) = Number 3
    /\ _determination (snd (set_min (Number 3) true 2 up_and_down)) = None
    /\ (v < 3 ->
        base (snd (set_min (Number 3) true 2 up_and_down)) = (2, 3)
        /\ momenta (snd (set_min (Number 3) true 2 up_and_down))
           = filter (fun x => negb (forgotten 2 x)) (momenta up_and_down)
        /\ exists y,
             fst (get 2 (snd (set_min (Number 3) true 2 up_and_down))) = Ok y
             /\ y == 3)
    /\ (3 <= v ->
        base (snd (set_min (Number 3) true 2 up_and_down)) = base up_and_down
        /\ momenta (snd (set_min (Number 3) true 2 up_and_down))
           = momenta up_and_down).
Proof.
  apply (set_min_clamp up_and_down 3 2).
  vm_compute. repeat split; try discriminate; repeat constructor.
Defined.

(** * The vertices and the lines of a determination *)

(** The value of a determination at the time of one of its vertices. *)
Lemma value_at_vertex (d : list Vertex) :
  increasing d ->
  forall i ti vi t,
    nth_error d i = Some (ti, vi) -> t == ti ->
    exists vel, value_and_velocity_in d t = Ok (vi, vel).
Proof.
  intros Inc i ti vi t Hi E.
  destruct i as [|j].
  - destruct d as [|p rest]; [discriminate|].
    cbn [nth_error] in Hi. injection Hi as ->.
    rewrite value_before_first by (cbn; lra). eauto.
  - assert (Hj : exists tj vj, nth_error d j = Some (tj, vj)).
    { destruct (nth_error d j) as [[tj vj]|] eqn:N; [eauto|].
      apply nth_error_None in N.
      assert (nth_error d (S j) = None) by (apply nth_error_None; lia).
      congruence. }
    destruct Hj as (tj & vj & Hj).
    pose proof (neighbours_in_order d Inc j tj vj ti vi Hj Hi) as LT.
    unfold value_and_velocity_in.
    match goal with
    | |- context [Nat.eqb ?a ?b] =>
        assert (Hlen : Nat.eqb a b = false)
          by (destruct d as [|p [|q r]];
              [discriminate Hi | destruct j; discriminate Hi | reflexivity]);
        rewrite Hlen
    end.
    rewrite (bisect_left_between d Inc j tj vj ti vi t Hj Hi)
      by (rewrite ?E; lra).
    rewrite Hi, Hj.
    unfold Line.get, Line.velocity.
    cbn [Line.since Line.until le_until Line._get].
    assert (A : Qle_bool tj t = true) by (apply Qle_bool_iff; lra).
    assert (B : Qle_bool t ti = true) by (apply Qle_bool_iff; lra).
    assert (C : Qeq_bool (ti - tj) 0 = false) by (apply Qeq_bool_false; lra).
    assert (D1 : Qeq_bool t tj = false) by (apply Qeq_bool_false; lra).
    assert (D2 : Qeq_bool t ti = true) by (apply Qeq_bool_iff, E).
    rewrite A, B, C, D1, D2. cbn [andb bind]. eauto.
Qed.

(** X20: every vertex of the determination is a point of the gauge:
    [get] at the time of a vertex returns the value of the vertex. *)
Theorem get_at_vertex (g : Gauge) (d : list Vertex) (t v : Q) :
  wf g -> determination g = Ok d -> In (t, v) d ->
  fst (get t g) = Ok v.
Proof.
  intros W D H.
  destruct (read_shaped g W) as (d' & R & [Inc _] & _).
  unfold determination in D. rewrite R in D. injection D as ->.
  destruct (reads_on g d t R) as [-> _].
  apply In_nth_error in H as [i Hi].
  destruct (value_at_vertex d Inc i t v t Hi (Qeq_refl t)) as [vel ->].
  reflexivity.
Qed.

Lemma get_at_vertex_witness : fst (get 4 up_and_down) = Ok 4.
Proof.
  apply (get_at_vertex up_and_down [(0, 0); (4, 4); (8, 0)] 4 4).
  - vm_compute. repeat split; try discriminate; repeat constructor.
  - vm_compute. reflexivity.
  - right. left. reflexivity.
Defined.

Lemma in_segments (d : list Vertex) l :
  In l (segments d) ->
  exists i t1 v1 t2 v2,
    nth_error d i = Some (t1, v1) /\ nth_error d (S i) = Some (t2, v2)
    /\ l = Segment t1 t2 v1 v2.
Proof.
  induction d as [|[t1 v1] [|[t2 v2] r] IH]; try contradiction.
  change (segments ((t1, v1) :: (t2, v2) :: r))
    with (Segment t1 t2 v1 v2 :: segments ((t2, v2) :: r)).
  intros [<-|H].
  - exists 0%nat, t1, v1, t2, v2. repeat split.
  - destruct (IH H) as (i & a & b & c & e & H1 & H2 & H3).
    exists (S i), a, b, c, e. repeat split; assumption.
Qed.

(** The value of a determination on one of its segments. *)
Lemma value_on_segment (d : list Vertex) i t1 v1 t2 v2 t y :
  increasing d ->
  nth_error d i = Some (t1, v1) -> nth_error d (S i) = Some (t2, v2) ->
  Line.get (Segment t1 t2 v1 v2) t = Ok y ->
  exists vel, value_and_velocity_in d t = Ok (y, vel).
Proof.
  intros Inc H1 H2 G.
  pose proof (neighbours_in_order d Inc i t1 v1 t2 v2 H1 H2) as LT.
  pose proof G as G0.
  apply get_in_range in G as (A & B & ->).
  cbn [Line.since Line.until le_until] in A, B. qb.
  destruct (Qeq_bool t t1) eqn:E; qb.
  - cbn [Line._get].
    assert (E' : Qeq_bool t t1 = true) by (apply Qeq_bool_iff, E).
    rewrite E'. apply (value_at_vertex d Inc i t1 v1 t H1 E).
  - unfold value_and_velocity_in.
    match goal with
    | |- context [Nat.eqb ?a ?b] =>
        assert (Hlen : Nat.eqb a b = false)
          by (destruct d as [|p [|q r]];
              [discriminate H2 | destruct i; discriminate H2 | reflexivity]);
        rewrite Hlen
    end.
    rewrite (bisect_left_between d Inc i t1 v1 t2 v2 t H1 H2) by lra.
    rewrite H2, H1, G0.
    assert (C : Qeq_bool (t2 - t1) 0 = false) by (apply Qeq_bool_false; lra).
    cbn [Line.velocity bind]. rewrite C. cbn [bind]. eauto.
Qed.

Lemma last_nth {A} (l : list A) (a : A) :
  l <> [] -> exists i, nth_error l i = Some (last l a).
Proof.
  intros N. apply In_nth_error.
  induction l as [|x [|y r] IH]; [contradiction | left; reflexivity |].
  right. apply IH. discriminate.
Qed.

(** The value of a determination on the lines that [walk_lines] makes of
    it. *)
Lemma value_on_line (t0 : Q) (d : list Vertex) lines l t y :
  increasing d ->
  lines_of_determination t0 d = Ok lines ->
  In l lines -> Line.get l t = Ok y ->
  exists vel, value_and_velocity_in d t = Ok (y, vel).
Proof.
  intros Inc L H G.
  destruct d as [|first rest]; [discriminate|].
  pose (lst := last (first :: rest) first).
  assert (EL : last (first :: rest) first = lst) by reflexivity.
  assert (L' : lines
               = (if Qltb t0 (TIME first)
                  then [Horizon t0 (At (TIME first)) (VALUE first)]
                  else [])
                 ++ segments (first :: rest)
                 ++ [Horizon (TIME lst) Forever (VALUE lst)]).
  { unfold lines_of_determination in L. injection L as <-. reflexivity. }
  clearbody lst. subst lines. clear L.
  apply in_app_or in H as [H|H]; [|apply in_app_or in H as [H|H]].
  - destruct (Qltb t0 (TIME first)); [|destruct H].
    destruct H as [<-|[]].
    apply get_in_range in G as (_ & B & ->).
    cbn [Line.until le_until Line._get] in *. qb.
    rewrite value_before_first by exact B. eauto.
  - destruct (in_segments _ _ H) as (i & t1 & v1 & t2 & v2 & H1 & H2 & ->).
    apply (value_on_segment _ i t1 v1 t2 v2 t y Inc H1 H2 G).
  - destruct H as [<-|[]].
    destruct (last_nth (first :: rest) first) as [i Hi]; [discriminate|].
    rewrite EL in Hi. destruct lst as [tl vl].
    apply get_in_range in G as (A & _ & ->).
    cbn [Line.since Line._get TIME VALUE fst snd] in *.
    destruct (Qeq_bool t tl) eqn:E; qb.
    + apply (value_at_vertex _ Inc i tl vl t Hi E).
    + rewrite value_after_last; rewrite ?EL; [eauto | exact Inc |].
      cbn [TIME fst]. lra.
Qed.

(** X21: the lines that [walk_lines] makes of a limit gauge follow that
    gauge: wherever one of them has a value, it is the value that [get]
    returns for the limit at that time. *)
Theorem walk_lines_follow_limit (t0 : Q) (limit : Gauge) (d : list Vertex)
  (lines : list Line) (l : Line) (t y : Q) :
  wf limit ->
  determination limit = Ok d ->
  lines_of_determination t0 d = Ok lines ->
  In l lines -> Line.get l t = Ok y ->
  fst (get t limit) = Ok y.
Proof.
  intros W D L H G.
  destruct (read_shaped limit W) as (d' & R & [Inc _] & _).
  unfold determination in D. rewrite R in D. injection D as ->.
  destruct (reads_on limit d t R) as [-> _].
  destruct (value_on_line t0 d lines l t y Inc L H G) as [vel ->].
  reflexivity.
Qed.

Lemma walk_lines_follow_limit_witness :
  fst (get 2 scenario_E_max) = Ok (15 + ((2 - 0) / (5 - 0)) * (10 - 15)).
Proof.
  apply (walk_lines_follow_limit 0 scenario_E_max [(0, 15); (5, 10)]
           [Segment 0 5 15 10; Horizon 5 Forever 10] (Segment 0 5 15 10) 2).
  - vm_compute. repeat split; try discriminate; repeat constructor.
  - vm_compute. reflexivity.
  - vm_compute. reflexivity.
  - left. reflexivity.
  - vm_compute. reflexivity.
Defined.

(** X22: the lines that [walk_lines] yields for a limit, a number or a
    well-formed gauge, leave no gap: the first has begun by the base
    time, each one begins where the one before ends, each begins before
    it ends, and the last one never ends; so the determiner never asks
    for a line after the last. *)
Theorem walk_lines_chain (t0 : Q) (limit : Limit Gauge) :
  match limit with Number _ => True | Bound l => wf l end ->
  exists lines,
    match limit with
    | Number v => lines_of_number t0 v = lines
    | Bound l =>
        exists d, determination l = Ok d
                  /\ lines_of_determination t0 d = Ok lines
    end
    /\ well_bounded t0 lines
    /\ exists first, hd_error lines = Some first /\ Line.since first <= t0
    /\ Line.until (last lines first) = Forever.
Proof.
  intros W.
  assert (K : forall lines, well_bounded t0 lines ->
            exists first, hd_error lines = Some first /\ Line.since first <= t0
            /\ Line.until (last lines first) = Forever).
  { intros [|first rest]; [contradiction|]. intros [C S].
    exists first. split; [reflexivity|]. split; [exact S|].
    clear S. revert first C.
    induction rest as [|x r IH]; intros first C.
    - destruct C as [_ C]. exact C.
    - destruct C as (_ & _ & C).
      change (last (first :: x :: r) first) with (last (x :: r) first).
      rewrite (last_default (x :: r) first x) by discriminate.
      apply IH, C. }
  destruct limit as [v|l].
  - exists (lines_of_number t0 v). split; [reflexivity|].
    pose proof (lines_of_number_bounded t0 v) as B. split; [exact B|].
    apply K, B.
  - destruct (read_shaped l W) as (d & R & [Inc (p & rest & E & _)] & _).
    destruct (lines_of_determination_bounded t0 d Inc) as (lines & L & B).
    { rewrite E. discriminate. }
    exists lines. split; [exists d; split; assumption|].
    split; [exact B|]. apply K, B.
Qed.

Lemma walk_lines_chain_witness :
  exists lines,
    (exists d, determination scenario_E_max = Ok d
               /\ lines_of_determination 0 d = Ok lines)
    /\ well_bounded 0 lines
    /\ exists first, hd_error lines = Some first /\ Line.since first <= 0
    /\ Line.until (last lines first) = Forever.
Proof.
  apply (walk_lines_chain 0 (Bound scenario_E_max)).
  vm_compute. repeat split; try discriminate; repeat constructor.
Defined.

(** * What every method keeps *)

Lemma wf_forget_past value t g : wf g -> wf (snd (forget_past value t g)).
Proof.
  intros W. destruct value as [v|]; [apply wf_rebase, W|].
  unfold forget_past.
  destruct (get_wf t g W) as [[v G] W1].
  pose proof (get_momenta t g) as GM.
  destruct (get t g) as [r g1]. cbn [fst snd] in *. subst r.
  rewrite <- GM. apply (wf_rebase v t g1 W1).
Qed.

Lemma wf_coerce v t g :
  wf g ->
  wf (snd (_coerce_and_remove_momenta v t 0 (length (momenta g)) g)).
Proof.
  intros W. apply wf_fields in W as (KS & TS & BA & FR & _ & WX & WN).
  apply wf_fields. unfold _coerce_and_remove_momenta.
  cbn [snd momenta _events _determination _max _min base].
  rewrite del_slice_all.
  repeat split; try assumption. constructor.
Qed.

Lemma wf_clear_momenta value t g : wf g -> wf (snd (clear_momenta value t g)).
Proof.
  intros W. unfold clear_momenta. destruct value as [v|]; [apply wf_coerce, W|].
  destruct (get_wf t g W) as [[v G] W1].
  destruct (get t g) as [r g1]. cbn [fst snd] in *. subst r.
  apply wf_coerce, W1.
Qed.

Lemma wf_set value over clamp t g : wf g -> wf (snd (set value over clamp t g)).
Proof.
  intros W. unfold set.
  destruct (get_wf t g W) as [[v G] W1].
  destruct (get t g) as [r g1]. cbn [fst snd] in *. subst r.
  apply wf_incr, W1.
Qed.

Lemma wf_set_limits max min clamp t g :
  wf g ->
  match max with Some (Bound l) => wf l | _ => True end ->
  match min with Some (Bound l) => wf l | _ => True end ->
  wf (snd (_set_limits max min clamp t g)).
Proof.
  intros W X N. unfold _set_limits.
  set (g0 := match min with
             | Some x => with_min (match max with
                                   | Some x0 => with_max g x0
                                   | None => g
                                   end) x
             | None => match max with
                       | Some x0 => with_max g x0
                       | None => g
                       end
             end).
  assert (W0 : wf g0).
  { subst g0. destruct max as [[a|l]|], min as [[c|l']|];
      repeat first [apply wf_with_min | apply wf_with_max]; auto. }
  destruct clamp; [|apply wf_invalidate, W0].
  destruct (get_wf t g0 W0) as [[v G] W1].
  destruct (get t g0) as [r g1]. cbn [fst snd] in *. subst r.
  assert (S2 : exists M g2,
             match max with
             | Some _ => get_max t g1
             | None => (Ok v, g1)
             end = (Ok M, g2) /\ wf g2).
  { destruct max as [x|]; [|eauto].
    destruct (get_max_wf t g1 W1) as [[M HM] W2].
    destruct (get_max t g1) as [r g2]. cbn [fst snd] in *. subst r. eauto. }
  destruct S2 as (M & g2 & -> & W2).
  assert (S3 : exists m g3,
             match min with
             | Some _ => get_min t g2
             | None => (Ok v, g2)
             end = (Ok m, g3) /\ wf g3).
  { destruct min as [x|]; [|eauto].
    destruct (get_min_wf t g2 W2) as [[m Hm] W3].
    destruct (get_min t g2) as [r g3]. cbn [fst snd] in *. subst r. eauto. }
  destruct S3 as (m & g3 & -> & W3).
  destruct (Qltb M v); [apply wf_rebase, W3|].
  destruct (Qltb v m); [apply wf_rebase, W3|].
  apply wf_invalidate, W3.
Qed.

Lemma wf_clamp value t g : wf g -> wf (snd (clamp value t g)).
Proof.
  intros W. unfold clamp.
  destruct (get_max_wf t g W) as [[M HM] W1].
  destruct (get_max t g) as [r g1]. cbn [fst snd] in *. subst r.
  destruct (Qltb M value); [exact W1|].
  destruct (get_min_wf t g1 W1) as [[m Hm] W2].
  destruct (get_min t g1) as [r g2]. cbn [fst snd] in *. subst r.
  destruct (Qltb value m); exact W2.
Qed.

(** X23: every method of the facade leaves a well-formed gauge well
    formed: the momenta stay sorted by [until], the log stays in time
    order with every removal after its addition, and a determination in
    the cache is one that begins at the base with increasing times. *)
Theorem methods_keep_wf (g : Gauge) :
  wf g ->
  (forall m, begins_before_end m -> wf (snd (add_momentum m g)))
  /\ (forall m, wf (snd (remove_momentum m g)))
  /\ (forall value t, wf (snd (forget_past value t g)))
  /\ (forall value t, wf (snd (clear_momenta value t g)))
  /\ (forall delta over clamp t, wf (snd (incr delta over clamp t g)))
  /\ (forall delta over clamp t, wf (snd (decr delta over clamp t g)))
  /\ (forall value over clamp t, wf (snd (set value over clamp t g)))
  /\ (forall x clamp t,
        match x with Number _ => True | Bound l => wf l end ->
        wf (snd (set_max x clamp t g)) /\ wf (snd (set_min x clamp t g)))
  /\ (forall t, wf (snd (get t g)) /\ wf (snd (velocity_at t g)))
  /\ (forall value t, wf (snd (clamp value t g)))
  /\ (forall goal n, wf (snd (whenever goal g)) /\ wf (snd (when goal n g))).
Proof.
  intros W.
  assert (R : wf (snd (read g))) by (apply read_wf, W).
  split; [intros m B; apply wf_add_momentum; assumption|].
  split; [intros m; apply wf_remove_momentum, W|].
  split; [intros; apply wf_forget_past, W|].
  split; [intros; apply wf_clear_momenta, W|].
  split; [intros; apply wf_incr, W|].
  split; [intros; apply wf_incr, W|].
  split; [intros; apply wf_set, W|].
  split.
  { intros x c t X. split; apply wf_set_limits; try exact W; try exact I;
      destruct x; exact X. }
  split.
  { intros t. split; [apply get_wf, W|].
    unfold velocity_at, _value_and_velocity. destruct (read g); exact R. }
  split; [intros; apply wf_clamp, W|].
  intros goal n.
  assert (Wh : wf (snd (whenever goal g))).
  { unfold whenever. destruct (read g); exact R. }
  split; [exact Wh|].
  unfold when. destruct (whenever goal g) as [[l|e] g']; [|exact Wh].
  destruct (nth_error l n); exact Wh.
Qed.

Lemma methods_keep_wf_witness :
  (forall m, begins_before_end m -> wf (snd (add_momentum m up_and_down)))
  /\ (forall m, wf (snd (remove_momentum m up_and_down)))
  /\ (forall value t, wf (snd (forget_past value t up_and_down)))
  /\ (forall value t, wf (snd (clear_momenta value t up_and_down)))
  /\ (forall delta over clamp t, wf (snd (incr delta over clamp t up_and_down)))
  /\ (forall delta over clamp t, wf (snd (decr delta over clamp t up_and_down)))
  /\ (forall value over clamp t, wf (snd (set value over clamp t up_and_down)))
  /\ (forall x clamp t,
        match x with Number _ => True | Bound l => wf l end ->
        wf (snd (set_max x clamp t up_and_down))
        /\ wf (snd (set_min x clamp t up_and_down)))
  /\ (forall t, wf (snd (get t up_and_down))
                /\ wf (snd (velocity_at t up_and_down)))
  /\ (forall value t, wf (snd (clamp value t up_and_down)))
  /\ (forall goal n, wf (snd (whenever goal up_and_down))
                     /\ wf (snd (when goal n up_and_down))).
Proof.
  apply (methods_keep_wf up_and_down).
  vm_compute. repeat split; try discriminate; repeat constructor.
Defined.

(** * The cache *)



(** * [add_momentum] *)


(** * The comparisons of a boundary *)

(** X26: [best] is the choice that goes with [cmp]: of two values it
    returns one of them, and neither of the two is on the far side of it
    ([cmp_inv]); [cmp_inv] of one boundary is [cmp] of the other, and
    [cmp_eq] is what [cmp_inv] excludes. *)
Theorem best_agrees_with_cmp (b : Side) (x y : Q) :
  (Boundary.best b x y = x \/ Boundary.best b x y = y)
  /\ cmp_inv b (Boundary.best b x y) x = false
  /\ cmp_inv b (Boundary.best b x y) y = false
  /\ cmp_inv b x y = Boundary.cmp (opposite b) x y
  /\ Boundary.cmp_eq b x y = negb (cmp_inv b x y).
Proof.
  assert (K : forall u v, cmp_inv b u v = Boundary.cmp (opposite b) u v).
  { intros u v. unfold cmp_inv, Boundary.cmp.
    destruct b; cbn [opposite];
      destruct (Qeq_bool u v) eqn:E1; destruct (Qltb u v) eqn:E2;
      destruct (Qltb v u) eqn:E3; qb; try reflexivity; exfalso; lra. }
  split; [|split; [|split; [|split]]].
  - destruct b; cbn [Boundary.best]; unfold pymin, pymax;
      destruct (Qltb _ _); auto.
  - rewrite K. destruct b; cbn [Boundary.best opposite Boundary.cmp].
    + destruct (pymin_cases x y) as [[? ->]|[? ->]]; apply Qltb_ge; lra.
    + destruct (pymax_cases x y) as [[? ->]|[? ->]]; apply Qltb_ge; lra.
  - rewrite K. destruct b; cbn [Boundary.best opposite Boundary.cmp].
    + destruct (pymin_cases x y) as [[? ->]|[? ->]]; apply Qltb_ge; lra.
    + destruct (pymax_cases x y) as [[? ->]|[? ->]]; apply Qltb_ge; lra.
  - apply K.
  - unfold Boundary.cmp_eq, cmp_inv.
    destruct (Qeq_bool x y), (Boundary.cmp b x y); reflexivity.
Qed.

(** * Adding and removing *)

Lemma add_remove_when_absent_witness :
  let g := new_gauge 0 (Number 10) (Number 0) 0 in
  let r1 := add_momentum one_momentum g in
  let r2 := remove_momentum one_momentum (after r1) in
  fst r1 = Ok one_momentum /\ fst r2 = Ok tt
  /\ momenta (after r2) = momenta g
  /\ determination (after r2) = determination (invalidate g).
Proof.
  apply (add_remove_when_absent (new_gauge 0 (Number 10) (Number 0) 0)
           one_momentum); reflexivity.
Defined.

(** * A gauge between two numbers stays between them *)

Lemma inside_eq M m x y : x == y -> inside M m x -> inside M m y.
Proof. unfold inside. intros E [A B]. split; lra. Qed.

Lemma inside_limit M m b x : inside M m x -> inside M m (limit_of M m b).
Proof. unfold inside. intros [A B]. destruct b; cbn; split; lra. Qed.

Lemma Umin_Forever_l U : Umin Forever U = U.
Proof. destruct U; reflexivity. Qed.

(** The line of a boundary between two numbers. *)
Lemma line_between M m s b :
  between_numbers M m s ->
  exists tb,
    line (boundary_of s b) = Horizon tb Forever (limit_of M m b)
    /\ tb <= since s.
Proof.
  intros (tc & tf & C & F & Lc & Lf).
  destruct b; cbn [boundary_of limit_of];
    [rewrite C; exists tc | rewrite F; exists tf];
    (split; [reflexivity | assumption]).
Qed.

(** Where a ray meets a horizon it has the value of the horizon. *)
Lemma intersect_horizon s U v vel tb L t y :
  Line.intersect (Ray s U v vel) (Horizon tb Forever L) = Ok (t, y) ->
  y == L /\ s <= t /\ le_until t U = true.
Proof.
  intros H.
  destruct (intersect_inv _ _ _ _ H)
    as (va & vb & Va & Vb & N & T & A1 & B1 & A2 & B2 & ->).
  cbn in Va, Vb. injection Va as <-. injection Vb as <-.
  cbn [Line.since Line.until Line.value Line._get] in *.
  split; [|split; assumption].
  rewrite T. field. intros Z. apply N. rewrite Z. ring.
Qed.

Lemma find_intersection_inside M m s U vel bs :
  between_numbers M m s ->
  match find_intersection s (Ray (since s) U (value s) vel) bs with
  | Ok (Some (b, t, v')) =>
      v' == limit_of M m b /\ since s <= t /\ le_until t U = true
  | _ => True
  end.
Proof.
  intros B. induction bs as [|b rest IH]; [exact I|].
  cbn [find_intersection].
  destruct (line_between M m s b B) as (tb & -> & Lb).
  destruct (Line.intersect _ _) as [[t y]|e] eqn:E.
  - destruct (Qeq_bool t (since s)); [exact IH|].
    rewrite guess_horizon. cbn [bind].
    destruct (intersect_horizon _ _ _ _ _ _ _ _ E) as (Ey & A1 & A2).
    split; [|split; assumption].
    rewrite (best_same b y (limit_of M m b) Ey). exact Ey.
  - destruct (is_ValueError e); [exact IH | exact I].
Qed.

Lemma find_missing_inside M m s U vel bs :
  between_numbers M m s ->
  le_until (since s) U = true ->
  match find_missing s (Ray (since s) U (value s) vel) U bs with
  | Ok (Some (b, t, v')) => v' = limit_of M m b /\ U = At t
  | Ok None =>
      match U with
      | At u =>
          Forall (fun b => Boundary.cmp_eq b (value s + vel * (u - since s))
                             (limit_of M m b) = true) bs
      | Forever => True
      end
  | Raise _ => True
  end.
Proof.
  intros B L. induction bs as [|b rest IH].
  { cbn. destruct U; [constructor | exact I]. }
  cbn [find_missing].
  destruct (line_between M m s b B) as (tb & -> & Lb).
  cbn [Line.until]. rewrite Umin_Forever_l.
  destruct U as [u|]; [|exact IH].
  cbn [le_until] in L. qb.
  assert (N : Qltb u (since s) = false) by (apply Qltb_ge, L).
  rewrite N.
  rewrite (get_ok (Horizon tb Forever (limit_of M m b)) u)
    by (cbn; first [lra | reflexivity]).
  rewrite (get_ok (Ray (since s) (At u) (value s) vel) u)
    by (cbn; first [lra | apply Qle_bool_iff, Qle_refl]).
  cbn [bind Line._get].
  destruct (Boundary.cmp_eq b _ _) eqn:C.
  - destruct (find_missing _ _ _ rest) as [[[[b' t'] v']|]|e];
      try exact IH. constructor; assumption.
  - split; reflexivity.
Qed.

(** ** The invariant under the updates of the state *)

Lemma steady_velocity M m s v : steady M m s -> steady M m (with_velocity s v).
Proof. destruct s; exact (fun H => H). Qed.

Lemma steady_walked M m s a w : steady M m s -> steady M m (with_walked s a w).
Proof. destruct s; exact (fun H => H). Qed.

Lemma steady_velocities M m s vs :
  steady M m s -> steady M m (with_velocities s vs).
Proof. destruct s; exact (fun H => H). Qed.

Lemma between_later M m s s' :
  between_numbers M m s ->
  ceil s' = ceil s -> floor s' = floor s -> since s <= since s' ->
  between_numbers M m s'.
Proof.
  intros (tc & tf & C & F & Lc & Lf) EC EF L.
  exists tc, tf. rewrite EC, EF. repeat split; try assumption; lra.
Qed.

(** The gauge meets boundary [b] at [t] and is bound to it. *)
Lemma steady_bound M m s b a t v :
  steady M m s -> since s <= t -> v == limit_of M m b ->
  steady M m (move_and_yield (with_bound s (Some b) true a) t v).
Proof.
  intros (B & I & Y & _ & _) L E.
  assert (Iv : inside M m v).
  { apply (inside_eq M m (limit_of M m b)); [symmetry; exact E|].
    apply (inside_limit M m b _ I). }
  split; [|split; [|split; [|split]]].
  - apply (between_later M m s); [exact B | | | ]; destruct s; cbn; try reflexivity.
    exact L.
  - destruct s; exact Iv.
  - destruct s; cbn in *. apply Forall_app. split; [exact Y|].
    constructor; [exact Iv | constructor].
  - destruct s; cbn. intros b' [= <-]. split; [reflexivity | exact E].
  - destruct s; cbn. discriminate.
Qed.

(** The gauge goes on along the boundary that it is bound to. *)
Lemma steady_ride M m s b t :
  steady M m s -> bound s = Some b -> since s <= t ->
  steady M m (move_and_yield s t (limit_of M m b)).
Proof.
  intros St Eb L. pose proof St as (_ & _ & _ & Bd & _).
  destruct (Bd b Eb) as [O _].
  replace s with (with_bound s (Some b) true (again s))
    by (destruct s; cbn in *; subst; reflexivity).
  apply steady_bound; [|exact L | reflexivity].
  replace (with_bound s (Some b) true (again s)) with s
    by (destruct s; cbn in *; subst; reflexivity).
  exact St.
Qed.

(** The gauge goes on freely to a point within the limits. *)
Lemma steady_free M m s t v :
  steady M m s -> since s <= t -> inside M m v ->
  (forall b, bound s = Some b -> v == limit_of M m b) ->
  steady M m (move_and_yield s t v).
Proof.
  intros (B & I & Y & Bd & Ov) L Iv Ev.
  split; [|split; [|split; [|split]]].
  - apply (between_later M m s); [exact B | | | ]; destruct s; cbn; try reflexivity.
    exact L.
  - destruct s; exact Iv.
  - destruct s; cbn in *. apply Forall_app. split; [exact Y|].
    constructor; [exact Iv | constructor].
  - intros b Eb.
    assert (Eb' : bound s = Some b) by (destruct s; exact Eb).
    destruct (Bd b Eb') as [O _]. split; [destruct s; exact O|].
    destruct s; cbn. apply Ev, Eb'.
  - intros O. assert (O' : overlapped s = true) by (destruct s; exact O).
    specialize (Ov O'). destruct s; exact Ov.
Qed.

(** The gauge is released from its boundary. *)
Lemma steady_release M m s a :
  steady M m s -> steady M m (with_bound s None false a).
Proof.
  intros (B & I & Y & _ & _).
  split; [|split; [|split; [|split]]].
  - apply (between_later M m s); [exact B | | | ]; destruct s; cbn; try reflexivity.
    apply Qle_refl.
  - destruct s; exact I.
  - destruct s; exact Y.
  - destruct s; cbn. discriminate.
  - destruct s; cbn. discriminate.
Qed.

Lemma steady_between M m s : steady M m s -> between_numbers M m s.
Proof. intros H. apply H. Qed.

Lemma steady_bound_inv M m s b :
  steady M m s -> bound s = Some b ->
  overlapped s = true /\ value s == limit_of M m b.
Proof. intros (_ & _ & _ & Bd & _). apply Bd. Qed.

Lemma steady_overlapped M m s :
  steady M m s -> overlapped s = true -> exists b, bound s = Some b.
Proof.
  intros (_ & _ & _ & _ & Ov) O. specialize (Ov O).
  destruct (bound s) as [b|]; [eauto | contradiction].
Qed.

(** ** One pass *)

Lemma looping_arrived_point M m u s :
  steady M m s -> since s == u -> looping M m (At u) s.
Proof.
  intros St E. split; [exact St|]. split.
  - cbn. apply Qle_bool_iff. lra.
  - intros _ LT. cbn in LT. qb. lra.
Qed.

Lemma follow_inside M m U s :
  steady M m s ->
  le_until (since s) U = true ->
  again s = false ->
  walked_boundaries s = [Ceil; Floor] ->
  pass_inside M m U (follow U s).
Proof.
  intros St L Ag Wk. pose proof (steady_between M m s St) as B.
  unfold follow. destruct (overlapped s) eqn:O.
  - destruct (steady_overlapped M m s St O) as [b Eb]. rewrite Eb.
    destruct (line_between M m s b B) as (tb & -> & Lb).
    cbn [Line.until]. rewrite Umin_Forever_l.
    destruct U as [u|].
    + cbn [le_until] in L. qb.
      rewrite get_ok by (cbn; first [lra | reflexivity]).
      cbn [Line._get pass_inside].
      apply looping_arrived_point; [|destruct s; reflexivity].
      apply steady_ride; assumption.
    + cbn [pass_inside arrived]. split; [exact St|]. split; [exact L | exact I].
  - assert (Nb : bound s = None).
    { destruct (bound s) as [b|] eqn:Eb; [|reflexivity].
      destruct (steady_bound_inv M m s b St Eb) as [O' _]. congruence. }
    pose proof (find_intersection_inside M m s U (velocity s)
                  (walked_boundaries s) B) as FI.
    destruct (find_intersection _ _ _) as [[[[b t] v]|]|e]; [| |exact I].
    + destruct FI as (Ev & A1 & A2). cbn [pass_inside].
      split; [apply steady_bound; assumption|].
      split; [destruct s; exact A2|].
      destruct s; cbn. discriminate.
    + rewrite Nb.
      pose proof (find_missing_inside M m s U (velocity s)
                    (walked_boundaries s) B L) as FM.
      destruct (find_missing _ _ _ _) as [[[[b t] v]|]|e]; [| |exact I].
      * destruct FM as [-> ->]. cbn [pass_inside].
        cbn [le_until] in L. qb.
        apply looping_arrived_point; [|destruct s; reflexivity].
        apply steady_bound; [exact St | exact L | reflexivity].
      * cbn [pass_inside]. split; [exact St|]. split; [exact L|].
        intros _ LT. split; [exact Nb|].
        destruct U as [u|]; [|exact I].
        rewrite Wk in FM.
        inversion FM as [|? ? Fc Fr]; subst.
        inversion Fr as [|? ? Ff _]; subst.
        unfold final_value, inside.
        unfold Boundary.cmp_eq, Boundary.cmp in Fc, Ff. cbn [limit_of] in Fc, Ff.
        apply orb_true_iff in Fc, Ff.
        split.
        -- destruct Ff as [Ff|Ff]; qb; lra.
        -- destruct Fc as [Fc|Fc]; qb; lra.
Qed.

Lemma advance_inside M m U s :
  steady M m s ->
  le_until (since s) U = true ->
  again s = false ->
  walked_boundaries s = [Ceil; Floor] ->
  pass_inside M m U (advance U s).
Proof.
  intros St L Ag Wk. pose proof (steady_between M m s St) as B.
  unfold advance.
  destruct (bound s) as [b|] eqn:Eb.
  - destruct (steady_bound_inv M m s b St Eb) as [O _]. rewrite O.
    destruct (line_between M m s b B) as (tb & El & Lb).
    rewrite El. cbn [Line.velocity bind].
    assert (O' : forall v, overlapped (with_velocity s v) = true)
      by (intros; destruct s; exact O).
    assert (Eb' : forall v, bound (with_velocity s v) = Some b)
      by (intros; destruct s; exact Eb).
    assert (El' : forall v, line (boundary_of (with_velocity s v) b)
                            = Horizon tb Forever (limit_of M m b)).
    { intros v. rewrite <- El. destruct s, b; reflexivity. }
    rewrite O', Eb', El'. cbn [Line.velocity].
    destruct (Boundary.cmp b _ 0).
    + cbn [pass_inside]. split; [apply steady_release, steady_velocity, St|].
      split; [destruct s; exact L|]. destruct s; cbn. discriminate.
    + apply follow_inside;
        [apply steady_velocity, St | destruct s; assumption ..].
  - assert (O : overlapped s = false).
    { destruct (overlapped s) eqn:O; [|reflexivity].
      destruct (steady_overlapped M m s St O) as [b Eb']. congruence. }
    assert (O' : forall v, overlapped (with_velocity s v) = false)
      by (intros; destruct s; exact O).
    rewrite O'.
    apply follow_inside;
      [apply steady_velocity, St | destruct s; assumption ..].
Qed.

Lemma Uleb_Forever U : Uleb U Forever = true.
Proof. destruct U; reflexivity. Qed.

Lemma body_inside M m U s :
  looping M m U s ->
  lt_until (since s) U = true ->
  pass_inside M m U (body U s).
Proof.
  intros (St & L & Ag) LT. unfold body.
  destruct (again s) eqn:A.
  - apply advance_inside;
      [apply steady_walked, St | destruct s; exact L
      | destruct s; reflexivity ..].
  - pose proof (steady_between M m s St) as B.
    destruct (line_between M m s Ceil B) as (tc & Ec & _).
    destruct (line_between M m s Floor B) as (tf & Ef & _).
    cbn [boundary_of] in Ec, Ef. rewrite Ec, Ef.
    cbn [Line.until]. rewrite Uleb_Forever. cbn [andb pass_inside arrived].
    destruct (Ag eq_refl LT) as [Nb F].
    split; [exact St|]. split; [exact L|].
    destruct U as [u|]; [|exact I].
    split; [exact F|]. intros N. contradiction.
Qed.

Lemma while_inside M m U : forall fuel s s',
  looping M m U s ->
  while fuel U s = Done s' ->
  arrived M m U s'.
Proof.
  induction fuel as [|fuel IH]; intros s s' Lo W; cbn [while] in W;
    destruct (lt_until (since s) U) eqn:LT; try discriminate.
  - injection W as <-. destruct Lo as (St & L & _).
    split; [exact St|]. split; [exact L|].
    destruct U as [u|]; [|exact I]. cbn in L, LT. qb.
    assert (E : since s == u) by lra.
    split; [|intros _; exact E].
    apply (inside_eq M m (value s)); [unfold final_value; rewrite E; ring|].
    apply St.
  - pose proof (body_inside M m U s Lo LT) as P.
    destruct (body U s) as [s1|s1|e s1]; [| |discriminate].
    + apply (IH s1 s' P W).
    + injection W as <-. exact P.
  - injection W as <-. destruct Lo as (St & L & _).
    split; [exact St|]. split; [exact L|].
    destruct U as [u|]; [|exact I]. cbn in L, LT. qb.
    assert (E : since s == u) by lra.
    split; [|intros _; exact E].
    apply (inside_eq M m (value s)); [unfold final_value; rewrite E; ring|].
    apply St.
Qed.

(** ** One event *)

Lemma on_event_inside M m t0 time method s :
  steady M m s ->
  le_until (since s) (normalize time t0) = true ->
  match on_event t0 time method s with
  | Continue s' => steady M m s' /\ normalize time t0 = At (since s')
  | Break s' => steady M m s'
  | Throw _ _ => True
  end.
Proof.
  intros St L. unfold on_event.
  set (U := normalize time t0) in *.
  destruct (while _ U _) as [s1|e s1] eqn:W; [|exact I].
  apply (while_inside M m U) in W.
  2:{ split; [apply steady_walked, St|].
      split; [destruct s; exact L|]. destruct s; cbn. discriminate. }
  destruct W as (St1 & L1 & F).
  destruct U as [u|]; [|exact St1].
  destruct F as [F E]. cbn [le_until] in L1. qb.
  assert (St2 : steady M m
                  (move_and_yield s1 u (value s1 + velocity s1 * (u - since s1)))).
  { apply steady_free; [exact St1 | exact L1 | exact F|].
    intros b Eb. destruct (steady_bound_inv M m s1 b St1 Eb) as [_ Ev].
    rewrite <- Ev.
    assert (Es : since s1 == u) by (apply E; congruence).
    rewrite Es. ring. }
  assert (S2 : forall v, since (move_and_yield s1 u v) = u)
    by (intros; destruct s1; reflexivity).
  destruct method as [[[|] mo]|].
  - split; [apply steady_velocities, St2 | reflexivity].
  - destruct (remove_first _ _ _); [|exact I].
    split; [apply steady_velocities, St2 | reflexivity].
  - split; [exact St2 | reflexivity].
Qed.

(** ** The events *)

Lemma for_events_inside M m t0 ms : forall snapshot log s log' s',
  steady M m s ->
  time_sorted snapshot ->
  Forall (fun e => le_until (since s) (normalize (event_time e) t0) = true)
    snapshot ->
  for_events t0 ms snapshot log s = (log', Done s') ->
  steady M m s'.
Proof.
  induction snapshot as [|[[time k] mo] rest IH]; intros log s log' s' St TS Fa.
  - cbn [for_events].
    pose proof (on_event_inside M m t0 PInf None s St eq_refl) as P.
    destruct (on_event _ _ _ _) as [s1|s1|e s1]; intros [= <- <-];
      [apply P | exact P].
  - inversion TS as [|? ? TSr Ht]; subst.
    inversion Fa as [|? ? Fe Fr]; subst.
    cbn [for_events].
    destruct (negb (contains Meqb mo ms)).
    + destruct (remove_first _ _ _) as [log1|]; [|discriminate].
      apply IH; assumption.
    + cbn [event_time fst] in Fe.
      pose proof (on_event_inside M m t0 time (Some (k, mo)) s St Fe) as P.
      destruct (on_event _ _ _ _) as [s1|s1|e s1].
      * destruct P as [St1 N].
        apply IH; [exact St1 | exact TSr|].
        rewrite Forall_forall in *. intros e He.
        apply (normalize_mono time (event_time e) t0 (since s1)); [|exact N].
        apply (Ht e He).
      * intros [= <- <-]. exact P.
      * discriminate.
Qed.

(** ** The generator *)

Lemma determine_inside M m t0 v0 ms evs ys log :
  inside M m v0 ->
  time_sorted evs ->
  determine (t0, v0) ms evs (lines_of_number t0 M) (lines_of_number t0 m)
  = (ys, None, log) ->
  Forall (fun p => inside M m (VALUE p)) ys.
Proof.
  intros Iv TS. unfold determine, start, lines_of_number.
  cbn [Boundary.walk bind line lines_iter Boundary.skip_past Line.until
       until_le TIME VALUE fst snd].
  rewrite !guess_horizon. cbn [bind].
  assert (C : Boundary.cmp Ceil M v0 = false)
    by (apply Qltb_ge; apply Iv).
  assert (F : Boundary.cmp Floor m v0 = false)
    by (apply Qltb_ge; apply Iv).
  rewrite C, F. cbn [bind].
  set (s0 := mkDState t0 v0 0 [] None false
               (mkBoundary (Horizon t0 Forever M) [])
               (mkBoundary (Horizon t0 Forever m) []) true [Ceil; Floor] []).
  assert (St0 : steady M m s0).
  { split; [|split; [exact Iv | split; [constructor | split; discriminate]]].
    exists t0, t0. repeat split; apply Qle_refl. }
  pose proof (on_event_inside M m t0 (Fin t0) None s0 St0
                (normalize_ge (Fin t0) t0)) as P.
  destruct (on_event _ _ _ s0) as [s1|s1|e s1]; [| |discriminate].
  - destruct P as [St1 N].
    destruct (for_events _ _ _ _ _) as [log1 [s2|e s2]] eqn:FE; [|discriminate].
    intros [= <- <-].
    apply (for_events_inside M m t0 ms evs evs s1 log1 s2 St1 TS) in FE;
      [apply FE|].
    rewrite Forall_forall. intros e _.
    assert (E : since s1 = t0).
    { cbn [normalize] in N. injection N as N. rewrite <- N.
      unfold pymax. destruct (Qltb t0 t0); reflexivity. }
    rewrite E. apply normalize_ge.
  - intros [= <- <-]. apply P.
Qed.

(** ** The cache and the reads *)

Lemma cache_vertices_sub (P : Vertex -> Prop) : forall l prev,
  Forall P l -> Forall P (cache_vertices prev l).
Proof.
  induction l as [|[t v] r IH]; intros prev F; [constructor|].
  inversion F; subst. cbn [cache_vertices].
  destruct (match prev with Some p => Qeq_bool p t | None => false end);
    [apply IH; assumption | constructor; [assumption | apply IH; assumption]].
Qed.

(** Between two points within the limits a segment stays within them. *)
Lemma segment_inside M m t1 v1 t2 v2 t y :
  t1 < t2 -> inside M m v1 -> inside M m v2 ->
  Line.get (Segment t1 t2 v1 v2) t = Ok y ->
  inside M m y.
Proof.
  intros LT [A1 B1] [A2 B2] G.
  assert (V : Line.velocity (Segment t1 t2 v1 v2) = Ok ((v2 - v1) / (t2 - t1))).
  { cbn. destruct (Qeq_bool (t2 - t1) 0) eqn:E; qb; [lra | reflexivity]. }
  pose proof G as G0.
  apply get_in_range in G as (A & B & _).
  pose proof (get_affine _ _ _ V A B) as E.
  apply get_in_range in G0 as (_ & _ & ->).
  cbn [Line.since Line.until Line.value le_until] in *. qb.
  set (r := (t - t1) / (t2 - t1)).
  assert (R : 0 <= r /\ r <= 1).
  { subst r. split.
    - apply Qle_shift_div_l; lra.
    - apply Qle_shift_div_r; lra. }
  assert (E' : Line._get (Segment t1 t2 v1 v2) t == v1 + r * (v2 - v1)).
  { rewrite E. subst r. field. lra. }
  destruct R as [R0 R1]. unfold inside. rewrite E'. split; nra.
Qed.

Lemma value_inside M m (d : list Vertex) t y vel :
  increasing d ->
  Forall (fun p => inside M m (VALUE p)) d ->
  value_and_velocity_in d t = Ok (y, vel) ->
  inside M m y.
Proof.
  intros Inc F. rewrite Forall_forall in F. unfold value_and_velocity_in.
  destruct (if Nat.eqb (length d) 1 then 0%nat else bisect_left d t)
    as [|x'] eqn:Ex.
  - destruct d as [|first rest]; [discriminate|].
    intros [= <- _]. apply (F first). left. reflexivity.
  - destruct (nth_error d (S x')) as [[until final]|] eqn:E2.
    + destruct (nth_error d x') as [[since value]|] eqn:E1; [|discriminate].
      destruct (Line.get _ t) as [v|] eqn:G; [|discriminate].
      cbn [bind]. destruct (Line.velocity _); [|discriminate].
      cbn [bind]. intros [= <- _].
      apply (segment_inside M m since value until final t v);
        [ apply (neighbours_in_order d Inc x' since value until final E1 E2)
        | apply (F (since, value)), (nth_error_In _ _ E1)
        | apply (F (until, final)), (nth_error_In _ _ E2)
        | exact G ].
    + destruct d as [|first rest]; [discriminate|].
      intros [= <- _]. apply (F (last (first :: rest) first)).
      clear. generalize first at 1 3.
      induction rest as [|x r IH]; intros a; [left; reflexivity|].
      right. destruct r as [|y r']; [left; reflexivity|].
      apply (IH x).
Qed.

(** X28: a well-formed gauge between two numbers whose base value lies
    within them never leaves them: every vertex of its determination has
    a value between the minimum and the maximum, and so has [get] at
    every time. *)
Theorem determination_within_limits (g : Gauge) (M m : Q) :
  wf g ->
  _determination g = None ->
  _max g = Number M -> _min g = Number m ->
  m <= VALUE (base g) -> VALUE (base g) <= M ->
  exists d,
    determination g = Ok d
    /\ Forall (fun p => m <= VALUE p /\ VALUE p <= M) d
    /\ forall t, exists y, fst (get t g) = Ok y /\ m <= y /\ y <= M.
Proof.
  intros W C X N A B.
  destruct (read_shaped g W) as (d & R & [Inc (p & rest & E & _)] & _).
  assert (TS : time_sorted (_events g)) by (apply wf_fields in W; apply W).
  assert (F : Forall (fun p => inside M m (VALUE p)) d).
  { destruct g as [[t0 v0] ms mx mn evs c].
    cbn [_determination _max _min base VALUE snd _events] in *. subst c mx mn.
    cbn [read TIME fst] in R.
    destruct (determine (t0, v0) ms evs (lines_of_number t0 M)
                (lines_of_number t0 m)) as [[ys err] log] eqn:D.
    cbn [fst] in R. destruct err as [e|]; [discriminate|].
    injection R as <-.
    apply cache_vertices_sub.
    apply (determine_inside M m t0 v0 ms evs ys log); [split | |]; assumption. }
  exists d. split; [exact R|]. split; [exact F|].
  intros t. destruct (reads_on g d t R) as [-> _].
  destruct (value_and_velocity_total d t Inc) as [[y vel] V].
  { rewrite E. discriminate. }
  rewrite V. cbn [bind fst]. exists y. split; [reflexivity|].
  apply (value_inside M m d t y vel Inc F V).
Qed.

Lemma determination_within_limits_witness :
  exists d,
    determination up_and_down = Ok d
    /\ Forall (fun p => 0 <= VALUE p /\ VALUE p <= 10) d
    /\ forall t, exists y, fst (get t up_and_down) = Ok y /\ 0 <= y /\ y <= 10.
Proof.
  apply (determination_within_limits up_and_down 10 0).
  - vm_compute. repeat split; try discriminate; repeat constructor.
  - reflexivity.
  - reflexivity.
  - reflexivity.
  - vm_compute. discriminate.
  - vm_compute. discriminate.
Defined.

(** * Between its limits a gauge is the sum of its momenta *)

(** ** Sums *)




Lemma total_ext {A} (f g : A -> Q) l :
  (forall x, In x l -> f x == g x) -> total f l == total g l.
Proof.
  induction l as [|x r IH]; intros H; cbn [total]; [reflexivity|].
  rewrite (H x (or_introl eq_refl)), IH; [reflexivity|].
  intros y Hy. apply H. right. exact Hy.
Qed.

Lemma sum_from l : forall a, fold_left Qplus l a == a + sum l.
Proof.
  unfold sum. induction l as [|x r IH]; intros a; cbn [fold_left]; [ring|].
  rewrite (IH (a + x)), (IH (0 + x)). ring.
Qed.


Lemma sum_cons x l : sum (x :: l) == x + sum l.
Proof. unfold sum. cbn [fold_left]. rewrite sum_from. unfold sum. ring. Qed.


(** ** The value by momenta and by events *)







(** ** A stretch on which no boundary is met *)






(** ** One event on a free gauge *)


Lemma budget_between M m s : between_numbers M m s -> budget s = 17%nat.
Proof.
  intros (tc & tf & C & F & _). unfold budget. rewrite C, F. reflexivity.
Qed.



(** ** The events of a free gauge *)




(** ** The generator of a free gauge *)



(** ** The cache and the reads of a free gauge *)











(** ** A gauge built by [add_momentum] alone *)







(** * Over its maximum a gauge only comes down *)

(** ** The determiner does not look at what it has yielded *)

Lemma find_intersection_yielded s ys ray bs :
  find_intersection (with_yielded s ys) ray bs = find_intersection s ray bs.
Proof.
  induction bs as [|b rest IH]; [reflexivity|].
  cbn [find_intersection]. rewrite IH. destruct s, b; reflexivity.
Qed.

Lemma find_missing_yielded s ys ray U bs :
  find_missing (with_yielded s ys) ray U bs = find_missing s ray U bs.
Proof.
  induction bs as [|b rest IH]; [reflexivity|].
  cbn [find_missing]. rewrite IH. destruct s, b; reflexivity.
Qed.

Lemma follow_yielded pre U s :
  follow U (with_yielded s (pre ++ yielded s)) = flow_yielded pre (follow U s).
Proof.
  unfold follow.
  rewrite find_intersection_yielded, find_missing_yielded.
  destruct s as [si va ve vs bo ov ce fl ag wk ys].
  cbv [boundary_of with_yielded with_bound move_and_yield since value
       velocity velocities bound overlapped ceil floor again
       walked_boundaries yielded].
  destruct ov.
  - destruct bo as [b|]; [|reflexivity].
    destruct (Umin _ U); [|reflexivity].
    destruct (Line.get _ _); [|reflexivity].
    cbn. rewrite app_assoc. reflexivity.
  - destruct (find_intersection _ _ _) as [[[[b t] v]|]|e]; [| |reflexivity].
    + cbn. rewrite app_assoc. reflexivity.
    + destruct bo; [reflexivity|].
      destruct (find_missing _ _ _ _) as [[[[b t] v]|]|e]; [| |reflexivity].
      * cbn. rewrite app_assoc. reflexivity.
      * reflexivity.
Qed.

Lemma advance_yielded pre U s :
  advance U (with_yielded s (pre ++ yielded s)) = flow_yielded pre (advance U s).
Proof.
  unfold advance.
  destruct s as [si va ve vs bo ov ce fl ag wk ys].
  cbv [boundary_of with_yielded with_velocity with_bound since value
       velocity velocities bound overlapped ceil floor again
       walked_boundaries yielded].
  assert (F : forall vel,
    follow U (mkDState si va vel vs bo ov ce fl ag wk (pre ++ ys))
    = flow_yielded pre (follow U (mkDState si va vel vs bo ov ce fl ag wk ys))).
  { intros vel.
    apply (follow_yielded pre U (mkDState si va vel vs bo ov ce fl ag wk ys)). }
  destruct bo as [b|].
  - destruct ov.
    + destruct (Line.velocity _) as [lv|e]; cbn [bind]; [|reflexivity].
      destruct (Boundary.cmp b _ lv); [reflexivity | apply F].
    + cbn [bind]. apply F.
  - cbn [bind]. destruct ov; [reflexivity | apply F].
Qed.

Lemma body_yielded pre U s :
  body U (with_yielded s (pre ++ yielded s)) = flow_yielded pre (body U s).
Proof.
  unfold body.
  destruct s as [si va ve vs bo ov ce fl ag wk ys].
  cbv [boundary_of with_yielded with_walked with_boundary since value
       velocity velocities bound overlapped ceil floor again
       walked_boundaries yielded].
  destruct ag.
  - apply (advance_yielded pre U
             (mkDState si va ve vs bo ov ce fl false [Ceil; Floor] ys)).
  - destruct (Uleb U (Line.until (line ce)) && Uleb U (Line.until (line fl)));
      [reflexivity|].
    destruct (Ultb (Line.until (line fl)) (Line.until (line ce))).
    + destruct (Boundary.walk (lines_iter fl)) as [x|e]; [|reflexivity].
      apply (advance_yielded pre U
               (mkDState si va ve vs bo ov ce x false [Floor] ys)).
    + destruct (Boundary.walk (lines_iter ce)) as [x|e]; [|reflexivity].
      apply (advance_yielded pre U
               (mkDState si va ve vs bo ov x fl false [Ceil] ys)).
Qed.

Lemma while_yielded pre U : forall fuel s,
  while fuel U (with_yielded s (pre ++ yielded s))
  = outcome_yielded pre (while fuel U s).
Proof.
  induction fuel as [|fuel IH]; intros s; cbn [while];
    replace (since (with_yielded s (pre ++ yielded s))) with (since s)
      by (destruct s; reflexivity);
    destruct (lt_until (since s) U); try reflexivity.
  rewrite body_yielded.
  destruct (body U s) as [s1|s1|e s1]; cbn [flow_yielded outcome_yielded];
    [apply IH | reflexivity | reflexivity].
Qed.

Lemma on_event_yielded pre t0 time method s :
  on_event t0 time method (with_yielded s (pre ++ yielded s))
  = flow_yielded pre (on_event t0 time method s).
Proof.
  unfold on_event.
  replace (budget (with_yielded s (pre ++ yielded s))) with (budget s)
    by (destruct s; reflexivity).
  replace (with_walked (with_yielded s (pre ++ yielded s)) true
             (walked_boundaries (with_yielded s (pre ++ yielded s))))
    with (with_yielded (with_walked s true (walked_boundaries s))
            (pre ++ yielded (with_walked s true (walked_boundaries s))))
    by (destruct s; reflexivity).
  rewrite while_yielded.
  destruct (while _ _ _) as [s1|e s1]; cbn [outcome_yielded]; [|reflexivity].
  destruct (normalize time t0) as [u|]; [|reflexivity].
  destruct s1 as [si va ve vs bo ov ce fl ag wk ys].
  cbv [with_yielded move_and_yield with_velocities since value velocity
       velocities bound overlapped ceil floor again walked_boundaries
       yielded].
  destruct method as [[[|] mo]|].
  - cbn. rewrite app_assoc. reflexivity.
  - destruct (remove_first _ _ _); cbn; rewrite app_assoc; reflexivity.
  - cbn. rewrite app_assoc. reflexivity.
Qed.

(** ** Coming down to the maximum *)

(** Over the maximum only the momenta that bring the gauge back count. *)
Lemma sum_filter_ceil l :
  sum (filter (fun v => Boundary.cmp Ceil v 0) l) <= 0.
Proof.
  induction l as [|x r IH]; [unfold sum; cbn; lra|].
  cbn [filter]. destruct (Boundary.cmp Ceil x 0) eqn:C; [|exact IH].
  rewrite sum_cons. unfold Boundary.cmp in C. qb. lra.
Qed.

Lemma Umin_Forever_r U : Umin U Forever = U.
Proof. destruct U; reflexivity. Qed.

(** A ray that falls from over a horizon to it, or under it, meets it,
    and later than it starts. *)
Lemma intersect_ceil_found s U v vel tc M :
  tc <= s -> M < v -> vel < 0 ->
  match U with At u => v + vel * (u - s) <= M | Forever => True end ->
  exists t y,
    Line.intersect (Ray s U v vel) (Horizon tc Forever M) = Ok (t, y)
    /\ Qeq_bool t s = false.
Proof.
  intros Lc Lv Lvel Lu.
  unfold Line.intersect, Line.intercept.
  cbn [Line.velocity Line.value Line.since Line.until bind].
  assert (N : Qeq_bool (vel - 0) 0 = false) by (apply Qeq_bool_false; lra).
  rewrite N. rewrite Umin_Forever_r.
  set (t := (M - 0 * tc - (v - vel * s)) / (vel - 0)).
  assert (Et : t * vel == s * vel + (M - v)) by (unfold t; field; lra).
  assert (Lt : s < t) by nra.
  assert (A : Qle_bool (pymax s tc) t = true).
  { apply Qle_bool_iff.
    destruct (pymax_cases s tc) as [[? ->]|[? ->]]; lra. }
  assert (B : le_until t U = true).
  { destruct U as [u|]; [|reflexivity]. apply Qle_bool_iff. nra. }
  rewrite A, B. cbn [andb].
  rewrite get_ok by (cbn [Line.since Line.until]; first [lra | exact B]).
  cbn [bind]. exists t, (Line._get (Ray s U v vel) t).
  split; [reflexivity|]. apply Qeq_bool_false. lra.
Qed.

Lemma over_between M m v0 s : over M m v0 s -> between_numbers M m s.
Proof. intros H. apply H. Qed.

Lemma over_same M m v0 s s' :
  over M m v0 s ->
  since s' = since s -> value s' = value s -> bound s' = bound s ->
  overlapped s' = overlapped s -> ceil s' = ceil s -> floor s' = floor s ->
  over M m v0 s'.
Proof.
  intros (B & Eb & O & L1 & L2) E1 E2 E3 E4 E5 E6.
  unfold over. rewrite E2, E3, E4, Eb, O.
  split; [|repeat split; assumption].
  apply (between_later M m s); [exact B | exact E5 | exact E6|].
  rewrite E1. apply Qle_refl.
Qed.

(** When the falling ray meets no boundary it is over the maximum at its
    end too. *)
Lemma find_intersection_over M m v0 U s vel :
  over M m v0 s -> vel <= 0 ->
  le_until (since s) U = true ->
  find_intersection s (Ray (since s) U (value s) vel) [Ceil; Floor] = Ok None ->
  match U with
  | At u => M < value s + vel * (u - since s)
  | Forever => True
  end.
Proof.
  intros (B & Eb & O & L1 & L2) Lvel L FI.
  destruct U as [u|]; [|exact I].
  apply Qnot_le_lt. intros Le.
  cbn [le_until] in L. qb.
  assert (Lv : vel < 0) by nra.
  destruct (line_between M m s Ceil B) as (tc & El & Lc).
  destruct (intersect_ceil_found (since s) (At u) (value s) vel tc M
              Lc L1 Lv Le) as (t & y & E & Nt).
  cbn [find_intersection] in FI. rewrite El in FI. cbn [limit_of] in FI.
  rewrite E, Nt, guess_horizon in FI. discriminate FI.
Qed.

(** One pass over the maximum: the gauge goes on falling, or it meets a
    boundary and is bound to it. *)
Lemma advance_over M m v0 U s :
  over M m v0 s ->
  le_until (since s) U = true ->
  walked_boundaries s = [Ceil; Floor] ->
  match advance U s with
  | Continue s' =>
      (s' = with_velocity s
              (sum (filter (fun v => Boundary.cmp Ceil v 0) (velocities s)))
       /\ match U with
          | At u => M < final_value u s'
          | Forever => True
          end)
      \/ (exists vel b t v,
            s' = move_and_yield
                   (with_bound (with_velocity s vel) (Some b) true true) t v
            /\ v == limit_of M m b /\ since s <= t /\ le_until t U = true)
  | Break _ => False
  | Throw _ _ => True
  end.
Proof.
  intros Ov L Wk. pose proof Ov as (B & Eb & O & L1 & L2).
  unfold advance. rewrite Eb, O.
  set (vel := sum (filter (fun v => Boundary.cmp Ceil v 0) (velocities s))).
  assert (Lvel : vel <= 0) by apply sum_filter_ceil.
  set (sv := with_velocity s vel).
  assert (Ovs : over M m v0 sv)
    by (apply (over_same M m v0 s); [exact Ov | destruct s; reflexivity ..]).
  replace (overlapped sv) with false by (destruct s; cbn in *; congruence).
  unfold follow.
  replace (overlapped sv) with false by (destruct s; cbn in *; congruence).
  replace (walked_boundaries sv) with [Ceil; Floor]
    by (destruct s; cbn in *; congruence).
  replace (bound sv) with (Some Ceil) by (destruct s; cbn in *; congruence).
  replace (velocity sv) with vel by (destruct s; reflexivity).
  assert (Es : since sv = since s) by (destruct s; reflexivity).
  assert (Ev : value sv = value s) by (destruct s; reflexivity).
  pose proof (find_intersection_inside M m sv U vel [Ceil; Floor]
                (over_between M m v0 sv Ovs)) as FI.
  pose proof (find_intersection_over M m v0 U sv vel Ovs Lvel) as FO.
  rewrite Es in FO. specialize (FO L).
  destruct (find_intersection _ _ _) as [[[[b t] v]|]|e]; [| |exact I].
  - right. destruct FI as (E1 & E2 & E3).
    exists vel, b, t, v. rewrite Es in E2.
    split; [reflexivity|]. repeat split; assumption.
  - left. split; [reflexivity|]. specialize (FO eq_refl).
    destruct U as [u|]; [|exact I].
    unfold final_value. rewrite Es, Ev.
    replace (velocity sv) with vel by (destruct s; reflexivity).
    exact FO.
Qed.

Lemma steady_yields M m s ys :
  steady M m s ->
  Forall (fun p => inside M m (VALUE p)) ys ->
  steady M m (with_yielded s ys).
Proof.
  intros (B & I & Y & Bd & Ov) F. destruct s.
  split; [exact B | split; [exact I | split; [exact F | split]]];
    [exact Bd | exact Ov].
Qed.

(** The gauge meets boundary [b] at [t]; nothing but this vertex is
    counted as yielded. *)
Lemma steady_touch M m s b a t v :
  between_numbers M m s -> m <= M -> since s <= t -> v == limit_of M m b ->
  steady M m
    (with_yielded (move_and_yield (with_bound s (Some b) true a) t v) [(t, v)]).
Proof.
  intros (tc & tf & C & F & Lc & Lf) Lm L E.
  assert (Iv : inside M m v).
  { unfold inside. destruct b; cbn [limit_of] in E; lra. }
  destruct s as [si va ve vs bo ov ce fl ag wk ys].
  cbn [since ceil floor] in C, F, Lc, Lf, L.
  split; [|split; [exact Iv | split; [|split]]].
  - exists tc, tf. split; [exact C | split; [exact F | split]]; cbn; lra.
  - constructor; [exact Iv | constructor].
  - intros b' [= <-]. split; [reflexivity | exact E].
  - discriminate.
Qed.

(** The stretch to [U] for a gauge over its maximum: it ends over the
    maximum, without a vertex, or after the gauge has come down to a
    boundary. *)
Lemma while_over M m v0 U s s' :
  over M m v0 s -> m <= M ->
  le_until (since s) U = true ->
  while (budget s) U (with_walked s true (walked_boundaries s)) = Done s' ->
  (over M m v0 s' /\ yielded s' = yielded s /\ since s' = since s
   /\ match U with
      | At u => M < final_value u s' /\ final_value u s' <= value s'
      | Forever => True
      end)
  \/ (exists s'',
        arrived M m U s''
        /\ s' = with_yielded s'' (yielded s ++ yielded s'')).
Proof.
  intros Ov Lm L W. pose proof Ov as (B & Eb & O & L1 & L2).
  rewrite (budget_between M m s B) in W.
  set (sw := with_walked s true (walked_boundaries s)) in *.
  assert (Ow : over M m v0 sw)
    by (apply (over_same M m v0 s); [exact Ov | destruct s; reflexivity ..]).
  assert (Es : since sw = since s) by (destruct s; reflexivity).
  remember 16%nat as fuel eqn:Efu.
  cbn [while] in W. rewrite Es in W.
  destruct (lt_until (since s) U) eqn:LT.
  - unfold body in W.
    replace (again sw) with true in W by (destruct s; reflexivity).
    set (sa := with_walked sw false [Ceil; Floor]) in *.
    assert (Oa : over M m v0 sa)
      by (apply (over_same M m v0 s); [exact Ov | destruct s; reflexivity ..]).
    assert (Ea : since sa = since s) by (destruct s; reflexivity).
    pose proof (advance_over M m v0 U sa Oa) as P.
    rewrite Ea in P. specialize (P L).
    specialize (P ltac:(destruct s; reflexivity)).
    destruct (advance U sa) as [s1|s1|e s1]; [|contradiction|discriminate].
    destruct P as [[E1 F]|(vel & b & t & v & E1 & Ev & Lt & Lu)].
    + left.
      set (vel := sum (filter (fun v => Boundary.cmp Ceil v 0) (velocities sa)))
        in *.
      assert (Lvel : vel <= 0) by apply sum_filter_ceil.
      clearbody vel.
      assert (O1 : over M m v0 s1).
      { apply (over_same M m v0 s);
          [exact Ov | subst s1; destruct s; reflexivity ..]. }
      assert (W1 : while fuel U s1 = Done s1).
      { rewrite Efu. remember 15%nat as fuel' eqn:Ef'. cbn [while].
        replace (since s1) with (since s) by (subst s1; destruct s; reflexivity).
        rewrite LT. unfold body.
        replace (again s1) with false by (subst s1; destruct s; reflexivity).
        pose proof (over_between M m v0 s1 O1) as B1.
        destruct (line_between M m s1 Ceil B1) as (tc & Ec & _).
        destruct (line_between M m s1 Floor B1) as (tf & Ef & _).
        cbn [boundary_of] in Ec, Ef. rewrite Ec, Ef.
        cbn [Line.until]. rewrite Uleb_Forever. reflexivity. }
      rewrite W1 in W. injection W as <-.
      split; [exact O1|].
      split; [subst s1; destruct s; reflexivity|].
      split; [subst s1; destruct s; reflexivity|].
      destruct U as [u|]; [|exact I]. split; [exact F|].
      unfold final_value.
      replace (velocity s1) with vel by (subst s1; destruct s; reflexivity).
      replace (since s1) with (since s) by (subst s1; destruct s; reflexivity).
      cbn [le_until] in L. qb.
      pose proof (Qmult_le_0_compat (- vel) (u - since s)) as P.
      assert (P' : 0 <= - vel * (u - since s)) by (apply P; lra).
      assert (X : vel * (u - since s) == - (- vel * (u - since s))) by ring.
      rewrite X. set (A := - vel * (u - since s)) in *. clearbody A. lra.
    + right.
      set (s0 := with_yielded s1 [(t, v)]).
      assert (St : steady M m s0).
      { subst s0. rewrite E1. apply steady_touch; [|exact Lm | |exact Ev].
        - apply (between_later M m s); [exact B | | |];
            destruct s; cbn; first [reflexivity | apply Qle_refl].
        - replace (since (with_velocity sa vel)) with (since s)
            by (destruct s; reflexivity).
          exact Lt. }
      assert (Lo : looping M m U s0).
      { split; [exact St|]. split.
        - subst s0 s1. destruct s; exact Lu.
        - subst s0 s1. destruct s; cbn. discriminate. }
      assert (E0 : s1 = with_yielded s0 (yielded s ++ yielded s0))
        by (subst s0 s1 sa sw; destruct s; reflexivity).
      rewrite E0, while_yielded in W.
      destruct (while fuel U s0) as [s2|e s2] eqn:W0; [|discriminate].
      cbn [outcome_yielded] in W. injection W as <-.
      exists s2. split; [|reflexivity].
      apply (while_inside M m U fuel s0 s2 Lo W0).
  - injection W as <-. left.
    split; [exact Ow|].
    split; [destruct s; reflexivity|].
    split; [exact Es|].
    destruct U as [u|]; [|exact I].
    cbn [le_until lt_until] in L, LT. qb.
    unfold final_value. rewrite Es.
    replace (value sw) with (value s) by (destruct s; reflexivity).
    assert (E : u - since s == 0) by lra.
    rewrite E. split; lra.
Qed.

(** ** One event *)

Lemma inside_wider M m v0 x : M <= v0 -> inside M m x -> inside v0 m x.
Proof. unfold inside. intros L [A B]. split; lra. Qed.

Lemma yielded_wider M m v0 ys :
  M <= v0 ->
  Forall (fun p : Vertex => inside M m (VALUE p)) ys ->
  Forall (fun p : Vertex => inside v0 m (VALUE p)) ys.
Proof.
  intros L F. apply (Forall_impl _ (fun p => inside_wider M m v0 (VALUE p) L)), F.
Qed.

Lemma steady_yielded M m s :
  steady M m s -> Forall (fun p => inside M m (VALUE p)) (yielded s).
Proof. intros H. apply H. Qed.

Lemma settling_velocities M m v0 s vs :
  settling M m v0 s -> settling M m v0 (with_velocities s vs).
Proof. destruct s; exact (fun H => H). Qed.

(** The end of a stretch that the gauge ends within its limits. *)
Lemma arrived_settling M m v0 u s ys :
  M <= v0 ->
  arrived M m (At u) s ->
  Forall (fun p => inside v0 m (VALUE p)) ys ->
  settling M m v0
    (move_and_yield (with_yielded s (ys ++ yielded s)) u
       (value (with_yielded s (ys ++ yielded s))
        + velocity (with_yielded s (ys ++ yielded s))
          * (u - since (with_yielded s (ys ++ yielded s))))).
Proof.
  intros Lv (St & L & F & E) Fy. cbn [le_until] in L. qb.
  assert (St2 : steady M m
                  (move_and_yield s u (value s + velocity s * (u - since s)))).
  { apply steady_free; [exact St | exact L | exact F|].
    intros b Eb. destruct (steady_bound_inv M m s b St Eb) as [_ Ev].
    rewrite <- Ev.
    assert (Es : since s == u) by (apply E; congruence).
    rewrite Es. ring. }
  pose proof (steady_yielded M m s St) as Y.
  split.
  - destruct s; cbn in *.
    apply Forall_app. split; [apply Forall_app; split; [exact Fy|]|].
    + apply (yielded_wider M m v0 _ Lv Y).
    + constructor; [|constructor].
      apply (inside_wider M m v0 _ Lv F).
  - right.
    pose proof (steady_yields M m _ [] St2 (Forall_nil _)) as St3.
    destruct s; exact St3.
Qed.

Lemma on_event_settling M m v0 t0 time method s :
  settling M m v0 s -> m <= M -> M <= v0 ->
  le_until (since s) (normalize time t0) = true ->
  match on_event t0 time method s with
  | Continue s' => settling M m v0 s' /\ normalize time t0 = At (since s')
  | Break s' => settling M m v0 s'
  | Throw _ _ => True
  end.
Proof.
  intros [Fy [Ov|St]] Lm Lv L.
  - unfold on_event. set (U := normalize time t0) in *.
    destruct (while _ U _) as [s1|e s1] eqn:W; [|exact I].
    destruct (while_over M m v0 U s s1 Ov Lm L W)
      as [(O1 & Ey & Es & F)|(s2 & Ar & E1)].
    + destruct U as [u|].
      * destruct F as [F1 F2]. unfold final_value in F1, F2.
        cbn [le_until] in L. qb.
        remember (value s1 + velocity s1 * (u - since s1)) as v eqn:Ev.
        rewrite <- Es in L. clear Ev.
        assert (S2 : settling M m v0 (move_and_yield s1 u v)).
        { pose proof O1 as (B & Eb & O & L1 & L2). split.
          - replace (yielded (move_and_yield s1 u v))
              with (yielded s ++ [(u, v)])
              by (rewrite <- Ey; destruct s1; reflexivity).
            apply Forall_app. split; [exact Fy|].
            constructor; [|constructor]. unfold inside, VALUE; cbn [snd].
            split; lra.
          - left. split; [|split; [|split; [|split]]].
            + apply (between_later M m s1); [exact B | | |];
                destruct s1; cbn in *; first [reflexivity | lra].
            + destruct s1; exact Eb.
            + destruct s1; exact O.
            + destruct s1; cbn in *. lra.
            + destruct s1; cbn in *. lra. }
        assert (E2 : forall x, since (move_and_yield s1 u x) = u)
          by (intros; destruct s1; reflexivity).
        destruct method as [[[|] mo]|].
        -- split; [apply settling_velocities, S2 | reflexivity].
        -- destruct (remove_first _ _ _); [|exact I].
           split; [apply settling_velocities, S2 | reflexivity].
        -- split; [exact S2 | reflexivity].
      * split; [rewrite Ey; exact Fy | left; exact O1].
    + rewrite E1. destruct U as [u|].
      * pose proof (arrived_settling M m v0 u s2 (yielded s) Lv Ar Fy) as S2.
        assert (E2 : forall ys x,
                  since (move_and_yield (with_yielded s2 ys) u x) = u)
          by (intros; destruct s2; reflexivity).
        destruct method as [[[|] mo]|].
        -- split; [apply settling_velocities, S2 | reflexivity].
        -- destruct (remove_first _ _ _); [|exact I].
           split; [apply settling_velocities, S2 | reflexivity].
        -- split; [exact S2 | reflexivity].
      * destruct Ar as (St2 & _ & _). split.
        -- replace (yielded (with_yielded s2 (yielded s ++ yielded s2)))
             with (yielded s ++ yielded s2) by (destruct s2; reflexivity).
           apply Forall_app. split; [exact Fy|].
           apply (yielded_wider M m v0 _ Lv (steady_yielded M m s2 St2)).
        -- right.
           pose proof (steady_yields M m _ [] St2 (Forall_nil _)) as St3.
           destruct s2; exact St3.
  - pose proof (on_event_yielded (yielded s) t0 time method (with_yielded s []))
      as P.
    replace (with_yielded (with_yielded s [])
               (yielded s ++ yielded (with_yielded s []))) with s in P
      by (destruct s; cbn; rewrite app_nil_r; reflexivity).
    rewrite P.
    assert (L' : le_until (since (with_yielded s [])) (normalize time t0) = true)
      by (destruct s; exact L).
    pose proof (on_event_inside M m t0 time method (with_yielded s []) St L')
      as Q.
    destruct (on_event t0 time method (with_yielded s [])) as [s1|s1|e s1];
      cbn [flow_yielded]; [| |exact I].
    + destruct Q as [St1 N]. split.
      * split.
        -- replace (yielded (with_yielded s1 (yielded s ++ yielded s1)))
             with (yielded s ++ yielded s1) by (destruct s1; reflexivity).
           apply Forall_app. split; [exact Fy|].
           apply (yielded_wider M m v0 _ Lv (steady_yielded M m s1 St1)).
        -- right.
           pose proof (steady_yields M m _ [] St1 (Forall_nil _)) as St3.
           destruct s1; exact St3.
      * rewrite N. destruct s1; reflexivity.
    + split.
      * replace (yielded (with_yielded s1 (yielded s ++ yielded s1)))
          with (yielded s ++ yielded s1) by (destruct s1; reflexivity).
        apply Forall_app. split; [exact Fy|].
        apply (yielded_wider M m v0 _ Lv (steady_yielded M m s1 Q)).
      * right.
        pose proof (steady_yields M m _ [] Q (Forall_nil _)) as St3.
        destruct s1; exact St3.
Qed.

(** ** The events *)

Lemma for_events_settling M m v0 t0 ms : forall snapshot log s log' s',
  settling M m v0 s -> m <= M -> M <= v0 ->
  time_sorted snapshot ->
  Forall (fun e => le_until (since s) (normalize (event_time e) t0) = true)
    snapshot ->
  for_events t0 ms snapshot log s = (log', Done s') ->
  settling M m v0 s'.
Proof.
  induction snapshot as [|[[time k] mo] rest IH];
    intros log s log' s' St Lm Lv TS Fa.
  - cbn [for_events].
    pose proof (on_event_settling M m v0 t0 PInf None s St Lm Lv eq_refl) as P.
    destruct (on_event _ _ _ _) as [s1|s1|e s1]; intros [= <- <-];
      [apply P | exact P].
  - inversion TS as [|? ? TSr Ht]; subst.
    inversion Fa as [|? ? Fe Fr]; subst.
    cbn [for_events].
    destruct (negb (contains Meqb mo ms)).
    + destruct (remove_first _ _ _) as [log1|]; [|discriminate].
      apply IH; assumption.
    + cbn [event_time fst] in Fe.
      pose proof (on_event_settling M m v0 t0 time (Some (k, mo)) s St Lm Lv Fe)
        as P.
      destruct (on_event _ _ _ _) as [s1|s1|e s1].
      * destruct P as [St1 N].
        apply IH; [exact St1 | exact Lm | exact Lv | exact TSr|].
        rewrite Forall_forall in *. intros e He.
        apply (normalize_mono time (event_time e) t0 (since s1)); [|exact N].
        apply (Ht e He).
      * intros [= <- <-]. exact P.
      * discriminate.
Qed.

(** ** The generator *)

Lemma determine_over M m t0 v0 ms evs ys log :
  m <= M -> M < v0 ->
  time_sorted evs ->
  determine (t0, v0) ms evs (lines_of_number t0 M) (lines_of_number t0 m)
  = (ys, None, log) ->
  Forall (fun p => inside v0 m (VALUE p)) ys.
Proof.
  intros Lm Lv TS. unfold determine, start, lines_of_number.
  cbn [Boundary.walk bind line lines_iter Boundary.skip_past Line.until
       until_le TIME VALUE fst snd].
  rewrite !guess_horizon. cbn [bind].
  assert (C : Boundary.cmp Ceil M v0 = true) by (apply Qltb_lt, Lv).
  rewrite C. cbn [bind].
  set (s0 := mkDState t0 v0 0 [] (Some Ceil) false
               (mkBoundary (Horizon t0 Forever M) [])
               (mkBoundary (Horizon t0 Forever m) []) true [Ceil; Floor] []).
  assert (St0 : settling M m v0 s0).
  { split; [constructor|]. left.
    split; [|split; [reflexivity | split; [reflexivity | split]]].
    - exists t0, t0. split; [reflexivity | split; [reflexivity|]].
      split; apply Qle_refl.
    - exact Lv.
    - apply Qle_refl. }
  assert (Lv' : M <= v0) by lra.
  pose proof (on_event_settling M m v0 t0 (Fin t0) None s0 St0 Lm Lv'
                (normalize_ge (Fin t0) t0)) as P.
  destruct (on_event _ _ _ s0) as [s1|s1|e s1]; [| |discriminate].
  - destruct P as [St1 N].
    destruct (for_events _ _ _ _ _) as [log1 [s2|e s2]] eqn:FE; [|discriminate].
    intros [= <- <-].
    apply (for_events_settling M m v0 t0 ms evs evs s1 log1 s2 St1 Lm Lv' TS)
      in FE; [apply FE|].
    rewrite Forall_forall. intros e _.
    assert (E : since s1 = t0).
    { cbn [normalize] in N. injection N as N. rewrite <- N.
      unfold pymax. destruct (Qltb t0 t0); reflexivity. }
    rewrite E. apply normalize_ge.
  - intros [= <- <-]. apply P.
Qed.

(** X30: over its maximum a gauge only comes down.  A well-formed gauge
    between two numbers that starts over its maximum never rises above
    the value it started with and never falls below its minimum: every
    vertex of its determination has a value between the minimum and the
    base value, and so has [get] at every time. *)
Theorem over_max_only_comes_down (g : Gauge) (M m : Q) :
  wf g ->
  _determination g = None ->
  _max g = Number M -> _min g = Number m ->
  m <= M -> M < VALUE (base g) ->
  exists d,
    determination g = Ok d
    /\ Forall (fun p => m <= VALUE p /\ VALUE p <= VALUE (base g)) d
    /\ forall t, exists y,
         fst (get t g) = Ok y /\ m <= y /\ y <= VALUE (base g).
Proof.
  intros W C X N A B.
  destruct (read_shaped g W) as (d & R & [Inc (p & rest & E & _)] & _).
  assert (TS : time_sorted (_events g)) by (apply wf_fields in W; apply W).
  assert (F : Forall (fun p => inside (VALUE (base g)) m (VALUE p)) d).
  { destruct g as [[t0 v0] ms mx mn evs c].
    cbn [_determination _max _min base VALUE snd _events] in *. subst c mx mn.
    cbn [read TIME fst] in R.
    destruct (determine (t0, v0) ms evs (lines_of_number t0 M)
                (lines_of_number t0 m)) as [[ys err] log] eqn:D.
    cbn [fst] in R. destruct err as [e|]; [discriminate|].
    injection R as <-.
    apply cache_vertices_sub.
    apply (determine_over M m t0 v0 ms evs ys log); assumption. }
  exists d. split; [exact R|]. split; [exact F|].
  intros t. destruct (reads_on g d t R) as [-> _].
  destruct (value_and_velocity_total d t Inc) as [[y vel] V].
  { rewrite E. discriminate. }
  rewrite V. cbn [bind fst]. exists y. split; [reflexivity|].
  apply (value_inside (VALUE (base g)) m d t y vel Inc F V).
Qed.

Lemma over_max_only_comes_down_witness :
  exists d,
    determination (plain_gauge 15 10 0 [momentum (-1) (Fin 0) (Fin 20)]) = Ok d
    /\ Forall (fun p => 0 <= VALUE p /\ VALUE p <= 15) d
    /\ forall t, exists y,
         fst (get t (plain_gauge 15 10 0 [momentum (-1) (Fin 0) (Fin 20)]))
         = Ok y
         /\ 0 <= y /\ y <= 15.
Proof.
  apply (over_max_only_comes_down
           (plain_gauge 15 10 0 [momentum (-1) (Fin 0) (Fin 20)]) 10 0).
  - vm_compute. repeat split; try discriminate; repeat constructor.
  - reflexivity.
  - reflexivity.
  - reflexivity.
  - vm_compute. discriminate.
  - vm_compute. reflexivity.
Defined.
